(** * os/user: the systemd-userdb VARLINK client and its JSON reader

    A shallow embedding of [userdbclientjson_linux.go] (the hand-written JSON
    reader) and of the userdb client (call serialisation, the [query]
    dispatcher, per-machine field resolution, the lookup operations), followed
    by the properties established about them.

    Conventions.
    - A Go [string] and a Go [[]byte] are both a [list byte].
    - A Go [error] is its message; [option error] is a possibly nil error.
    - [int], [int64] and [rune] values are in [Z].
    - A [jsonObject] (a Go map) is a [gmap]; a nil map and an empty map answer
      every lookup alike and are both [∅].
    - A run-time panic (index out of range) is an explicit outcome. *)

From Stdlib Require Import ZArith List Strings.Byte Strings.String Bool Lia.
From stdpp Require Import gmap list sets.
Import ListNotations.
Local Open Scope Z_scope.
#[local] Set Warnings "-clear-no-such-hyp".

#[global] Instance byte_eq_dec : EqDecision byte := Byte.byte_eq_dec.
#[global] Program Instance byte_countable : Countable byte :=
  inj_countable Byte.to_nat Byte.of_nat Byte.of_to_nat.

(** ** Bytes and literals *)

Abbreviation bytes := (list byte).
Abbreviation error := (list byte).

Definition dquote : byte := x22.
Definition backslash : byte := x5c.

(** Text of the source written as a Rocq literal. *)
Definition txt (s : string) : bytes := list_byte_of_string s.

(** The same, with an apostrophe in the literal standing for a double quote
    (none of the literals of the source contains an apostrophe). *)
Definition lit (s : string) : bytes :=
  map (fun c => if Byte.eqb c x27 then dquote else c) (list_byte_of_string s).

Definition byteZ (c : byte) : Z := Z.of_N (Byte.to_N c).

Definition Zbyte (n : Z) : byte :=
  match Byte.of_N (Z.to_N (n mod 256)) with
  | Some c => c
  | None => x00
  end.

Definition len (r : bytes) : Z := Z.of_nat (length r).

(** ** Library functions used by the source

    [unicode/utf8], [unicode/utf16], [strconv] and [bytes] are not part of the
    repository; they are written out here after their documentation. *)

Definition RuneError : Z := 65533.
Definition RuneSelf : Z := 128.

(** [utf8.AppendRune] / [utf8.EncodeRune]: a rune outside the Unicode range
    or a surrogate is encoded as U+FFFD. *)
Definition utf8_EncodeRune (r : Z) : bytes :=
  let ok := (if Z.leb 0 r then
               if Z.leb r 1114111 then negb (Z.leb 55296 r && Z.leb r 57343)
               else false
             else false) in
  let r := if ok then r else RuneError in
  if Z.leb r 127 then [Zbyte r]
  else if Z.leb r 2047 then
    [Zbyte (Z.lor 192 (Z.shiftr r 6)); Zbyte (Z.lor 128 (Z.land r 63))]
  else if Z.leb r 65535 then
    [Zbyte (Z.lor 224 (Z.shiftr r 12));
     Zbyte (Z.lor 128 (Z.land (Z.shiftr r 6) 63));
     Zbyte (Z.lor 128 (Z.land r 63))]
  else
    [Zbyte (Z.lor 240 (Z.shiftr r 18));
     Zbyte (Z.lor 128 (Z.land (Z.shiftr r 12) 63));
     Zbyte (Z.lor 128 (Z.land (Z.shiftr r 6) 63));
     Zbyte (Z.lor 128 (Z.land r 63))].

Definition inRange (lo hi x : Z) : bool := Z.leb lo x && Z.leb x hi.
Definition isCont (x : Z) : bool := inRange 128 191 x.

(** [utf8.DecodeRune]: the first rune of [p] and its width in bytes; an
    invalid or truncated encoding gives [(RuneError, 1)], an empty [p]
    gives [(RuneError, 0)]. *)
Definition utf8_DecodeRune (p : bytes) : Z * nat :=
  match p with
  | [] => (RuneError, 0%nat)
  | c0 :: p1 =>
    let b0 := byteZ c0 in
    if Z.ltb b0 128 then (b0, 1%nat)
    else if inRange 194 223 b0 then
      match p1 with
      | c1 :: _ =>
        let b1 := byteZ c1 in
        if isCont b1
        then (Z.lor (Z.shiftl (Z.land b0 31) 6) (Z.land b1 63), 2%nat)
        else (RuneError, 1%nat)
      | _ => (RuneError, 1%nat)
      end
    else if inRange 224 239 b0 then
      match p1 with
      | c1 :: c2 :: _ =>
        let b1 := byteZ c1 in
        let b2 := byteZ c2 in
        let lo := if Z.eqb b0 224 then 160 else 128 in
        let hi := if Z.eqb b0 237 then 159 else 191 in
        if inRange lo hi b1 && isCont b2
        then (Z.lor (Z.lor (Z.shiftl (Z.land b0 15) 12)
                           (Z.shiftl (Z.land b1 63) 6))
                    (Z.land b2 63), 3%nat)
        else (RuneError, 1%nat)
      | _ => (RuneError, 1%nat)
      end
    else if inRange 240 244 b0 then
      match p1 with
      | c1 :: c2 :: c3 :: _ =>
        let b1 := byteZ c1 in
        let b2 := byteZ c2 in
        let b3 := byteZ c3 in
        let lo := if Z.eqb b0 240 then 144 else 128 in
        let hi := if Z.eqb b0 244 then 143 else 191 in
        if inRange lo hi b1 && isCont b2 && isCont b3
        then (Z.lor (Z.lor (Z.lor (Z.shiftl (Z.land b0 7) 18)
                                  (Z.shiftl (Z.land b1 63) 12))
                           (Z.shiftl (Z.land b2 63) 6))
                    (Z.land b3 63), 4%nat)
        else (RuneError, 1%nat)
      | _ => (RuneError, 1%nat)
      end
    else (RuneError, 1%nat)
  end.

(** [utf16.IsSurrogate] and [utf16.DecodeRune]. *)
Definition utf16_IsSurrogate (r : Z) : bool := Z.leb 55296 r && Z.ltb r 57344.

Definition utf16_DecodeRune (r1 r2 : Z) : Z :=
  if Z.leb 55296 r1 && Z.ltb r1 56320 && Z.leb 56320 r2 && Z.ltb r2 57344
  then Z.lor (Z.shiftl (r1 - 55296) 10) (r2 - 56320) + 65536
  else RuneError.

(** The value of a digit of base at most 16, as [strconv] reads it. *)
Definition digitVal (c : byte) : option Z :=
  let x := byteZ c in
  if inRange 48 57 x then Some (x - 48)
  else if inRange 97 102 x then Some (x - 97 + 10)
  else if inRange 65 70 x then Some (x - 65 + 10)
  else None.

Fixpoint digitsVal (base : Z) (acc : Z) (s : bytes) : option Z :=
  match s with
  | [] => Some acc
  | c :: s' =>
    match digitVal c with
    | Some d => if Z.ltb d base then digitsVal base (acc * base + d) s' else None
    | None => None
    end
  end.

(** [strconv.ParseUint(s, 16, 32)]: [None] on an empty string, on a byte that
    is no hexadecimal digit, and on a value that does not fit 32 bits. *)
Definition strconv_ParseUint_16_32 (s : bytes) : option Z :=
  match s with
  | [] => None
  | _ =>
    match digitsVal 16 0 s with
    | Some v => if Z.ltb v 4294967296 then Some v else None
    | None => None
    end
  end.

Definition maxInt64 : Z := 9223372036854775807.
Definition maxUint64 : Z := 18446744073709551615.

(** [strconv.ErrSyntax] and [strconv.ErrRange]. *)
Inductive numErr : Type := ErrSyntax | ErrRange.

(** [strconv.NumError]: the function, the text it was given and the reason. *)
Record NumError : Type := mkNumError {
  ne_Func : bytes;
  ne_Num : bytes;
  ne_Err : numErr
}.

(** [strconv.IsPrint]. Latin-1 is decided by the function itself; beyond
    U+00FF it searches the tables of isprint.go, which are not written out
    here: [table] stands for them. *)
Definition strconv_IsPrint (table : Z -> bool) (r : Z) : bool :=
  if Z.leb r 255 then
    if inRange 32 126 r then true
    else if inRange 161 255 r then negb (Z.eqb r 173)
    else false
  else table r.

Definition lowerhex (x : Z) : byte :=
  nth (Z.to_nat x) (txt "0123456789abcdef") x00.

(** [utf8.ValidRune]. *)
Definition utf8_ValidRune (r : Z) : bool :=
  inRange 0 55295 r || inRange 57344 1114111 r.

(** [appendEscapedRune] as [strconv.Quote] calls it: the quote is the
    double quote, and neither ASCIIonly nor graphicOnly is set. *)
Definition appendEscapedRune (table : Z -> bool) (r : Z) : bytes :=
  if Z.eqb r (byteZ dquote) || Z.eqb r (byteZ backslash)
  then [backslash; Zbyte r]
  else if strconv_IsPrint table r then utf8_EncodeRune r
  else if Z.eqb r 7 then txt "\a"
  else if Z.eqb r 8 then txt "\b"
  else if Z.eqb r 12 then txt "\f"
  else if Z.eqb r 10 then txt "\n"
  else if Z.eqb r 13 then txt "\r"
  else if Z.eqb r 9 then txt "\t"
  else if Z.eqb r 11 then txt "\v"
  else if Z.ltb r 32 || Z.eqb r 127
  then txt "\x" ++ [lowerhex (Z.shiftr (r mod 256) 4); lowerhex (Z.land (r mod 256) 15)]
  else
    let r := if utf8_ValidRune r then r else 65533 in
    if Z.ltb r 65536
    then txt "\u"
         ++ map (fun s => lowerhex (Z.land (Z.shiftr r s) 15)) [12; 8; 4; 0]
    else txt "\U"
         ++ map (fun s => lowerhex (Z.land (Z.shiftr r s) 15))
              [28; 24; 20; 16; 12; 8; 4; 0].

(** The loop of [appendQuotedWith]: one rune of [s] per iteration; a byte
    that starts no valid encoding is written as a hexadecimal escape. *)
Fixpoint strconv_Quote_loop (fuel : nat) (table : Z -> bool) (s : bytes) : bytes :=
  match fuel, s with
  | S fuel', c :: _ =>
    let '(r, width) :=
      if Z.leb RuneSelf (byteZ c) then utf8_DecodeRune s else (byteZ c, 1%nat) in
    if Nat.eqb width 1 && Z.eqb r RuneError
    then txt "\x" ++ [lowerhex (Z.shiftr (byteZ c) 4); lowerhex (Z.land (byteZ c) 15)]
         ++ strconv_Quote_loop fuel' table (skipn 1 s)
    else appendEscapedRune table r ++ strconv_Quote_loop fuel' table (skipn width s)
  | _, _ => []
  end.

(** [strconv.Quote]. *)
Definition strconv_Quote (table : Z -> bool) (s : bytes) : bytes :=
  dquote :: strconv_Quote_loop (length s) table s ++ [dquote].

(** The method [Error] of [NumError]. *)
Definition NumError_Error (table : Z -> bool) (e : NumError) : error :=
  txt "strconv." ++ ne_Func e ++ txt ": parsing " ++ strconv_Quote table (ne_Num e)
  ++ txt ": "
  ++ match ne_Err e with
     | ErrSyntax => txt "invalid syntax"
     | ErrRange => txt "value out of range"
     end.

(** The JSON reader gives [strconv.ParseInt] runs of ASCII digits only, so
    the messages of its errors quote no rune beyond Latin-1 and are the
    same for every table; they are written with the table that holds no
    rune. *)
Definition noTable : Z -> bool := fun _ => false.

Definition errSyntax (fn s : bytes) : error :=
  NumError_Error noTable (mkNumError fn s ErrSyntax).
Definition errRange (fn s : bytes) : error :=
  NumError_Error noTable (mkNumError fn s ErrRange).

(** The value of a digit in [strconv.ParseUint]: a decimal digit, or a
    letter counted from ten, in either case. *)
Definition strconv_digit (c : byte) : option Z :=
  let x := byteZ c in
  if inRange 48 57 x then Some (x - 48)
  else
    let l := Z.lor x 32 in
    if inRange 97 122 l then Some (l - 97 + 10) else None.

(** The loop of [strconv.ParseUint] for base 10 and 64 bits. [n] is a
    uint64: the product and the sum wrap around, and the loop stops at the
    first byte that is no digit or that makes the value overflow. *)
Fixpoint strconv_ParseUint_loop (n : Z) (s : bytes) : Z * option numErr :=
  match s with
  | [] => (n, None)
  | c :: s' =>
    match strconv_digit c with
    | None => (0, Some ErrSyntax)
    | Some d =>
      if Z.leb 10 d then (0, Some ErrSyntax)
      else if Z.leb (maxUint64 / 10 + 1) n then (maxUint64, Some ErrRange)
      else
        let n := (n * 10) mod 2 ^ 64 in
        let n1 := (n + d) mod 2 ^ 64 in
        if Z.ltb n1 n || Z.ltb maxUint64 n1 then (maxUint64, Some ErrRange)
        else strconv_ParseUint_loop n1 s'
    end
  end.

(** [strconv.ParseUint(s, 10, 64)]. *)
Definition strconv_ParseUint_10_64 (s : bytes) : Z * option NumError :=
  match s with
  | [] => (0, Some (mkNumError (txt "ParseUint") s ErrSyntax))
  | _ =>
    match strconv_ParseUint_loop 0 s with
    | (n, None) => (n, None)
    | (n, Some e) => (n, Some (mkNumError (txt "ParseUint") s e))
    end
  end.

(** The conversion of a uint64 to int64. *)
Definition toInt64 (x : Z) : Z := (x + 2 ^ 63) mod 2 ^ 64 - 2 ^ 63.

(** [strconv.ParseInt(s, 10, 64)]: the value and the error. On a range error
    the value is the nearest bound. *)
Definition strconv_ParseInt_10_64 (s : bytes) : Z * option NumError :=
  let fn := txt "ParseInt" in
  match s with
  | [] => (0, Some (mkNumError fn s ErrSyntax))
  | c :: s' =>
    let '(neg, ds) :=
      if Byte.eqb c x2b then (false, s')
      else if Byte.eqb c x2d then (true, s')
      else (false, s) in
    match strconv_ParseUint_10_64 ds with
    | (_, Some (mkNumError _ _ ErrSyntax)) => (0, Some (mkNumError fn s ErrSyntax))
    | (un, _) =>
      let cutoff := 2 ^ 63 in
      if negb neg && Z.leb cutoff un
      then (cutoff - 1, Some (mkNumError fn s ErrRange))
      else if neg && Z.ltb cutoff un
      then (- cutoff, Some (mkNumError fn s ErrRange))
      else
        let n := toInt64 un in
        (if neg then toInt64 (- n) else n, None)
    end
  end.

(** [strconv.FormatInt(n, 10)]. *)
Fixpoint decimalDigits (fuel : nat) (n : Z) (acc : bytes) : bytes :=
  match fuel with
  | O => acc
  | S fuel' =>
    let acc' := Zbyte (48 + n mod 10) :: acc in
    if Z.ltb n 10 then acc' else decimalDigits fuel' (n / 10) acc'
  end.

Definition strconv_FormatInt_10 (n : Z) : bytes :=
  if Z.ltb n 0 then x2d :: decimalDigits 20%nat (- n) []
  else decimalDigits 20%nat n [].

(** [bytes.Split(s, []byte{0})]: the pieces between NUL bytes; always at
    least one piece. *)
Fixpoint splitNul (s : bytes) : list bytes :=
  match s with
  | [] => [[]]
  | c :: s' =>
    if Byte.eqb c x00 then [] :: splitNul s'
    else match splitNul s' with
         | m :: ms => (c :: m) :: ms
         | [] => [[c]]
         end
  end.

(** [bytes.Reader]: the slice and the read index. *)
Record Reader : Type := mkReader { rd_s : bytes; rd_i : nat }.

Definition Reader_unread (rd : Reader) : bytes := skipn (rd_i rd) (rd_s rd).
Definition Reader_Len (rd : Reader) : nat := length (Reader_unread rd).
Definition Reader_advance (rd : Reader) (n : nat) : Reader :=
  mkReader (rd_s rd) (rd_i rd + n)%nat.

(** [Read(b)] with [len(b) = n]: the bytes copied, and whether the call
    failed with [io.EOF] (nothing was left). *)
Definition Reader_Read (rd : Reader) (n : nat) : bytes * bool * Reader :=
  let got := firstn n (Reader_unread rd) in
  match Reader_unread rd with
  | [] => ([], true, rd)
  | _ => (got, false, Reader_advance rd (length got))
  end.

(** [ReadByte]: [None] is [io.EOF]. *)
Definition Reader_ReadByte (rd : Reader) : option (byte * Reader) :=
  match Reader_unread rd with
  | [] => None
  | c :: _ => Some (c, Reader_advance rd 1%nat)
  end.

(** [ReadRune]: [None] is [io.EOF]. *)
Definition Reader_ReadRune (rd : Reader) : option (Z * Reader) :=
  match Reader_unread rd with
  | [] => None
  | c :: _ =>
    if Z.ltb (byteZ c) RuneSelf then Some (byteZ c, Reader_advance rd 1%nat)
    else let '(ch, size) := utf8_DecodeRune (Reader_unread rd) in
         Some (ch, Reader_advance rd size)
  end.

(** [Seek(-n, io.SeekCurrent)], for [n] at most the current index. *)
Definition Reader_SeekBack (rd : Reader) (n : nat) : Reader :=
  mkReader (rd_s rd) (rd_i rd - n)%nat.

(** A buffer made with [make([]byte, n)] after a read of [got] into it. *)
Definition filled (n : nat) (got : bytes) : bytes :=
  got ++ repeat x00 (n - length got)%nat.

(** ** Outcomes *)

(** How a call can end without returning: a run-time panic of Go, or the
    recursion budget of the embedding running out. *)
Inductive abnormal : Type := IndexOutOfRange | FuelExhausted.

(** What a parse function gives back: the decoded value with the remainder,
    an error (the callers never look at the slice returned beside an error),
    or no return at all. *)
Inductive result (A : Type) : Type :=
| Ok (v : A) (rest : bytes)
| Err (e : error)
| Abort (a : abnormal).
Arguments Ok {A} v rest.
Arguments Err {A} e.
Arguments Abort {A} a.

(** ** Values held in an [any]

    The dynamic types that the source stores or asks for in a type
    assertion. [parseJSONArray] returns a [[]any]; [perMachineMatches] asserts
    [[]jsonObject] and [[]string], which are different dynamic types. *)
#[warnings="-register-all"]
Inductive any : Type :=
| AObject (o : gmap bytes any)
| ASlice (l : list any)
| AString (s : bytes)
| AInt64 (n : Z)
| ABool (v : bool)
| AObjects (l : list (gmap bytes any))
| AStrings (l : list bytes).

Abbreviation jsonObject := (gmap bytes any).

(** A type assertion [a.(T)]. *)
Class GoType (T : Type) : Type := typeAssert : any -> option T.

#[global] Instance GoType_string : GoType bytes :=
  fun a => match a with AString s => Some s | _ => None end.
#[global] Instance GoType_int64 : GoType Z :=
  fun a => match a with AInt64 n => Some n | _ => None end.
#[global] Instance GoType_bool : GoType bool :=
  fun a => match a with ABool v => Some v | _ => None end.
#[global] Instance GoType_jsonObject : GoType jsonObject :=
  fun a => match a with AObject o => Some o | _ => None end.
#[global] Instance GoType_objects : GoType (list jsonObject) :=
  fun a => match a with AObjects l => Some l | _ => None end.
#[global] Instance GoType_strings : GoType (list bytes) :=
  fun a => match a with AStrings l => Some l | _ => None end.

Definition jsonObjectGet (T : Type) `{GoType T} (o : jsonObject) (key : bytes)
  : option T :=
  match o !! key with
  | Some a => typeAssert a
  | None => None
  end.

(** ** The JSON reader *)

Definition isSpace (c : byte) : bool :=
  Byte.eqb c x20 || Byte.eqb c x09 || Byte.eqb c x0d || Byte.eqb c x0a.

(** [for len(r) > 0 && isSpace(r[0]) { r = r[1:] }] *)
Fixpoint skipSpace (r : bytes) : bytes :=
  match r with
  | c :: r' => if isSpace c then skipSpace r' else r
  | [] => []
  end.

(** [string(b)] for a byte [b]. *)
Definition stringOfByte (c : byte) : bytes := utf8_EncodeRune (byteZ c).

(** The [range] loop of [findElementStart] from index [i] on: [idx] is the
    loop variable declared outside the loop, so it keeps the index of the
    last byte visited. *)
Fixpoint findElementStart_loop (rem : bytes) (i idx : nat) (seenColon : bool)
  : error + (nat * bool) :=
  match rem with
  | [] => inr (idx, seenColon)
  | c :: rem' =>
    if isSpace c then findElementStart_loop rem' (S i) i seenColon
    else if negb seenColon && Byte.eqb c x3a
    then findElementStart_loop rem' (S i) i true
    else if seenColon then inr (i, seenColon)
    else inl (txt "expected colon, got invalid character: " ++ stringOfByte c)
  end.

Definition findElementStart (r : bytes) : error + bytes :=
  match findElementStart_loop r 0 0 false with
  | inl e => inl e
  | inr (idx, seenColon) =>
    if negb seenColon then inl (txt "expected colon, got end of input")
    else inr (skipn idx r)
  end.

(** The variables of the [for] loop of [parseJSONString]. *)
Record strState : Type := mkStrState {
  st_value : bytes;        (* value, a strings.Builder *)
  st_inEsc : bool;
  st_inUEsc : bool;
  st_reader : Reader }.

(** How one iteration ends: [continue], or the function is left ([break]
    and [return]). *)
Inductive strStep : Type :=
| Continue (st : strState)
| Leave (res : result bytes).

(** The end of an unescaped string: [value.String(), r[reader.Len():], nil]. *)
Definition strEnd (r : bytes) (value : bytes) (reader : Reader) : result bytes :=
  Ok value (skipn (Reader_Len reader) r).

(** One iteration of the loop; [r] is the slice after the opening quote. *)
Definition parseJSONString_step (r : bytes) (st : strState) : strStep :=
  let value := st_value st in
  let inEsc := st_inEsc st in
  let inUEsc := st_inUEsc st in
  let reader := st_reader st in
  if Z.ltb 4096 (len value) then Leave (Err (txt "string too large"))
  else if inUEsc then
    let '(got, eof, reader) := Reader_Read reader 4 in
    let maybeRune := filled 4 got in
    if eof || negb (Nat.eqb (length got) 4)
    then Leave (Err (txt "invalid unicode escape sequence \u" ++ maybeRune))
    else
      match strconv_ParseUint_16_32 maybeRune with
      | None => Leave (Err (txt "invalid unicode escape sequence \u" ++ maybeRune))
      | Some rn =>
        if negb (utf16_IsSurrogate rn)
        then Continue (mkStrState (value ++ utf8_EncodeRune rn) inEsc false reader)
        else
          (* rn maybe a high surrogate; read the low surrogate. *)
          let '(got, eof, reader) := Reader_Read reader 6 in
          let maybeRune := filled 6 got in
          let n := length got in
          if eof || negb (Nat.eqb n 6)
             || negb (Byte.eqb (nth 0 maybeRune x00) backslash)
             || negb (Byte.eqb (nth 1 maybeRune x00) x75)
          then
            let reader := Reader_SeekBack reader n in
            Continue (mkStrState (value ++ utf8_EncodeRune RuneError) inEsc false reader)
          else
            match strconv_ParseUint_16_32 (skipn 2 maybeRune) with
            | None => Leave (Err (txt "invalid unicode escape sequence " ++ maybeRune))
            | Some rn1 =>
              let dec := utf16_DecodeRune rn rn1 in
              if negb (Z.eqb dec RuneError)
              then Continue (mkStrState (value ++ utf8_EncodeRune dec) inEsc false reader)
              else Continue (mkStrState value inEsc false reader)
            end
      end
  else if inEsc then
    match Reader_ReadByte reader with
    | None => Leave (Err (txt "EOF"))
    | Some (c, reader) =>
      let write b := Continue (mkStrState (value ++ [b]) false inUEsc reader) in
      if Byte.eqb c x62 then write x08
      else if Byte.eqb c x66 then write x0c
      else if Byte.eqb c x6e then write x0a
      else if Byte.eqb c x72 then write x0d
      else if Byte.eqb c x74 then write x09
      else if Byte.eqb c x75 then Continue (mkStrState value false true reader)
      else if Byte.eqb c x2f then write x2f
      else if Byte.eqb c backslash then write backslash
      else if Byte.eqb c dquote then write dquote
      else Leave (Err (txt "unexpected character in escape sequence "
                       ++ stringOfByte c))
    end
  else
    match Reader_ReadRune reader with
    | None => Leave (Err (txt "unexpected end of input"))
    | Some (rn, reader) =>
      if Z.eqb rn (byteZ backslash)
      then Continue (mkStrState value true inUEsc reader)
      else if Z.eqb rn (byteZ dquote)
      then Leave (strEnd r value reader)
      else Continue (mkStrState (value ++ utf8_EncodeRune rn) inEsc inUEsc reader)
    end.

(** The loop: one iteration per unit of fuel. *)
Fixpoint parseJSONString_loop (fuel : nat) (r : bytes) (st : strState) : result bytes :=
  match fuel with
  | O => Abort FuelExhausted
  | S fuel' =>
    match parseJSONString_step r st with
    | Leave res => res
    | Continue st' => parseJSONString_loop fuel' r st'
    end
  end.

Definition strInit (r : bytes) : strState := mkStrState [] false false (mkReader r 0).

(** [parseJSONString] reads a JSON string from [r]. Every iteration that
    continues has read at least one byte, so [S (length r)] iterations are
    enough. *)
Definition parseJSONString (r : bytes) : result bytes :=
  let r := skipSpace r in
  match r with
  | c0 :: c1 :: _ =>
    if Byte.eqb c0 dquote && Byte.eqb c1 dquote then Ok [] (skipn 2 r)
    else if negb (Byte.eqb c0 dquote)
    then Err (lit "expected ' got " ++ stringOfByte c0)
    else
      let r := skipn 1 r in
      parseJSONString_loop (S (length r)) r (strInit r)
  | _ => Err (txt "unexpected end of input")
  end.

Definition isDigit (c : byte) : bool := inRange 48 57 (byteZ c).

(** The [range] loop of [parseJSONInt64]: the digits written to [num] and
    the count of bytes consumed. *)
Fixpoint parseJSONInt64_loop (rem num : bytes) (count : nat) : error + (bytes * nat) :=
  match rem with
  | [] => inr (num, count)
  | c :: rem' =>
    if Z.eqb (len num) 20 then inl (txt "number too large")
    else if isDigit c then parseJSONInt64_loop rem' (num ++ [c]) (S count)
    else inr (num, count)
  end.

(** [parseJSONInt64] reads a 64 bit integer from [r]. *)
Definition parseJSONInt64 (r : bytes) : result Z :=
  let r := skipSpace r in
  match parseJSONInt64_loop r [] 0 with
  | inl e => Err e
  | inr (num, count) =>
    match strconv_ParseInt_10_64 num with
    | (n, None) => Ok n (skipn count r)
    | (_, Some e) => Err (NumError_Error noTable e)
    end
  end.

Definition bytesTrue : bytes := txt "true".
Definition bytesFalse : bytes := txt "false".

Definition bytes_Equal (a b : bytes) : bool := bool_decide (a = b).

(** [parseJSONBoolean] reads a boolean from [r]. *)
Definition parseJSONBoolean (r : bytes) : result bool :=
  let r := skipSpace r in
  if Z.leb 4 (len r) && bytes_Equal (firstn 4 r) bytesTrue then Ok true (skipn 4 r)
  else if Z.leb 5 (len r) && bytes_Equal (firstn 5 r) bytesFalse then Ok false (skipn 5 r)
  else Err (txt "unable to parse boolean value").

Definition mapResult {A B : Type} (f : A -> B) (x : result A) : result B :=
  match x with
  | Ok v rest => Ok (f v) rest
  | Err e => Err e
  | Abort a => Abort a
  end.

(** [parseJSONElement], [parseJSONObject], [parseJSONArray] and the [for]
    loops of the latter two call one another; each call and each iteration
    takes one unit of fuel. [parseJSONElement] indexes [r[0]] without a
    length check. *)
Fixpoint parseJSONElement_fuel (fuel : nat) (r : bytes) : result any :=
  match fuel with
  | O => Abort FuelExhausted
  | S fuel' =>
    let r := skipSpace r in
    match r with
    | [] => Abort IndexOutOfRange
    | c :: _ =>
      if Byte.eqb c x7b then mapResult AObject (parseJSONObject_fuel fuel' r)
      else if Byte.eqb c x5b then mapResult ASlice (parseJSONArray_fuel fuel' r)
      else if Byte.eqb c dquote then mapResult AString (parseJSONString r)
      else if Byte.eqb c x74 || Byte.eqb c x66
      then mapResult ABool (parseJSONBoolean r)
      else mapResult AInt64 (parseJSONInt64 r)
    end
  end
with parseJSONObject_fuel (fuel : nat) (r : bytes) : result jsonObject :=
  match fuel with
  | O => Abort FuelExhausted
  | S fuel' =>
    let r := skipSpace r in
    match r with
    | c0 :: _ :: _ =>
      if negb (Byte.eqb c0 x7b) then Err (txt "expected {")
      else parseJSONObject_loop fuel' ∅ (skipn 1 r)
    | _ => Err (txt "unexpected end of input")
    end
  end
with parseJSONObject_loop (fuel : nat) (obj : jsonObject) (r : bytes)
  : result jsonObject :=
  match fuel with
  | O => Abort FuelExhausted
  | S fuel' =>
    match r with
    | [] => Err (txt "unexpected end of input")
    | c :: _ =>
      if Byte.eqb c x7d then Ok obj r
      else
        match parseJSONString r with
        | Err e => Err e
        | Abort a => Abort a
        | Ok key rest =>
          match findElementStart rest with
          | inl e => Err e
          | inr r =>
            match parseJSONElement_fuel fuel' r with
            | Err e => Err e
            | Abort a => Abort a
            | Ok value rest =>
              parseJSONObject_loop fuel' (<[key := value]> obj) rest
            end
          end
        end
    end
  end
with parseJSONArray_fuel (fuel : nat) (r : bytes) : result (list any) :=
  match fuel with
  | O => Abort FuelExhausted
  | S fuel' =>
    let r := skipSpace r in
    match r with
    | c0 :: _ :: _ =>
      if negb (Byte.eqb c0 x5b) then Err (txt "expected [")
      else parseJSONArray_loop fuel' [] (skipn 1 r)
    | _ => Err (txt "unexpected end of input")
    end
  end
with parseJSONArray_loop (fuel : nat) (elements : list any) (r : bytes)
  : result (list any) :=
  match fuel with
  | O => Abort FuelExhausted
  | S fuel' =>
    match r with
    | [] => Err (txt "unexpected end of input")
    | c :: _ =>
      if Byte.eqb c x5d then Ok elements r
      else
        match parseJSONElement_fuel fuel' r with
        | Err e => Err e
        | Abort a => Abort a
        | Ok element rest => parseJSONArray_loop fuel' (elements ++ [element]) rest
        end
    end
  end.

(** Fuel that no input exhausts: a call or an iteration that goes on has
    left at least one byte behind every third step. *)
Definition fuelFor (r : bytes) : nat := (3 * length r + 3)%nat.

Definition parseJSONElement (r : bytes) : result any :=
  parseJSONElement_fuel (fuelFor r) r.
Definition parseJSONObject (r : bytes) : result jsonObject :=
  parseJSONObject_fuel (fuelFor r) r.
Definition parseJSONArray (r : bytes) : result (list any) :=
  parseJSONArray_fuel (fuelFor r) r.

(** ** The userdb client: constants, calls and replies *)

Definition userdbMuxSvc : bytes := txt "io.systemd.Multiplexer".
Definition userdbNamespace : bytes := txt "io.systemd.UserDatabase".
Definition mGetGroupRecord : bytes := userdbNamespace ++ txt ".GetGroupRecord".
Definition mGetUserRecord : bytes := userdbNamespace ++ txt ".GetUserRecord".
Definition mGetMemberships : bytes := userdbNamespace ++ txt ".GetMemberships".
Definition errNoRecordFound : bytes := userdbNamespace ++ txt ".NoRecordFound".
Definition errServiceNotAvailable : bytes :=
  userdbNamespace ++ txt ".ServiceNotAvailable".

Record perMachineRecord : Type := mkPerMachineRecord {
  machineId : bytes;
  hostname : bytes }.

Record userdbClient : Type := mkUserdbClient {
  cl_perMachineRecord : perMachineRecord;
  serviceSocket : bytes }.

(** [uid] and [gid] are [*int64] in the source: [None] is the nil pointer. *)
Record callParameters : Type := mkCallParameters {
  cp_uid : option Z;
  cp_userName : bytes;
  cp_gid : option Z;
  cp_groupName : bytes }.

Record userdbCall : Type := mkUserdbCall {
  method : bytes;
  parameters : callParameters;
  more : bool }.

Definition nonEmpty (s : bytes) : bool :=
  match s with [] => false | _ => true end.

Definition callParameters_marshalJSON (c : callParameters) : bytes :=
  lit "{'service':'" ++ userdbMuxSvc ++ lit "'"
  ++ match cp_uid c with
     | Some uid => lit ",'uid':" ++ strconv_FormatInt_10 uid
     | None => []
     end
  ++ (if nonEmpty (cp_userName c)
      then lit ",'userName':'" ++ cp_userName c ++ lit "'" else [])
  ++ match cp_gid c with
     | Some gid => lit ",'gid':" ++ strconv_FormatInt_10 gid
     | None => []
     end
  ++ (if nonEmpty (cp_groupName c)
      then lit ",'groupName':'" ++ cp_groupName c ++ lit "'" else [])
  ++ lit "}".

Definition userdbCall_marshalJSON (u : userdbCall) : bytes :=
  let params := callParameters_marshalJSON (parameters u) in
  lit "{'method':'" ++ method u ++ lit "','parameters':" ++ params
  ++ (if more u then lit ",'more':true" else [])
  ++ lit "}".

Record userdbReply : Type := mkUserdbReply {
  reply_err : bytes;
  reply_continues : bool;
  reply_parameters : jsonObject }.

Definition userdbReply_zero : userdbReply := mkUserdbReply [] false ∅.

(** A call that returns, or does not. *)
Inductive run (A : Type) : Type :=
| Ret (a : A)
| Halt (a : abnormal).
Arguments Ret {A} a.
Arguments Halt {A} a.

(** [(u *userdbReply) unmarshal(data)]: the reply after the call, and the
    error returned. *)
Definition userdbReply_unmarshal (u : userdbReply) (data : bytes)
  : run (userdbReply * option error) :=
  match parseJSONObject data with
  | Abort a => Halt a
  | Err e => Ret (u, Some e)
  | Ok reply _ =>
    let u := match jsonObjectGet bytes reply (txt "error") with
             | Some err => mkUserdbReply err (reply_continues u) (reply_parameters u)
             | None => u
             end in
    let u := match jsonObjectGet bool reply (txt "continues") with
             | Some continues => mkUserdbReply (reply_err u) continues (reply_parameters u)
             | None => u
             end in
    let u := match jsonObjectGet jsonObject reply (txt "parameters") with
             | Some p => mkUserdbReply (reply_err u) (reply_continues u) p
             | None => u
             end in
    Ret (u, None)
  end.

(** ** The socket

    What the operating system and the peer do during one [query]: whether
    [syscall.Socket] and [syscall.Connect] fail, and what each pass of the
    write loop and of the read loop meets. Each pass first asks [ctx.Err()].
    A script that ends stands for a peer that takes all that is left to
    write, and that has closed its side for reading. *)
Inductive writeStep : Type :=
| WDeadline (e : error)      (* ctx.Err() is not nil *)
| WFail (e : error)          (* syscall.Write fails *)
| WWrote (n : nat).          (* syscall.Write wrote n bytes *)

Inductive readStep : Type :=
| RDeadline (e : error)      (* ctx.Err() is not nil *)
| RFail (e : error)          (* syscall.Read fails *)
| RChunk (data : bytes).     (* syscall.Read returned these bytes, at most
                               the 4096 of the buffer; none at EOF *)

Record connection : Type := mkConnection {
  socketErr : option error;
  (** the error of Connect, and whether it is [os.ErrNotExist] *)
  connectErr : option (error * bool);
  writes : list writeStep;
  reads : list readStep }.

(** The peer behind a socket path, by the request it is sent. *)
Abbreviation network := (bytes -> bytes -> connection).

(** [for written < len(request) { ... }]: the error that ends [query], if
    any. *)
Fixpoint writeLoop (script : list writeStep) (total written : nat) : option error :=
  if Nat.ltb written total then
    match script with
    | [] => None
    | WDeadline e :: _ => Some e
    | WFail e :: _ => Some e
    | WWrote n :: script' => writeLoop script' total (written + n)%nat
    end
  else None.

(** The read loop: the error that ends [query], or the bytes gathered in
    [resp]. *)
Fixpoint readLoop (script : list readStep) (resp : bytes) : error + bytes :=
  match script with
  | [] => inr resp
  | RDeadline e :: _ => inl e
  | RFail e :: _ => inl e
  | RChunk data :: script' =>
    if nonEmpty data then
      let resp := resp ++ data in
      if Byte.eqb (List.last data x01) x00 then inr resp else readLoop script' resp
    else inr resp
  end.

(** ** The dispatcher *)

Class userdbParamsUnmarshaler (U : Type) : Type :=
  unmarshalParameters : U -> list jsonObject -> U * option error.

(** How the loop over the messages of a response ends: [query] returns at
    once, or the loop is left with the parameters gathered. *)
Inductive demux : Type :=
| Returned (handled : bool) (err : option error)
| Gathered (replyParams : list jsonObject).

Fixpoint parseMessages (msgs : list bytes) (replyParams : list jsonObject)
  : run demux :=
  match msgs with
  | [] => Ret (Gathered replyParams)
  | m :: msgs' =>
    match userdbReply_unmarshal userdbReply_zero m with
    | Halt a => Halt a
    | Ret (_, Some err) => Ret (Returned true (Some err))
    | Ret (resp, None) =>
      let e := reply_err resp in
      if bytes_Equal e [] then
        let replyParams := replyParams ++ [reply_parameters resp] in
        if negb (reply_continues resp) then Ret (Gathered replyParams)
        else parseMessages msgs' replyParams
      else if bytes_Equal e errNoRecordFound then parseMessages msgs' replyParams
      else if bytes_Equal e errServiceNotAvailable then Ret (Returned false None)
      else Ret (Returned true (Some e))
    end
  end.

(** [if request[len(request)-1] != 0 { request = append(request, 0) }] *)
Definition terminated (request : bytes) : bytes :=
  if Byte.eqb (List.last request x01) x00 then request else request ++ [x00].

(** [query] up to its last line: it returns by itself, or it has gathered
    the parameters that the last line hands to the unmarshaler. Nothing
    here depends on which unmarshaler the caller passed. *)
Definition roundTrip (net : network) (cl : userdbClient) (call : userdbCall)
  : run demux :=
  let request := userdbCall_marshalJSON call in
  let conn := net (serviceSocket cl) (terminated request) in
  match socketErr conn with
  | Some err => Ret (Returned false (Some err))
  | None =>
    match connectErr conn with
    | Some (err, true) => Ret (Returned false (Some err))
    | Some (err, false) => Ret (Returned true (Some err))
    | None =>
      if negb (nonEmpty request) then Halt IndexOutOfRange
      else
        let request := terminated request in
        match writeLoop (writes conn) (length request) 0 with
        | Some err => Ret (Returned true (Some err))
        | None =>
          match readLoop (reads conn) [] with
          | inl err => Ret (Returned true (Some err))
          | inr resp =>
            if negb (nonEmpty resp) then Ret (Returned true None)
            else
              (* Remove trailing 0. Split into VARLINK messages. *)
              let buf := removelast resp in
              let msgs := splitNul buf in
              parseMessages msgs []
          end
        end
    end
  end.

(** [query]: the unmarshaler after the call, whether the service handled the
    call, and the error. *)
Definition query {U : Type} `{userdbParamsUnmarshaler U}
    (net : network) (cl : userdbClient) (call : userdbCall) (u : U)
  : run (U * bool * option error) :=
  match roundTrip net cl call with
  | Halt a => Halt a
  | Ret (Returned handled err) => Ret (u, handled, err)
  | Ret (Gathered replyParams) =>
    let '(u, err) := unmarshalParameters u replyParams in
    Ret (u, true, err)
  end.

(** ** Per-machine matches and machine-bound records *)

Definition stringIn (x : bytes) (l : list bytes) : bool :=
  existsb (fun y => bytes_Equal y x) l.

(** The body of the loop of [perMachineMatches]: the value of [matchesHost]
    for one entry of [perMachine]. The key of the second lookup is spelt
    as in the source. *)
Definition matchesHost (p : perMachineRecord) (per : jsonObject) : bool :=
  let matchesHost := false in
  let matchesHost :=
    match jsonObjectGet (list bytes) per (txt "matchMachineId") with
    | Some mids => if stringIn (machineId p) mids then true else matchesHost
    | None => matchesHost
    end in
  let matchesHost :=
    if negb matchesHost then
      match jsonObjectGet bytes per (txt "marchMachineId") with
      | Some mid => if bytes_Equal mid (machineId p) then true else matchesHost
      | None => matchesHost
      end
    else matchesHost in
  let matchesHost :=
    if negb matchesHost then
      match jsonObjectGet (list bytes) per (txt "matchHostname") with
      | Some mhs => if stringIn (hostname p) mhs then true else matchesHost
      | None => matchesHost
      end
    else matchesHost in
  let matchesHost :=
    if negb matchesHost then
      match jsonObjectGet bytes per (txt "matchHostname") with
      | Some mh => if bytes_Equal mh (hostname p) then true else matchesHost
      | None => matchesHost
      end
    else matchesHost in
  matchesHost.

(** [perMachineMatches] returns the perMachine matches for the given
    object, in the order of the array. *)
Definition perMachineMatches (p : perMachineRecord) (obj : jsonObject)
  : list jsonObject :=
  match jsonObjectGet (list jsonObject) obj (txt "perMachine") with
  | Some perMachine => List.filter (matchesHost p) perMachine
  | None => []
  end.

Definition machineBoundRecord (machineID : bytes) (obj : jsonObject)
  : option jsonObject :=
  match jsonObjectGet jsonObject obj (txt "binding") with
  | None => None
  | Some binding => jsonObjectGet jsonObject binding machineID
  end.

(** [if x, ok := jsonObjectGet[T](o, key); ok { field = x }] *)
Definition assignIf {T : Type} `{GoType T} (o : jsonObject) (key : bytes) (field : T) : T :=
  match jsonObjectGet T o key with
  | Some x => x
  | None => field
  end.

(** ** Group records *)

Record groupRecord : Type := mkGroupRecord {
  gr_perMachineRecord : perMachineRecord;
  gr_groupName : bytes;
  gr_gid : Z }.

Definition perMachineRecord_zero : perMachineRecord := mkPerMachineRecord [] [].
Definition groupRecord_zero : groupRecord :=
  mkGroupRecord perMachineRecord_zero [] 0.

Definition groupRecord_setGid (g : groupRecord) (gid : Z) : groupRecord :=
  mkGroupRecord (gr_perMachineRecord g) (gr_groupName g) gid.

Definition groupRecord_unmarshalParameters (g : groupRecord) (params : list jsonObject)
  : groupRecord * option error :=
  match params with
  | [p0] =>
    match jsonObjectGet jsonObject p0 (txt "record") with
    | None => (g, Some (txt "missing or invalid record in userdb reply"))
    | Some record =>
      match jsonObjectGet bytes record (txt "groupName") with
      | None => (g, Some (txt "missing or invalid groupName in userdb reply"))
      | Some groupName =>
        let g := mkGroupRecord (gr_perMachineRecord g) groupName (gr_gid g) in
        let g := groupRecord_setGid g (assignIf record (txt "gid") (gr_gid g)) in
        let g := fold_left
                   (fun g match_ =>
                      groupRecord_setGid g (assignIf match_ (txt "gid") (gr_gid g)))
                   (perMachineMatches (gr_perMachineRecord g) record) g in
        let g := match machineBoundRecord (machineId (gr_perMachineRecord g)) record with
                 | Some rec => groupRecord_setGid g (assignIf rec (txt "gid") (gr_gid g))
                 | None => g
                 end in
        (g, None)
      end
    end
  | _ => (g, Some (txt "unexpected userdb reply"))
  end.

#[global] Instance groupRecord_unmarshaler : userdbParamsUnmarshaler groupRecord :=
  groupRecord_unmarshalParameters.

Record Group : Type := mkGroup { Group_Name : bytes; Group_Gid : bytes }.

(** [fmt.Errorf(prefix + "%s", err)]: a nil operand of [%s] is printed as
    [%!s(<nil>)]. *)
Definition fmt_Errorf_s (prefix : bytes) (err : option error) : error :=
  prefix ++ match err with
            | Some e => e
            | None => txt "%!s(<nil>)"
            end.

(** [queryGroupDb] queries the userdb interface for a gid, groupname, or
    both. *)
Definition queryGroupDb (net : network) (cl : userdbClient)
    (gid : option Z) (groupname : bytes) : run (option Group * bool * option error) :=
  let group := groupRecord_zero in
  let request := mkUserdbCall mGetGroupRecord
                   (mkCallParameters None [] gid groupname) false in
  match query net cl request group with
  | Halt a => Halt a
  | Ret (group, ok, err) =>
    if negb ok || bool_decide (err <> None)
    then Ret (None, ok,
              Some (fmt_Errorf_s (txt "error querying systemd-userdb group record: ") err))
    else Ret (Some (mkGroup (gr_groupName group) (strconv_FormatInt_10 (gr_gid group))),
              true, None)
  end.

(** ** User records *)

Record userRecord : Type := mkUserRecord {
  ur_perMachineRecord : perMachineRecord;
  ur_userName : bytes;
  ur_realName : bytes;
  ur_uid : Z;
  ur_gid : Z;
  ur_homeDirectory : bytes }.

Definition userRecord_zero : userRecord :=
  mkUserRecord perMachineRecord_zero [] [] 0 0 [].

(** The four conditional assignments made from one layer [o]. *)
Definition userRecord_assign (u : userRecord) (o : jsonObject) : userRecord :=
  mkUserRecord (ur_perMachineRecord u) (ur_userName u)
    (assignIf o (txt "realName") (ur_realName u))
    (assignIf o (txt "uid") (ur_uid u))
    (assignIf o (txt "gid") (ur_gid u))
    (assignIf o (txt "homeDirectory") (ur_homeDirectory u)).

Definition userRecord_unmarshalParameters (u : userRecord) (params : list jsonObject)
  : userRecord * option error :=
  match params with
  | [p0] =>
    match jsonObjectGet jsonObject p0 (txt "record") with
    | None => (u, Some (txt "missing or invalid record in userdb reply"))
    | Some record =>
      match jsonObjectGet bytes record (txt "userName") with
      | None => (u, Some (txt "missing or invalid userName in userdb reply"))
      | Some userName =>
        let u := mkUserRecord (ur_perMachineRecord u) userName (ur_realName u)
                   (ur_uid u) (ur_gid u) (ur_homeDirectory u) in
        let u := userRecord_assign u record in
        let u := fold_left userRecord_assign
                   (perMachineMatches (ur_perMachineRecord u) record) u in
        let u := match machineBoundRecord (machineId (ur_perMachineRecord u)) record with
                 | Some rec => userRecord_assign u rec
                 | None => u
                 end in
        (u, None)
      end
    end
  | _ => (u, Some (txt "unexpected userdb reply"))
  end.

#[global] Instance userRecord_unmarshaler : userdbParamsUnmarshaler userRecord :=
  userRecord_unmarshalParameters.

Record User : Type := mkUser {
  User_Uid : bytes;
  User_Gid : bytes;
  User_Username : bytes;
  User_Name : bytes;
  User_HomeDir : bytes }.

(** [queryUserDb] queries the userdb interface for a uid, username, or
    both. *)
Definition queryUserDb (net : network) (cl : userdbClient)
    (uid : option Z) (username : bytes) : run (option User * bool * option error) :=
  let user := userRecord_zero in
  let request := mkUserdbCall mGetUserRecord
                   (mkCallParameters uid username None []) false in
  match query net cl request user with
  | Halt a => Halt a
  | Ret (user, ok, err) =>
    if negb ok || bool_decide (err <> None)
    then Ret (None, ok,
              Some (fmt_Errorf_s (txt "error querying systemd-userdb user record: ") err))
    else Ret (Some (mkUser (strconv_FormatInt_10 (ur_uid user))
                           (strconv_FormatInt_10 (ur_gid user))
                           (ur_userName user) (ur_realName user)
                           (ur_homeDirectory user)),
              true, None)
  end.

Definition lookupGroup (net : network) (cl : userdbClient) (groupname : bytes) :=
  queryGroupDb net cl None groupname.

(** The error of [strconv.ParseInt] is returned as it is; its message quotes
    the id, for which [strconv.Quote] may search the tables [table] (see
    [strconv_IsPrint]). *)
Definition lookupGroupId (table : Z -> bool) (net : network) (cl : userdbClient)
    (id : bytes) :=
  match strconv_ParseInt_10_64 id with
  | (_, Some err) => Ret (None, true, Some (NumError_Error table err))
  | (gid, None) => queryGroupDb net cl (Some gid) []
  end.

Definition lookupUser (net : network) (cl : userdbClient) (username : bytes) :=
  queryUserDb net cl None username.

Definition lookupUserId (table : Z -> bool) (net : network) (cl : userdbClient)
    (id : bytes) :=
  match strconv_ParseInt_10_64 id with
  | (_, Some err) => Ret (None, true, Some (NumError_Error table err))
  | (uid, None) => queryUserDb net cl (Some uid) []
  end.

(** ** Memberships *)

(** Keys are groupNames and values are sets of userNames. *)
Record memberships : Type := mkMemberships {
  groupUsers : gmap bytes (gset bytes) }.

Definition memberships_zero : memberships := mkMemberships ∅.

Fixpoint memberships_loop (params : list jsonObject) (gu : gmap bytes (gset bytes))
  : gmap bytes (gset bytes) * option error :=
  match params with
  | [] => (gu, None)
  | ps :: params' =>
    match jsonObjectGet bytes ps (txt "userName") with
    | None => (gu, Some (txt "missing or invalid userName in userdb reply"))
    | Some userName =>
      match jsonObjectGet bytes ps (txt "groupName") with
      | None => (gu, Some (txt "missing or invalid groupName in userdb reply"))
      | Some groupName =>
        memberships_loop params'
          match gu !! groupName with
          | Some users => <[groupName := {[userName]} ∪ users]> gu
          | None => <[groupName := {[userName]}]> gu
          end
      end
    end
  end.

Definition memberships_unmarshalParameters (m : memberships) (params : list jsonObject)
  : memberships * option error :=
  let '(gu, err) := memberships_loop params ∅ in
  (mkMemberships gu, err).

#[global] Instance memberships_unmarshaler : userdbParamsUnmarshaler memberships :=
  memberships_unmarshalParameters.

(** The loop [for g := range ms.groupUsers] of [lookupGroupIds], over the
    keys in the order [keys] in which the run-time hands them out. *)
Fixpoint lookupGroupIds_loop (net : network) (cl : userdbClient) (keys : list bytes)
    (gids : list bytes) : run (option (list bytes) * bool * option error) :=
  match keys with
  | [] => Ret (Some gids, true, None)
  | g :: keys' =>
    let group := groupRecord_zero in
    let request := mkUserdbCall mGetGroupRecord (mkCallParameters None [] None g) false in
    match query net cl request group with
    | Halt a => Halt a
    | Ret (group, ok, err) =>
      if negb ok || bool_decide (err <> None)
      then Ret (None, ok,
                Some (fmt_Errorf_s (txt "error querying systemd-userdb group record: ") err))
      else lookupGroupIds_loop net cl keys' (gids ++ [strconv_FormatInt_10 (gr_gid group)])
    end
  end.

(** [lookupGroupIds]. The order of a [range] over a Go map is not fixed:
    [rangeOrder] is the order the run-time picks for each map. *)
Definition lookupGroupIds (rangeOrder : gmap bytes (gset bytes) -> list bytes)
    (net : network) (cl : userdbClient) (username : bytes)
  : run (option (list bytes) * bool * option error) :=
  let ms := memberships_zero in
  let request := mkUserdbCall mGetMemberships
                   (mkCallParameters None username None []) true in
  match query net cl request ms with
  | Halt a => Halt a
  | Ret (ms, ok, err) =>
    if negb ok || bool_decide (err <> None)
    then Ret (None, ok,
              Some (fmt_Errorf_s (txt "error querying systemd-userdb memberships record: ") err))
    else
      let group := groupRecord_zero in
      let request := mkUserdbCall mGetGroupRecord
                       (mkCallParameters None [] None username) false in
      match query net cl request group with
      | Halt a => Halt a
      | Ret (group, ok, err) =>
        if negb ok || bool_decide (err <> None) then Ret (None, ok, err)
        else
          let gids := [strconv_FormatInt_10 (gr_gid group)] in
          lookupGroupIds_loop net cl (rangeOrder (groupUsers ms)) gids
      end
  end.

(** ** Peers and inputs used in the examples below *)

(** A peer that accepts the connection and the whole request, and sends
    [resp] in one piece. *)
Definition replyWith (resp : bytes) : network :=
  fun _ _ => mkConnection None None [] [RChunk resp].

(** The test server of the repository ([serveUserdb], [serveClient]): it
    answers a request that is a key of [data] with the data, NUL-terminated
    when not empty, and has nothing for any other request. *)
Definition nulTerminated (data : bytes) : bytes :=
  if nonEmpty data && negb (Byte.eqb (List.last data x01) x00)
  then data ++ [x00] else data.

Fixpoint testData (data : list (bytes * bytes)) (got : bytes) : option bytes :=
  match data with
  | [] => None
  | (k, v) :: data' => if bytes_Equal k got then Some v else testData data' got
  end.

Definition serveUserdb (data : list (bytes * bytes)) : network :=
  fun _ request =>
    match testData data (removelast request) with
    | Some v => mkConnection None None [] [RChunk (nulTerminated v)]
    | None => mkConnection None None [] []
    end.

Definition testClient : userdbClient :=
  mkUserdbClient perMachineRecord_zero (txt "/tmp/multiplexer.sock").

(** The request and the reply of [TestUserdbLookupGroup]. *)
Definition groupRequest : bytes :=
  lit "{'method':'io.systemd.UserDatabase.GetGroupRecord','parameters':{'service':'io.systemd.Multiplexer','groupName':'stdlibcontrib'}}".

Definition groupFixture : bytes :=
  lit "{'parameters':{'record':{'groupName':'stdlibcontrib','gid':181,'members':['stdlibcontrib'],'status':{'ecb5a44f1a5846ad871566e113bf8937':{'service':'io.systemd.NameServiceSwitch'}}},'incomplete':false}}".

(** A machine, and a record whose only perMachine entry names that machine
    by the single-string form of matchMachineId. *)
Definition thisMachine : perMachineRecord :=
  mkPerMachineRecord (txt "3f2a") (txt "build7").

Definition legacyEntry : jsonObject :=
  <[txt "matchMachineId" := AString (txt "3f2a")]> (<[txt "gid" := AInt64 7]> ∅).

Definition legacyRecord : jsonObject :=
  <[txt "perMachine" := AObjects [legacyEntry]]>
    (<[txt "groupName" := AString (txt "wheel")]> (<[txt "gid" := AInt64 1]> ∅)).

Definition legacyParams : list jsonObject :=
  [ <[txt "record" := AObject legacyRecord]> ∅ ].

(** ** Digit runs

    The words of the specification about [parseJSONInt64]: the leading run
    of ASCII digits, what follows it, and the number the run writes. *)
Fixpoint digitRun (s : bytes) : bytes :=
  match s with
  | c :: s' => if isDigit c then c :: digitRun s' else []
  | [] => []
  end.

Fixpoint afterDigits (s : bytes) : bytes :=
  match s with
  | c :: s' => if isDigit c then afterDigits s' else s
  | [] => []
  end.

Definition decimalValue (ds : bytes) : Z :=
  fold_left (fun acc c => 10 * acc + (byteZ c - 48)) ds 0.

(** ** Field resolution, in the words of the specification

    The value of a field after the three layers: the machine-bound entry
    when it defines the field; otherwise the last matching perMachine entry
    that defines it; otherwise the base record when it defines it; otherwise
    the value the field had before (zero in a fresh record). *)
Definition resolveField (T : Type) `{GoType T} (key : bytes) (init : T)
    (record : jsonObject) (matches : list jsonObject) (bound : option jsonObject) : T :=
  match bound ≫= (fun rec => jsonObjectGet T rec key) with
  | Some v => v
  | None =>
    match last (omap (fun m => jsonObjectGet T m key) matches) with
    | Some v => v
    | None =>
      match jsonObjectGet T record key with
      | Some v => v
      | None => init
      end
    end
  end.

(** A record with all three layers, for the machine [thisMachine]. *)
Definition layeredRecord : jsonObject :=
  <[txt "binding" :=
      AObject (<[txt "3f2a" := AObject (<[txt "uid" := AInt64 900]> ∅)]> ∅)]>
  (<[txt "perMachine" :=
      AObjects [ <[txt "matchMachineId" := AStrings [txt "3f2a"]]>
                   (<[txt "uid" := AInt64 700]> (<[txt "gid" := AInt64 70]> ∅));
                 <[txt "matchHostname" := AString (txt "other")]>
                   (<[txt "gid" := AInt64 80]> ∅);
                 <[txt "matchHostname" := AStrings [txt "x"; txt "build7"]]>
                   (<[txt "gid" := AInt64 71]> ∅) ]]>
  (<[txt "userName" := AString (txt "ada")]>
  (<[txt "uid" := AInt64 100]>
  (<[txt "gid" := AInt64 10]>
  (<[txt "homeDirectory" := AString (txt "/home/ada")]> ∅))))).

Definition layeredParams : list jsonObject :=
  [ <[txt "record" := AObject layeredRecord]> ∅ ].

(** ** Requests as JSON text

    The text around the userName and groupName members of a serialised
    call. *)

(** A name that needs no escape: no double quote, no backslash, no NUL. *)
Definition plainName (name : bytes) : Prop :=
  (dquote ∉ name) /\ (backslash ∉ name) /\ (x00 ∉ name).

Definition uidText (c : callParameters) : bytes :=
  match cp_uid c with
  | Some uid => lit ",'uid':" ++ strconv_FormatInt_10 uid
  | None => []
  end.

Definition gidText (c : callParameters) : bytes :=
  match cp_gid c with
  | Some gid => lit ",'gid':" ++ strconv_FormatInt_10 gid
  | None => []
  end.

Definition moreText (u : userdbCall) : bytes :=
  (if more u then lit ",'more':true" else []) ++ lit "}".

(** The text of a call up to and including the opening quote of the value
    of userName, and the text after its closing quote. *)
Definition beforeUserName (u : userdbCall) : bytes :=
  lit "{'method':'" ++ method u ++ lit "','parameters':"
  ++ lit "{'service':'" ++ userdbMuxSvc ++ lit "'" ++ uidText (parameters u)
  ++ lit ",'userName':'".

Definition afterUserName (u : userdbCall) : bytes :=
  gidText (parameters u)
  ++ (if nonEmpty (cp_groupName (parameters u))
      then lit ",'groupName':'" ++ cp_groupName (parameters u) ++ lit "'" else [])
  ++ lit "}" ++ moreText u.

(** The same for groupName. *)
Definition beforeGroupName (u : userdbCall) : bytes :=
  lit "{'method':'" ++ method u ++ lit "','parameters':"
  ++ lit "{'service':'" ++ userdbMuxSvc ++ lit "'" ++ uidText (parameters u)
  ++ (if nonEmpty (cp_userName (parameters u))
      then lit ",'userName':'" ++ cp_userName (parameters u) ++ lit "'" else [])
  ++ gidText (parameters u)
  ++ lit ",'groupName':'".

Definition afterGroupName (u : userdbCall) : bytes := lit "}" ++ moreText u.

(** Two calls of GetMemberships: one asks for a user whose name holds
    double quotes, the other for the user "a" and the group "b". *)
Definition quotedNameCall : userdbCall :=
  mkUserdbCall mGetMemberships
    (mkCallParameters None (lit "a','groupName':'b") None []) true.

Definition twoNamesCall : userdbCall :=
  mkUserdbCall mGetMemberships
    (mkCallParameters None (txt "a") None (txt "b")) true.

Definition plainNameCall : userdbCall :=
  mkUserdbCall mGetMemberships
    (mkCallParameters None (txt "stdlibcontrib") None []) true.

Definition noNameCall : userdbCall :=
  mkUserdbCall mGetGroupRecord (mkCallParameters None [] None []) false.

(** ** Replies that the reader accepts

    [parseJSONString] returns as remainder the slice after the opening quote
    cut at the count of unread bytes, so a key or a string value is followed
    by the right remainder only when as many bytes follow its closing quote
    as the string itself takes. The replies below are laid out that way: a
    pair of low-surrogate escapes, which the reader drops, lengthens a key
    by twelve bytes, and blanks after the last brace lengthen the message. *)
Definition padding (n : nat) : bytes := concat (repeat (lit "\uDC00\uDC00") n).

(** [{"error":"<code>"}], with [pad] pairs of escapes before the key. *)
Definition errorMessage (pad : nat) (code : bytes) : bytes :=
  lit "{'" ++ padding pad ++ lit "error':'" ++ code ++ lit "'}"
  ++ repeat x20 (length code).

Definition noRecordMessage : bytes := errorMessage 6 errNoRecordFound.
Definition notAvailableMessage : bytes := errorMessage 7 errServiceNotAvailable.

(** The same two replies as a service writes them. *)
Definition noRecordWire : bytes :=
  lit "{'error':'io.systemd.UserDatabase.NoRecordFound'}".
Definition notAvailableWire : bytes :=
  lit "{'error':'io.systemd.UserDatabase.ServiceNotAvailable'}".
Definition otherErrorMessage : bytes :=
  errorMessage 6 (txt "io.systemd.UserDatabase.BadService!!").

Definition groupCall (groupname : bytes) : userdbCall :=
  mkUserdbCall mGetGroupRecord (mkCallParameters None [] None groupname) false.

(** A message that the loop of [query] goes past: it is decoded, and either
    carries the NoRecordFound code, or carries no error and has continues
    set. *)
Definition passedOver (m : bytes) : Prop :=
  exists resp,
    userdbReply_unmarshal userdbReply_zero m = Ret (resp, None)
    /\ (reply_err resp = errNoRecordFound
        \/ (reply_err resp = [] /\ reply_continues resp = true)).

(** The connection that [query] makes for [call]. *)
Definition connectionOf (net : network) (cl : userdbClient) (call : userdbCall)
  : connection :=
  net (serviceSocket cl) (terminated (userdbCall_marshalJSON call)).

(** The connection was made, the request written and the response [resp]
    read. *)
Definition received (conn : connection) (call : userdbCall) (resp : bytes) : Prop :=
  socketErr conn = None
  /\ connectErr conn = None
  /\ writeLoop (writes conn) (length (terminated (userdbCall_marshalJSON call))) 0 = None
  /\ readLoop (reads conn) [] = inr resp.

(** ** Iterations of the string loop *)

(** The slice that the loop of [parseJSONString] works on: what follows the
    opening quote, when [r] starts, after white space, with a quote that is
    not at once followed by another. *)
Definition stringBody (r : bytes) : option bytes :=
  match skipSpace r with
  | c0 :: c1 :: rest =>
    if Byte.eqb c0 dquote && Byte.eqb c1 dquote then None
    else if negb (Byte.eqb c0 dquote) then None
    else Some (c1 :: rest)
  | _ => None
  end.

(** The state after [k] iterations that all continue. *)
Fixpoint afterSteps (k : nat) (r : bytes) (st : strState) : option strState :=
  match k with
  | O => Some st
  | S k' =>
    match parseJSONString_step r st with
    | Continue st' => afterSteps k' r st'
    | Leave _ => None
    end
  end.

(** [utf8.RuneCount]: the number of characters of a string. *)
Fixpoint utf8_RuneCount_fuel (fuel : nat) (p : bytes) : nat :=
  match fuel with
  | O => O
  | S fuel' =>
    match p with
    | [] => O
    | _ => let '(_, size) := utf8_DecodeRune p in
           S (utf8_RuneCount_fuel fuel' (skipn size p))
    end
  end.

Definition utf8_RuneCount (p : bytes) : nat := utf8_RuneCount_fuel (length p) p.

(** 2049 times the two bytes of U+00E9, between quotes. *)
Definition manyAccents : bytes := concat (repeat [xc3; xa9] (Z.to_nat 2049)).
Definition manyAccentsString : bytes := dquote :: manyAccents ++ [dquote].

(** ** Memberships: the calls and what they are expected to give *)

Definition membershipCall (username : bytes) : userdbCall :=
  mkUserdbCall mGetMemberships (mkCallParameters None username None []) true.

(** The gid, as a decimal string, that a GetGroupRecord call for [g] leaves
    in a fresh group record. *)
Definition gidOf (net : network) (cl : userdbClient) (g : bytes) : bytes :=
  match query net cl (groupCall g) groupRecord_zero with
  | Ret (group, _, _) => strconv_FormatInt_10 (gr_gid group)
  | Halt _ => []
  end.

(** The GetGroupRecord call for [g] is handled and gives no error. *)
Definition groupAnswered (net : network) (cl : userdbClient) (g : bytes) : Prop :=
  exists group, query net cl (groupCall g) groupRecord_zero = Ret (group, true, None).

(** A parameters object of a membership reply defines both names. *)
Definition definesBoth (ps : jsonObject) : Prop :=
  is_Some (jsonObjectGet bytes ps (txt "userName"))
  /\ is_Some (jsonObjectGet bytes ps (txt "groupName")).

Definition groupNamesOf (params : list jsonObject) : gset bytes :=
  list_to_set (omap (fun ps => jsonObjectGet bytes ps (txt "groupName")) params).

(** The replies of [TestUserdbLookupGroupIds], laid out so that the reader
    accepts them (see [padding]): two memberships of stdlibcontrib, in
    stdlib and in contrib, and the three group records. *)
Definition blank (n : nat) : bytes := repeat x20 n.

Definition membershipReply1 : bytes :=
  lit "{'" ++ padding 36 ++ lit "continues':" ++ blank 6 ++ lit "true'"
  ++ padding 17 ++ lit "parameters':" ++ blank 2 ++ lit "{'" ++ padding 8
  ++ lit "userName':" ++ blank 3 ++ lit "'" ++ padding 3
  ++ lit "stdlibcontrib'" ++ blank 5 ++ lit "'" ++ padding 1
  ++ lit "groupName':" ++ blank 6 ++ lit "'stdlib'}}" ++ blank 5.

Definition membershipReply2 : bytes :=
  lit "{'" ++ padding 17 ++ lit "parameters':" ++ blank 2 ++ lit "{'"
  ++ padding 8 ++ lit "userName':" ++ blank 3 ++ lit "'" ++ padding 3
  ++ lit "stdlibcontrib'" ++ blank 5 ++ lit "'" ++ padding 1
  ++ lit "groupName':" ++ blank 4 ++ lit "'contrib'}}" ++ blank 6.

Definition groupReply_stdlibcontrib : bytes :=
  lit "{'" ++ padding 29 ++ lit "parameters':" ++ blank 6 ++ lit "{'"
  ++ padding 14 ++ lit "record':" ++ blank 8 ++ lit "{'" ++ padding 6
  ++ lit "groupName':" ++ blank 4 ++ lit "'" ++ padding 2
  ++ lit "stdlibcontrib'" ++ blank 5 ++ lit "'" ++ padding 1
  ++ lit "gid':181}}}" ++ blank 9.

Definition groupReply_stdlib : bytes :=
  lit "{'" ++ padding 33 ++ lit "parameters':" ++ blank 6 ++ lit "{'"
  ++ padding 16 ++ lit "record':" ++ blank 8 ++ lit "{'" ++ padding 7
  ++ lit "groupName':" ++ blank 6 ++ lit "'" ++ padding 3 ++ lit "stdlib'"
  ++ blank 10 ++ lit "'" ++ padding 1 ++ lit "gid':182}}}" ++ blank 9.

Definition groupReply_contrib : bytes :=
  lit "{'" ++ padding 33 ++ lit "parameters':" ++ blank 6 ++ lit "{'"
  ++ padding 16 ++ lit "record':" ++ blank 8 ++ lit "{'" ++ padding 7
  ++ lit "groupName':" ++ blank 4 ++ lit "'" ++ padding 3 ++ lit "contrib'"
  ++ blank 11 ++ lit "'" ++ padding 1 ++ lit "gid':183}}}" ++ blank 9.

Definition groupRequestFor (g : bytes) : bytes :=
  lit "{'method':'io.systemd.UserDatabase.GetGroupRecord','parameters':{'service':'io.systemd.Multiplexer','groupName':'"
  ++ g ++ lit "'}}".

Definition membershipRequest : bytes :=
  lit "{'method':'io.systemd.UserDatabase.GetMemberships','parameters':{'service':'io.systemd.Multiplexer','userName':'stdlibcontrib'},'more':true}".

Definition groupIdsData : list (bytes * bytes) :=
  [ (membershipRequest, membershipReply1 ++ [x00] ++ membershipReply2);
    (groupRequestFor (txt "stdlibcontrib"), groupReply_stdlibcontrib);
    (groupRequestFor (txt "stdlib"), groupReply_stdlib);
    (groupRequestFor (txt "contrib"), groupReply_contrib) ].

(** One order in which the keys of a map may be handed out. *)
Definition someOrder (m : gmap bytes (gset bytes)) : list bytes := elements (dom m).

(** ** Values that the reader produces

    The values that [parseJSONElement] can return: objects, [[]any] slices,
    strings, integers and booleans, and never a [[]jsonObject] or a
    [[]string]. *)
#[warnings="-register-all"]
Inductive readerValue : any -> Prop :=
| readerValue_object (o : jsonObject) :
    map_Forall (fun _ v => readerValue v) o -> readerValue (AObject o)
| readerValue_slice (l : list any) :
    Forall readerValue l -> readerValue (ASlice l)
| readerValue_string (s : bytes) : readerValue (AString s)
| readerValue_int64 (n : Z) : readerValue (AInt64 n)
| readerValue_bool (b : bool) : readerValue (ABool b).

Definition readerObject (o : jsonObject) : Prop :=
  map_Forall (fun _ v => readerValue v) o.

(** The code point that a surrogate pair stands for. *)
Definition pairCodePoint (hi lo : Z) : Z :=
  65536 + (hi - 55296) * 1024 + (lo - 56320).

(** ** The shape of the values that the reader returns

    An object whose members are no arrays, an array whose elements are no
    objects, and so on inside every member and element. *)
#[warnings="-register-all"]
Inductive shaped : any -> Prop :=
| shaped_object (o : jsonObject) :
    map_Forall (fun _ v => shaped v /\ forall l, v <> ASlice l) o -> shaped (AObject o)
| shaped_slice (l : list any) :
    Forall (fun v => shaped v /\ forall o, v <> AObject o) l -> shaped (ASlice l)
| shaped_string (s : bytes) : shaped (AString s)
| shaped_int64 (n : Z) : shaped (AInt64 n)
| shaped_bool (b : bool) : shaped (ABool b).

(** ** What a string token stands for

    The byte that the switch of [parseJSONString] writes for the byte that
    follows a backslash. *)
Definition escaped (c : byte) : option byte :=
  if Byte.eqb c x62 then Some x08
  else if Byte.eqb c x66 then Some x0c
  else if Byte.eqb c x6e then Some x0a
  else if Byte.eqb c x72 then Some x0d
  else if Byte.eqb c x74 then Some x09
  else if Byte.eqb c x2f then Some x2f
  else if Byte.eqb c backslash then Some backslash
  else if Byte.eqb c dquote then Some dquote
  else None.

(** The six bytes of a unicode escape with the four digits [h]. *)
Definition escapeU (h : bytes) : bytes := backslash :: x75 :: h.

(** [readsToken u v k]: on the unread bytes [u], the loop of [parseJSONString]
    writes [v] and meets the closing quote as the [k]-th byte. One rule for
    each way through an iteration that goes on. *)
Inductive readsToken : bytes -> bytes -> nat -> Prop :=
| readsToken_quote (tail : bytes) : readsToken (dquote :: tail) [] 1
| readsToken_ascii (c : byte) (u v : bytes) (k : nat) :
    byteZ c < 128 -> c <> dquote -> c <> backslash ->
    readsToken u v k -> readsToken (c :: u) (c :: v) (S k)
| readsToken_rune (c : byte) (u : bytes) (rn : Z) (size : nat) (v : bytes) (k : nat) :
    128 <= byteZ c -> utf8_DecodeRune (c :: u) = (rn, size) ->
    readsToken (skipn size (c :: u)) v k ->
    readsToken (c :: u) (utf8_EncodeRune rn ++ v) (size + k)
| readsToken_escape (e b : byte) (u v : bytes) (k : nat) :
    escaped e = Some b ->
    readsToken u v k -> readsToken (backslash :: e :: u) (b :: v) (2 + k)
| readsToken_unicode (h : bytes) (rn : Z) (u v : bytes) (k : nat) :
    length h = 4%nat -> strconv_ParseUint_16_32 h = Some rn ->
    utf16_IsSurrogate rn = false ->
    readsToken u v k -> readsToken (escapeU h ++ u) (utf8_EncodeRune rn ++ v) (6 + k)
| readsToken_lone (h : bytes) (rn : Z) (u v : bytes) (k : nat) :
    length h = 4%nat -> strconv_ParseUint_16_32 h = Some rn ->
    utf16_IsSurrogate rn = true ->
    (length u < 6)%nat \/ nth 0 u x00 <> backslash \/ nth 1 u x00 <> x75 ->
    readsToken u v k -> readsToken (escapeU h ++ u) (utf8_EncodeRune RuneError ++ v) (6 + k)
| readsToken_pair (h1 h2 : bytes) (hi lo : Z) (u v : bytes) (k : nat) :
    length h1 = 4%nat -> strconv_ParseUint_16_32 h1 = Some hi ->
    length h2 = 4%nat -> strconv_ParseUint_16_32 h2 = Some lo ->
    55296 <= hi < 56320 -> 56320 <= lo < 57344 ->
    readsToken u v k ->
    readsToken (escapeU h1 ++ escapeU h2 ++ u)
          (utf8_EncodeRune (pairCodePoint hi lo) ++ v) (12 + k)
| readsToken_unpaired (h1 h2 : bytes) (rn rn1 : Z) (u v : bytes) (k : nat) :
    length h1 = 4%nat -> strconv_ParseUint_16_32 h1 = Some rn ->
    length h2 = 4%nat -> strconv_ParseUint_16_32 h2 = Some rn1 ->
    utf16_IsSurrogate rn = true -> utf16_DecodeRune rn rn1 = RuneError ->
    readsToken u v k -> readsToken (escapeU h1 ++ escapeU h2 ++ u) v (12 + k).

(** ** Valid UTF-8

    [utf8.ValidString]: every rune of the text decodes, none as the
    one-byte error that [utf8.DecodeRune] gives for a bad or cut encoding. *)
Fixpoint utf8_Valid_fuel (fuel : nat) (p : bytes) : bool :=
  match p with
  | [] => true
  | _ =>
    match fuel with
    | O => false
    | S fuel' =>
      let '(rn, size) := utf8_DecodeRune p in
      if Z.eqb rn RuneError && Nat.eqb size 1 then false
      else utf8_Valid_fuel fuel' (skipn size p)
    end
  end.

Definition utf8_ValidString (p : bytes) : bool := utf8_Valid_fuel (length p) p.

(** The bytes [enc] are the whole encoding of one rune, whatever follows
    them. *)
Definition encodesOne (enc : bytes) : Prop :=
  enc <> [] /\
  forall tail, exists rn,
    utf8_DecodeRune (enc ++ tail) = (rn, length enc)
    /\ (Z.eqb rn RuneError && Nat.eqb (length enc) 1 = false).

(** A text made of whole encodings. *)
Inductive encodings : bytes -> Prop :=
| encodings_nil : encodings []
| encodings_cons (enc rest : bytes) :
    encodesOne enc -> encodings rest -> encodings (enc ++ rest).

(** ** Arrays of integers

    An element of an array: blanks, at least one, and a numeral of at most
    19 digits whose value fits an int64. *)
Definition spacedNumeral (item : bytes * bytes) : Prop :=
  let '(sp, num) := item in
  sp <> [] /\ Forall (fun c => isSpace c = true) sp
  /\ num <> [] /\ Forall (fun c => isDigit c = true) num
  /\ (length num <= 19)%nat /\ decimalValue num <= maxInt64.

Definition spaced (items : list (bytes * bytes)) : bytes :=
  concat (map (fun item => fst item ++ snd item) items).

(** ** Streams of messages

    VARLINK messages on the wire: each is followed by a NUL byte. *)
Definition frame (msgs : list bytes) : bytes :=
  concat (map (fun m => m ++ [x00]) msgs).

(** A read that returns data and does not end the response: some bytes, the
    last of which is not NUL. *)
Definition openChunk (data : bytes) : Prop :=
  data <> [] /\ List.last data x01 <> x00.

(** What [query] does with the messages of a response, from the loop over
    them on. *)
Definition dispatch {U : Type} `{userdbParamsUnmarshaler U}
    (msgs : list bytes) (u : U) : run (U * bool * option error) :=
  match parseMessages msgs [] with
  | Halt a => Halt a
  | Ret (Returned handled err) => Ret (u, handled, err)
  | Ret (Gathered replyParams) =>
    let '(u, err) := unmarshalParameters u replyParams in Ret (u, true, err)
  end.

(** ** Messages that the loop of [query] takes in

    A message that is decoded, carries no error, and has these parameters
    and this continues flag. *)
Definition dataMessage (m : bytes) (p : jsonObject) (continues : bool) : Prop :=
  exists resp,
    userdbReply_unmarshal userdbReply_zero m = Ret (resp, None)
    /\ reply_err resp = [] /\ reply_parameters resp = p
    /\ reply_continues resp = continues.

(** A message that is decoded and carries the NoRecordFound code. *)
Definition noRecord (m : bytes) : Prop :=
  exists resp,
    userdbReply_unmarshal userdbReply_zero m = Ret (resp, None)
    /\ reply_err resp = errNoRecordFound.

(** A message that does not end the loop: data with continues set, whose
    parameters are kept, or NoRecordFound, which leaves nothing. *)
Definition goesOn (m : bytes) (kept : option jsonObject) : Prop :=
  match kept with
  | Some p => dataMessage m p true
  | None => noRecord m
  end.

(** The parameters of a message, and whether it is data with the given
    continues flag, by running the decoder. *)
Definition parametersOf (m : bytes) : jsonObject :=
  match userdbReply_unmarshal userdbReply_zero m with
  | Ret (resp, _) => reply_parameters resp
  | Halt _ => ∅
  end.

Definition isData (m : bytes) (continues : bool) : bool :=
  match userdbReply_unmarshal userdbReply_zero m with
  | Ret (resp, None) =>
    bytes_Equal (reply_err resp) [] && Bool.eqb (reply_continues resp) continues
  | _ => false
  end.

(** ** Memberships, as a relation

    [u] is listed as a user of the group [g]. *)
Definition listed (gu : gmap bytes (gset bytes)) (g u : bytes) : Prop :=
  exists users, gu !! g = Some users /\ u ∈ users.

(** The parameters [ps] say that [u] is a member of [g]. *)
Definition saysMember (ps : jsonObject) (g u : bytes) : Prop :=
  jsonObjectGet bytes ps (txt "userName") = Some u
  /\ jsonObjectGet bytes ps (txt "groupName") = Some g.

(** Two membership replies about one group, and one about another. *)
Definition membershipParams (u g : string) : jsonObject :=
  <[txt "userName" := AString (txt u)]> (<[txt "groupName" := AString (txt g)]> ∅).

Definition threeMemberships : list jsonObject :=
  [membershipParams "ada" "wheel"; membershipParams "bob" "wheel";
   membershipParams "ada" "audio"].

(** ** The client and the machine it runs on

    The operating system, as far as [getUserdbClient] and
    [getMachineRecord] ask it: [os.Stat] of a path ([None] when the path is
    there), [os.Hostname] and [os.ReadFile]. *)
Record system : Type := mkSystem {
  os_Stat : bytes -> option error;
  os_Hostname : bytes + error;
  os_ReadFile : bytes -> bytes + error }.

(** [strings.TrimSuffix]. *)
Definition strings_TrimSuffix (s suffix : bytes) : bytes :=
  if Nat.leb (length suffix) (length s)
     && bytes_Equal (skipn (length s - length suffix) s) suffix
  then firstn (length s - length suffix) s
  else s.

Definition userdbMuxSocket : bytes := txt "/run/systemd/userdb/" ++ userdbMuxSvc.

Definition getMachineRecord (sys : system) : perMachineRecord :=
  let rec := perMachineRecord_zero in
  match os_Hostname sys with
  | inr _ => rec
  | inl name =>
    let rec := mkPerMachineRecord (machineId rec) name in
    match os_ReadFile sys (txt "/etc/machine-id") with
    | inr _ => rec
    | inl id => mkPerMachineRecord (strings_TrimSuffix id [x0a]) (hostname rec)
    end
  end.

(** [getUserdbClient]: [None] stands for [(nil, false)]. *)
Definition getUserdbClient (sys : system) : option userdbClient :=
  match os_Stat sys userdbMuxSocket with
  | Some _ => None
  | None => Some (mkUserdbClient (getMachineRecord sys) userdbMuxSocket)
  end.

(** The record in the reply [data], when the reader accepts the reply and
    it has a parameters object with a record object. *)
Definition recordOfReply (data : bytes) : option jsonObject :=
  match parseJSONObject data with
  | Ok reply _ =>
    match jsonObjectGet jsonObject reply (txt "parameters") with
    | Some params => jsonObjectGet jsonObject params (txt "record")
    | None => None
    end
  | _ => None
  end.

(** A system with a hostname and a machine id, and one without a hostname. *)
Definition someSystem : system :=
  mkSystem (fun _ => None) (inl (txt "build7"))
    (fun _ => inl (txt "3f2a" ++ [x0a])).

Definition namelessSystem : system :=
  mkSystem (fun _ => None) (inr (txt "no hostname"))
    (fun _ => inl (txt "3f2a" ++ [x0a])).

(** ** Lookups, by what [query] gathered

    The calls that [queryGroupDb] and [queryUserDb] make. *)
Definition groupRecordCall (gid : option Z) (groupname : bytes) : userdbCall :=
  mkUserdbCall mGetGroupRecord (mkCallParameters None [] gid groupname) false.

Definition userRecordCall (uid : option Z) (username : bytes) : userdbCall :=
  mkUserdbCall mGetUserRecord (mkCallParameters uid username None []) false.

(** The group and the user that a record stands for on a machine without
    identity, which is what the fresh records of the lookups have. *)
Definition groupOfRecord (record : jsonObject) (groupName : bytes) : Group :=
  let matches := perMachineMatches perMachineRecord_zero record in
  let bound := machineBoundRecord [] record in
  mkGroup groupName
    (strconv_FormatInt_10 (resolveField Z (txt "gid") 0 record matches bound)).

Definition userOfRecord (record : jsonObject) (userName : bytes) : User :=
  let matches := perMachineMatches perMachineRecord_zero record in
  let bound := machineBoundRecord [] record in
  mkUser (strconv_FormatInt_10 (resolveField Z (txt "uid") 0 record matches bound))
         (strconv_FormatInt_10 (resolveField Z (txt "gid") 0 record matches bound))
         userName
         (resolveField bytes (txt "realName") [] record matches bound)
         (resolveField bytes (txt "homeDirectory") [] record matches bound).

(** A peer that answers the membership call of the tests, and says that the
    service is not available when asked for the group stdlibcontrib. *)
Definition primaryGroupUnavailable : list (bytes * bytes) :=
  [ (membershipRequest, membershipReply1 ++ [x00] ++ membershipReply2);
    (groupRequestFor (txt "stdlibcontrib"), notAvailableMessage) ].

(** ** A record with a machine-bound entry

    A GetGroupRecord reply whose record has gid 1 and, under binding, an
    entry for the machine id 3f2a with gid 7; laid out so that the reader
    accepts it (see [padding]). *)
Definition boundReply : bytes :=
  lit "{'" ++ padding 273 ++ lit "parameters':" ++ blank 6 ++ lit "{'"
  ++ padding 136 ++ lit "record':" ++ blank 8 ++ lit "{'" ++ padding 67
  ++ lit "groupName':" ++ blank 8 ++ lit "'" ++ padding 33 ++ lit "wheel'"
  ++ blank 9 ++ lit "'" ++ padding 16 ++ lit "gid':" ++ blank 9 ++ lit "1'"
  ++ padding 7 ++ lit "binding':" ++ blank 7 ++ lit "{'" ++ padding 3
  ++ lit "3f2a':" ++ blank 6 ++ lit "{'" ++ padding 1 ++ lit "gid':7}}}}}"
  ++ blank 9.

(** The parameters that such a reply stands for. *)
Definition boundParams : list jsonObject :=
  [ <[txt "record" :=
        AObject
          (<[txt "binding" :=
               AObject (<[txt "3f2a" := AObject (<[txt "gid" := AInt64 7]> ∅)]> ∅)]>
             (<[txt "groupName" := AString (txt "wheel")]>
                (<[txt "gid" := AInt64 1]> ∅)))]> ∅ ].

(** A client made on the machine [thisMachine]. *)
Definition machineClient : userdbClient :=
  mkUserdbClient thisMachine (txt "/tmp/multiplexer.sock").

(** ** The text of the bytes read

    What the loop of [parseJSONString] has written when it has read some
    bytes of its input. *)

(** [readsText u v k]: reading the first [k] bytes of [u], the loop of
    [parseJSONString] writes [v]. The rules are those of [readsToken], for a
    text that may stop anywhere between two items. *)
Inductive readsText : bytes -> bytes -> nat -> Prop :=
| readsText_nil (u : bytes) : readsText u [] 0
| readsText_ascii (c : byte) (u v : bytes) (k : nat) :
    byteZ c < 128 -> c <> dquote -> c <> backslash ->
    readsText u v k -> readsText (c :: u) (c :: v) (S k)
| readsText_rune (c : byte) (u : bytes) (rn : Z) (size : nat) (v : bytes) (k : nat) :
    128 <= byteZ c -> utf8_DecodeRune (c :: u) = (rn, size) ->
    readsText (skipn size (c :: u)) v k ->
    readsText (c :: u) (utf8_EncodeRune rn ++ v) (size + k)
| readsText_escape (e b : byte) (u v : bytes) (k : nat) :
    escaped e = Some b ->
    readsText u v k -> readsText (backslash :: e :: u) (b :: v) (2 + k)
| readsText_unicode (h : bytes) (rn : Z) (u v : bytes) (k : nat) :
    length h = 4%nat -> strconv_ParseUint_16_32 h = Some rn ->
    utf16_IsSurrogate rn = false ->
    readsText u v k -> readsText (escapeU h ++ u) (utf8_EncodeRune rn ++ v) (6 + k)
| readsText_lone (h : bytes) (rn : Z) (u v : bytes) (k : nat) :
    length h = 4%nat -> strconv_ParseUint_16_32 h = Some rn ->
    utf16_IsSurrogate rn = true ->
    (length u < 6)%nat \/ nth 0 u x00 <> backslash \/ nth 1 u x00 <> x75 ->
    readsText u v k -> readsText (escapeU h ++ u) (utf8_EncodeRune RuneError ++ v) (6 + k)
| readsText_pair (h1 h2 : bytes) (hi lo : Z) (u v : bytes) (k : nat) :
    length h1 = 4%nat -> strconv_ParseUint_16_32 h1 = Some hi ->
    length h2 = 4%nat -> strconv_ParseUint_16_32 h2 = Some lo ->
    55296 <= hi < 56320 -> 56320 <= lo < 57344 ->
    readsText u v k ->
    readsText (escapeU h1 ++ escapeU h2 ++ u)
      (utf8_EncodeRune (pairCodePoint hi lo) ++ v) (12 + k)
| readsText_unpaired (h1 h2 : bytes) (rn rn1 : Z) (u v : bytes) (k : nat) :
    length h1 = 4%nat -> strconv_ParseUint_16_32 h1 = Some rn ->
    length h2 = 4%nat -> strconv_ParseUint_16_32 h2 = Some rn1 ->
    utf16_IsSurrogate rn = true -> utf16_DecodeRune rn rn1 = RuneError ->
    readsText u v k -> readsText (escapeU h1 ++ escapeU h2 ++ u) v (12 + k).

(** A string of 5000 letters. *)
Definition manyLetters : bytes := repeat x61 (Z.to_nat 5000).

(** ** JSON strings, after RFC 8259

    Section 7 of RFC 8259: a string is a quotation mark, characters, and a
    quotation mark. A character is an unescaped code point (U+0020, U+0021,
    U+0023 to U+005B, U+005D to U+10FFFF; in a JSON text, which is UTF-8 by
    section 8.1, a valid encoding), or a backslash followed by one of
    quote, backslash, slash, b, f, n, r, t, or by u and four hexadecimal
    digits. *)
Definition isHexDigit (c : byte) : bool :=
  match digitVal c with
  | Some _ => true
  | None => false
  end.

Definition prepend (pre : bytes) (r : option (bytes * bytes)) : option (bytes * bytes) :=
  match r with
  | Some (t, rest) => Some (pre ++ t, rest)
  | None => None
  end.

(** The characters of a string, read from just after its opening quote:
    the bytes between the quotes and the text after the closing quote;
    [None] when the text does not continue a string. Every character takes
    at least one byte, so [length s] iterations are enough. *)
Fixpoint rfc8259_chars (fuel : nat) (s : bytes) : option (bytes * bytes) :=
  match fuel with
  | O => None
  | S fuel' =>
    match s with
    | [] => None
    | c :: s' =>
      if Byte.eqb c dquote then Some ([], s')
      else if Byte.eqb c backslash then
        match s' with
        | e :: s'' =>
          if Byte.eqb e x75 then
            match s'' with
            | h1 :: h2 :: h3 :: h4 :: s3 =>
              if forallb isHexDigit [h1; h2; h3; h4]
              then prepend [c; e; h1; h2; h3; h4] (rfc8259_chars fuel' s3)
              else None
            | _ => None
            end
          else
            match escaped e with
            | Some _ => prepend [c; e] (rfc8259_chars fuel' s'')
            | None => None
            end
        | [] => None
        end
      else if Z.ltb (byteZ c) 32 then None
      else if Z.ltb (byteZ c) 128 then prepend [c] (rfc8259_chars fuel' s')
      else
        let '(rn, size) := utf8_DecodeRune s in
        if Z.eqb rn RuneError && Nat.eqb size 1 then None
        else prepend (firstn size s) (rfc8259_chars fuel' (skipn size s))
    end
  end.

Definition rfc8259_string (s : bytes) : option (bytes * bytes) :=
  rfc8259_chars (length s) s.

(** A name that is a JSON string as it is: valid UTF-8 without a double
    quote, a backslash or a control byte (a byte below U+0020). *)
Definition unescapedName (name : bytes) : Prop :=
  utf8_ValidString name = true
  /\ Forall (fun c => 32 <= byteZ c /\ c <> dquote /\ c <> backslash) name.

(** Calls for a user whose name is the byte FF, the three bytes a, line
    feed, b, and the name zoe with a diaeresis on the e. *)
Definition invalidNameCall : userdbCall :=
  mkUserdbCall mGetUserRecord (mkCallParameters None [xff] None []) false.

Definition controlNameCall : userdbCall :=
  mkUserdbCall mGetUserRecord (mkCallParameters None [x61; x0a; x62] None []) false.

Definition accentNameCall : userdbCall :=
  mkUserdbCall mGetUserRecord (mkCallParameters None [x7a; x6f; xc3; xab] None []) false.

(** * Properties *)

(** ** The integer reader *)

Lemma digitRun_afterDigits (s : bytes) : digitRun s ++ afterDigits s = s.
Proof.
  induction s as [|c s IH]; cbn; [reflexivity|].
  destruct (isDigit c); cbn; [now rewrite IH | reflexivity].
Qed.

Lemma skipn_digitRun (s : bytes) : skipn (length (digitRun s)) s = afterDigits s.
Proof.
  induction s as [|c s IH]; cbn; [reflexivity|].
  destruct (isDigit c); cbn; [exact IH | reflexivity].
Qed.

Lemma digitRun_digits (s : bytes) : Forall (fun c => isDigit c = true) (digitRun s).
Proof.
  induction s as [|c s IH]; cbn; [constructor|].
  destruct (isDigit c) eqn:E; [constructor; assumption | constructor].
Qed.

Lemma len_app (a b : bytes) : len (a ++ b) = len a + len b.
Proof. unfold len. rewrite length_app. lia. Qed.

Lemma len_nonneg (a : bytes) : 0 <= len a.
Proof. unfold len. lia. Qed.

(** What the loop of [parseJSONInt64] returns, by the length of the run. *)
Lemma parseJSONInt64_loop_spec (rem num : bytes) (count : nat) :
  len num <= 20 ->
  parseJSONInt64_loop rem num count =
    if Z.leb (len num + len (digitRun rem)) 19
       || (Z.eqb (len num + len (digitRun rem)) 20 && negb (nonEmpty (afterDigits rem)))
    then inr (num ++ digitRun rem, (count + length (digitRun rem))%nat)
    else inl (txt "number too large").
Proof.
  revert num count. induction rem as [|c rem IH]; intros num count Hn.
  - cbn [parseJSONInt64_loop digitRun afterDigits nonEmpty negb].
    rewrite app_nil_r, Nat.add_0_r.
    change (len []) with 0. rewrite Z.add_0_r.
    destruct (Z.leb_spec (len num) 19); cbn [orb]; [reflexivity|].
    replace (len num) with 20 by lia. reflexivity.
  - cbn [parseJSONInt64_loop digitRun afterDigits].
    destruct (Z.eqb_spec (len num) 20) as [E20|N20].
    + (* the buffer already holds 20 digits and a byte follows *)
      destruct (isDigit c).
      * change (len (c :: digitRun rem)) with (Z.of_nat (S (length (digitRun rem)))).
        rewrite E20.
        destruct (Z.leb_spec (20 + Z.of_nat (S (length (digitRun rem)))) 19); [lia|].
        destruct (Z.eqb_spec (20 + Z.of_nat (S (length (digitRun rem)))) 20); [lia|].
        reflexivity.
      * change (len []) with 0. rewrite E20. reflexivity.
    + destruct (isDigit c) eqn:Ed.
      * rewrite IH by (rewrite len_app; change (len [c]) with 1; lia).
        rewrite len_app. change (len [c]) with 1.
        change (len (c :: digitRun rem)) with (Z.of_nat (S (length (digitRun rem)))).
        unfold len at 2 4.
        replace (len num + 1 + Z.of_nat (length (digitRun rem)))
          with (len num + Z.of_nat (S (length (digitRun rem)))) by lia.
        rewrite <- app_assoc. cbn [app length].
        replace (S count + length (digitRun rem))%nat
          with (count + S (length (digitRun rem)))%nat by lia.
        reflexivity.
      * change (len []) with 0. rewrite Z.add_0_r.
        cbn [nonEmpty negb andb]. rewrite andb_false_r, orb_false_r.
        rewrite app_nil_r, Nat.add_0_r.
        destruct (Z.leb_spec (len num) 19); [reflexivity | lia].
Qed.

Lemma isDigit_digitVal (c : byte) :
  isDigit c = true -> digitVal c = Some (byteZ c - 48) /\ 0 <= byteZ c - 48 < 10.
Proof.
  unfold isDigit, digitVal. intros H. rewrite H. split; [reflexivity|].
  unfold inRange in H. apply andb_true_iff in H as [H1 H2].
  apply Z.leb_le in H1, H2. lia.
Qed.

Lemma digitsVal_digits (ds : bytes) (acc : Z) :
  Forall (fun c => isDigit c = true) ds ->
  digitsVal 10 acc ds = Some (fold_left (fun acc c => 10 * acc + (byteZ c - 48)) ds acc).
Proof.
  intros H. revert acc. induction H as [|c ds Hc _ IH]; intros acc; cbn; [reflexivity|].
  destruct (isDigit_digitVal c Hc) as [-> Hr].
  destruct (Z.ltb_spec (byteZ c - 48) 10); [|lia].
  rewrite IH. do 2 f_equal. lia.
Qed.

Lemma isDigit_not_sign (c : byte) :
  isDigit c = true -> Byte.eqb c x2d = false /\ Byte.eqb c x2b = false.
Proof.
  intros H. split.
  - destruct (Byte.eqb c x2d) eqn:E; [|reflexivity].
    apply Byte.byte_dec_bl in E. subst c. discriminate H.
  - destruct (Byte.eqb c x2b) eqn:E; [|reflexivity].
    apply Byte.byte_dec_bl in E. subst c. discriminate H.
Qed.

Lemma isDigit_strconv_digit (c : byte) :
  isDigit c = true -> strconv_digit c = Some (byteZ c - 48) /\ 0 <= byteZ c - 48 < 10.
Proof.
  unfold isDigit, strconv_digit. intros H. rewrite H. split; [reflexivity|].
  unfold inRange in H. apply andb_true_iff in H as [H1 H2].
  apply Z.leb_le in H1, H2. lia.
Qed.

Lemma decimal_fold_lower (ds : bytes) (acc : Z) :
  Forall (fun c => isDigit c = true) ds -> 0 <= acc ->
  acc <= fold_left (fun acc c => 10 * acc + (byteZ c - 48)) ds acc.
Proof.
  intros H. revert acc. induction H as [|c ds Hc _ IH]; intros acc Hacc; cbn; [lia|].
  destruct (isDigit_digitVal c Hc) as [_ Hr].
  etransitivity; [|apply IH]; lia.
Qed.

(** The loop of [strconv.ParseUint] on a run of digits: the value, unless it
    does not fit 64 bits. *)
Lemma ParseUint_loop_digits (ds : bytes) (n : Z) :
  Forall (fun c => isDigit c = true) ds -> 0 <= n <= maxUint64 ->
  strconv_ParseUint_loop n ds =
    let v := fold_left (fun acc c => 10 * acc + (byteZ c - 48)) ds n in
    if Z.leb v maxUint64 then (v, None) else (maxUint64, Some ErrRange).
Proof.
  intros H. revert n. induction H as [|c ds Hc Hds IH]; intros n Hn;
    cbn [strconv_ParseUint_loop fold_left]; cbv zeta.
  - destruct (Z.leb_spec n maxUint64); [reflexivity | lia].
  - destruct (isDigit_strconv_digit c Hc) as [-> Hr].
    destruct (Z.leb_spec 10 (byteZ c - 48)); [lia|].
    pose proof (decimal_fold_lower ds (10 * n + (byteZ c - 48)) Hds ltac:(lia)) as Hlow.
    change (maxUint64 / 10 + 1) with 1844674407370955162.
    change (2 ^ 64) with 18446744073709551616.
    unfold maxUint64 in *.
    destruct (Z.leb_spec 1844674407370955162 n).
    { destruct (Z.leb_spec
                  (fold_left (fun acc c0 => 10 * acc + (byteZ c0 - 48)) ds
                     (10 * n + (byteZ c - 48))) 18446744073709551615);
        [lia | reflexivity]. }
    rewrite (Z.mod_small (n * 10)) by lia.
    destruct (Z.le_gt_cases 18446744073709551616 (n * 10 + (byteZ c - 48))) as [Hover|Hfit].
    + assert (Hm : (n * 10 + (byteZ c - 48)) mod 18446744073709551616
                   = n * 10 + (byteZ c - 48) - 18446744073709551616).
      { symmetry. apply (Z.mod_unique_pos _ _ 1); lia. }
      rewrite Hm.
      destruct (Z.ltb_spec (n * 10 + (byteZ c - 48) - 18446744073709551616) (n * 10));
        [|lia].
      cbn [orb].
      destruct (Z.leb_spec
                  (fold_left (fun acc c0 => 10 * acc + (byteZ c0 - 48)) ds
                     (10 * n + (byteZ c - 48))) 18446744073709551615);
        [lia | reflexivity].
    + rewrite (Z.mod_small (n * 10 + (byteZ c - 48))) by lia.
      destruct (Z.ltb_spec (n * 10 + (byteZ c - 48)) (n * 10)); [lia|].
      destruct (Z.ltb_spec 18446744073709551615 (n * 10 + (byteZ c - 48))); [lia|].
      cbn [orb]. rewrite IH by lia. cbv zeta.
      replace (n * 10 + (byteZ c - 48)) with (10 * n + (byteZ c - 48)) by lia.
      reflexivity.
Qed.

(** [strconv.ParseInt] on a run of digits. *)
Lemma ParseInt_digits (ds : bytes) :
  Forall (fun c => isDigit c = true) ds ->
  strconv_ParseInt_10_64 ds =
    match ds with
    | [] => (0, Some (mkNumError (txt "ParseInt") [] ErrSyntax))
    | _ => if Z.ltb maxInt64 (decimalValue ds)
           then (maxInt64, Some (mkNumError (txt "ParseInt") ds ErrRange))
           else (decimalValue ds, None)
    end.
Proof.
  intros H. destruct ds as [|c ds]; [reflexivity|].
  unfold strconv_ParseInt_10_64.
  inversion H as [|? ? Hc Hds]; subst.
  destruct (isDigit_not_sign c Hc) as [-> ->].
  unfold strconv_ParseUint_10_64.
  rewrite (ParseUint_loop_digits (c :: ds) 0 H) by (unfold maxUint64; lia).
  cbv zeta. fold (decimalValue (c :: ds)).
  pose proof (decimal_fold_lower (c :: ds) 0 H ltac:(lia)) as Hlow.
  fold (decimalValue (c :: ds)) in Hlow.
  change (2 ^ 63) with 9223372036854775808.
  unfold maxUint64, maxInt64.
  destruct (Z.leb_spec (decimalValue (c :: ds)) 18446744073709551615) as [Hfit|Hover].
  - cbn [negb andb].
    destruct (Z.leb_spec 9223372036854775808 (decimalValue (c :: ds))).
    + destruct (Z.ltb_spec 9223372036854775807 (decimalValue (c :: ds))); [|lia].
      reflexivity.
    + destruct (Z.ltb_spec 9223372036854775807 (decimalValue (c :: ds))); [lia|].
      f_equal. unfold toInt64.
      change (2 ^ 63) with 9223372036854775808.
      change (2 ^ 64) with 18446744073709551616.
      rewrite Z.mod_small by lia. lia.
  - cbn [negb andb].
    destruct (Z.ltb_spec 9223372036854775807 (decimalValue (c :: ds))); [|lia].
    reflexivity.
Qed.

(** Quoting text of ASCII bytes consults no table, so the messages that the
    reader builds for runs of digits are those of every table. *)
Lemma appendEscapedRune_latin1 (t1 t2 : Z -> bool) (r : Z) :
  r <= 255 -> appendEscapedRune t1 r = appendEscapedRune t2 r.
Proof.
  intros Hr. unfold appendEscapedRune, strconv_IsPrint.
  destruct (Z.leb_spec r 255); [reflexivity | lia].
Qed.

Lemma strconv_Quote_ascii (t1 t2 : Z -> bool) (s : bytes) :
  Forall (fun c => byteZ c < 128) s -> strconv_Quote t1 s = strconv_Quote t2 s.
Proof.
  intros H. unfold strconv_Quote. do 2 f_equal.
  generalize (length s) as fuel. intros fuel. revert s H.
  induction fuel as [|fuel IH]; intros s H; [reflexivity|].
  destruct H as [|c s Hc Hs]; [reflexivity|].
  cbn [strconv_Quote_loop]. unfold RuneSelf.
  destruct (Z.leb_spec 128 (byteZ c)); [lia|].
  change (Nat.eqb 1 1) with true. cbn [andb skipn].
  change (drop 0 s) with s.
  rewrite (IH s Hs), (appendEscapedRune_latin1 t1 t2 (byteZ c)) by lia.
  reflexivity.
Qed.

Lemma NumError_Error_digits (table : Z -> bool) (fn num : bytes) (kind : numErr) :
  Forall (fun c => isDigit c = true) num ->
  NumError_Error table (mkNumError fn num kind)
  = NumError_Error noTable (mkNumError fn num kind).
Proof.
  intros H. unfold NumError_Error. cbn [ne_Func ne_Num ne_Err].
  rewrite (strconv_Quote_ascii table noTable num); [reflexivity|].
  eapply Forall_impl; [exact H|]. intros c Hc. cbv beta in Hc.
  unfold isDigit, inRange in Hc. apply andb_true_iff in Hc as [_ Hc].
  apply Z.leb_le in Hc. lia.
Qed.

(** C7, as amended. After white space, with [run] the leading run of ASCII
    digits: a run of 20 or more digits that is followed by at least one more
    byte (so every run of 21 or more) is rejected as too large; a run of 1
    to 19 digits whose value fits an int64 is read to exactly its decimal
    value and the suffix after the run is returned as it is, leading zeros
    included in the run; a run of at most 19 digits whose value exceeds
    2^63 - 1 is rejected, and so is the empty run. *)
Theorem parseJSONInt64_digit_runs (r : bytes) :
  let s := skipSpace r in
  let run := digitRun s in
  ((20 <= length run)%nat -> (20 < length s)%nat ->
     parseJSONInt64 r = Err (txt "number too large"))
  /\ ((1 <= length run <= 19)%nat -> decimalValue run <= maxInt64 ->
      parseJSONInt64 r = Ok (decimalValue run) (afterDigits s))
  /\ ((length run <= 19)%nat -> maxInt64 < decimalValue run ->
      parseJSONInt64 r = Err (errRange (txt "ParseInt") run))
  /\ (run = [] -> parseJSONInt64 r = Err (errSyntax (txt "ParseInt") [])).
Proof.
  intros s run. unfold parseJSONInt64. fold s.
  rewrite parseJSONInt64_loop_spec by (change (len []) with 0; lia).
  change (len []) with 0. rewrite Z.add_0_l. cbn [app Nat.add]. fold run.
  pose proof (digitRun_digits s) as Hd. fold run in Hd.
  pose proof (digitRun_afterDigits s) as Hs. fold run in Hs.
  assert (Hl : length s = (length run + length (afterDigits s))%nat)
    by (rewrite <- Hs at 1; apply length_app).
  pose proof (skipn_digitRun s) as Hskip. fold run in Hskip.
  clearbody run. unfold len. repeat split.
  - intros H20 Hmore.
    destruct (Z.leb_spec (Z.of_nat (length run)) 19); [lia|]. cbn [orb].
    destruct (Z.eqb_spec (Z.of_nat (length run)) 20) as [E|N]; [|reflexivity].
    destruct (afterDigits s); [cbn [length] in Hl; lia | reflexivity].
  - intros [H1 H19] Hfit.
    destruct (Z.leb_spec (Z.of_nat (length run)) 19); [|lia]. cbn [orb].
    rewrite (ParseInt_digits run Hd).
    destruct run as [|c run']; [cbn in H1; lia|].
    destruct (Z.ltb_spec maxInt64 (decimalValue (c :: run'))); [lia|].
    now rewrite Hskip.
  - intros H19 Hbig.
    destruct (Z.leb_spec (Z.of_nat (length run)) 19); [|lia]. cbn [orb].
    rewrite (ParseInt_digits run Hd).
    destruct run as [|c run']; [cbv in Hbig; discriminate|].
    destruct (Z.ltb_spec maxInt64 (decimalValue (c :: run'))); [reflexivity|lia].
  - intros ->. reflexivity.
Qed.

Lemma parseJSONInt64_digit_runs_witness :
  parseJSONInt64 (txt " 0042}") = Ok 42 (txt "}").
Proof.
  refine (proj1 (proj2 (parseJSONInt64_digit_runs (txt " 0042}"))) _ _).
  - vm_compute. lia.
  - vm_compute. discriminate.
Defined.

(** C7, as stated, fails: a run of 19 digits beyond 2^63 - 1 is rejected,
    an empty run is rejected, and a run of 20 digits at the very end of the
    input is accepted when its value fits. *)
Lemma parseJSONInt64_claimed_bounds_fail :
  (length (digitRun (txt "9999999999999999999")) = 19%nat
   /\ parseJSONInt64 (txt "9999999999999999999")
      = Err (errRange (txt "ParseInt") (txt "9999999999999999999")))
  /\ (digitRun (txt "}") = []
      /\ parseJSONInt64 (txt "}") = Err (errSyntax (txt "ParseInt") []))
  /\ (length (digitRun (txt "00000000000000000007")) = 20%nat
      /\ parseJSONInt64 (txt "00000000000000000007") = Ok 7 []).
Proof. repeat split; vm_compute; reflexivity. Qed.

(** ** The string reader *)

Lemma utf8_DecodeRune_size (c : byte) (p : bytes) :
  (1 <= snd (utf8_DecodeRune (c :: p)) <= length (c :: p))%nat.
Proof.
  unfold utf8_DecodeRune.
  repeat match goal with
         | |- context [if ?b then _ else _] => destruct b
         | |- context [match ?l with [] => _ | _ :: _ => _ end] => destruct l
         end; cbn [snd length]; lia.
Qed.

Lemma utf8_RuneCount_fuel_le (fuel : nat) (p : bytes) :
  (utf8_RuneCount_fuel fuel p <= length p)%nat.
Proof.
  revert p. induction fuel as [|fuel IH]; intros p; cbn [utf8_RuneCount_fuel]; [lia|].
  destruct p as [|c p]; [cbn; lia|].
  pose proof (utf8_DecodeRune_size c p) as Hs.
  destruct (utf8_DecodeRune (c :: p)) as [rn size]. cbn [snd] in Hs.
  specialize (IH (skipn size (c :: p))). rewrite length_skipn in IH. lia.
Qed.

Lemma utf8_RuneCount_le (p : bytes) : (utf8_RuneCount p <= length p)%nat.
Proof. apply utf8_RuneCount_fuel_le. Qed.

(** The reader stays inside its slice. *)
Definition readerOk (rd : Reader) : Prop := (rd_i rd <= length (rd_s rd))%nat.

Lemma Reader_Len_eq (rd : Reader) :
  Reader_Len rd = (length (rd_s rd) - rd_i rd)%nat.
Proof. unfold Reader_Len, Reader_unread. apply length_skipn. Qed.

Lemma Reader_Read_spec (rd : Reader) (n : nat) :
  match Reader_Read rd n with
  | (got, true, rd') => got = [] /\ rd' = rd
  | (got, false, rd') =>
    rd' = Reader_advance rd (length got)
    /\ (length got <= Reader_Len rd)%nat /\ (0 < Reader_Len rd)%nat
    /\ (length got <= n)%nat
  end.
Proof.
  unfold Reader_Read, Reader_Len.
  destruct (Reader_unread rd) as [|c l] eqn:E; [now split|].
  split; [reflexivity|]. rewrite length_firstn. cbn [length]. lia.
Qed.

(** An iteration that continues leaves the slice alone and moves the reader
    forward, inside the slice. *)
Ltac reader_lia :=
  unfold Reader_SeekBack, Reader_advance in *;
  cbn [st_value st_inEsc st_inUEsc st_reader rd_s rd_i length] in *;
  repeat split; try reflexivity; lia.

Lemma parseJSONString_step_progress (r : bytes) (st st' : strState) :
  readerOk (st_reader st) ->
  parseJSONString_step r st = Continue st' ->
  rd_s (st_reader st') = rd_s (st_reader st)
  /\ (rd_i (st_reader st) < rd_i (st_reader st'))%nat
  /\ readerOk (st_reader st').
Proof.
  unfold readerOk, parseJSONString_step. intros Hok.
  destruct st as [value inEsc inUEsc rd]. cbn [st_value st_inEsc st_inUEsc st_reader] in *.
  pose proof (Reader_Len_eq rd) as HL.
  destruct (Z.ltb 4096 (len value)); [discriminate|].
  destruct inUEsc.
  - pose proof (Reader_Read_spec rd 4) as H4.
    destruct (Reader_Read rd 4) as [[got eof] rd1].
    destruct eof; [discriminate|]. cbn [orb].
    destruct H4 as (-> & Hg & Hpos & _).
    destruct (Nat.eqb_spec (length got) 4) as [E4|]; [|discriminate]. cbn [negb].
    destruct (strconv_ParseUint_16_32 (filled 4 got)) as [rn|]; [|discriminate].
    destruct (utf16_IsSurrogate rn); cbn [negb].
    + pose proof (Reader_Read_spec (Reader_advance rd (length got)) 6) as H6.
      pose proof (Reader_Len_eq (Reader_advance rd (length got))) as HL6.
      destruct (Reader_Read (Reader_advance rd (length got)) 6) as [[got2 eof2] rd2].
      destruct eof2.
      * destruct H6 as (-> & ->). cbn [orb length Reader_SeekBack].
        intros E. injection E as <-. reader_lia.
      * destruct H6 as (-> & Hg2 & Hpos2 & Hn2). cbn [orb].
        cbn [Reader_advance rd_s rd_i] in HL6.
        destruct (negb (Nat.eqb (length got2) 6)
                  || negb (Byte.eqb (nth 0 (filled 6 got2) x00) backslash)
                  || negb (Byte.eqb (nth 1 (filled 6 got2) x00) x75)).
        -- intros E. injection E as <-. reader_lia.
        -- destruct (strconv_ParseUint_16_32 (skipn 2 (filled 6 got2))); [|discriminate].
           destruct (negb (Z.eqb (utf16_DecodeRune rn z) RuneError));
             intros E; injection E as <-; reader_lia.
    + intros E. injection E as <-. reader_lia.
  - destruct inEsc.
    + unfold Reader_ReadByte. unfold Reader_Len in HL.
      destruct (Reader_unread rd) as [|c l]; [discriminate|]. cbn [length] in HL.
      repeat match goal with
             | |- context [if ?b then _ else _] => destruct b
             end;
        try discriminate; intros E; injection E as <-; reader_lia.
    + unfold Reader_ReadRune. unfold Reader_Len in HL.
      destruct (Reader_unread rd) as [|c l] eqn:Eu; [discriminate|].
      pose proof (utf8_DecodeRune_size c l) as Hsz.
      destruct (Z.ltb (byteZ c) RuneSelf).
      * cbn [length] in HL.
        repeat match goal with
               | |- context [if ?b then _ else _] => destruct b
               end;
          try discriminate; intros E; injection E as <-; reader_lia.
      * destruct (utf8_DecodeRune (c :: l)) as [ch size]. cbn [snd] in Hsz.
        repeat match goal with
               | |- context [if ?b then _ else _] => destruct b
               end;
          try discriminate; intros E; injection E as <-; reader_lia.
Qed.

(** Case analysis along the branches of [parseJSONString_step]. *)
Ltac step_cases :=
  repeat match goal with
         | |- context [Reader_Read ?rd ?n] =>
           destruct (Reader_Read rd n) as [[? ?] ?]
         | |- context [Reader_ReadByte ?rd] =>
           destruct (Reader_ReadByte rd) as [[? ?]|]
         | |- context [Reader_ReadRune ?rd] =>
           destruct (Reader_ReadRune rd) as [[? ?]|]
         | |- context [strconv_ParseUint_16_32 ?x] =>
           destruct (strconv_ParseUint_16_32 x)
         | |- context [if ?b then _ else _] => destruct b
         end.

Lemma txt_too_large_head (e : error) :
  hd x00 e <> x73 -> e <> txt "string too large".
Proof. intros Hh ->. apply Hh. reflexivity. Qed.

Lemma Err_too_large_head {A : Type} (e : error) :
  hd x00 e <> x73 -> @Err A e <> Err (txt "string too large").
Proof. intros Hh E. apply (txt_too_large_head e Hh). congruence. Qed.

Lemma Leave_too_large_head (e : error) :
  hd x00 e <> x73 -> Leave (Err e) <> Leave (Err (txt "string too large")).
Proof. intros Hh E. apply (txt_too_large_head e Hh). congruence. Qed.

(** The first byte of an error message is not that of "string too large". *)
Ltac other_message := intros Hh; vm_compute in Hh; discriminate Hh.

(** The loop is left with the error "string too large" only by the check at
    its top. *)
Lemma parseJSONString_step_too_large (r : bytes) (st : strState) :
  parseJSONString_step r st = Leave (Err (txt "string too large")) <->
  4096 < len (st_value st).
Proof.
  unfold parseJSONString_step.
  destruct (Z.ltb_spec 4096 (len (st_value st))) as [Hgt|Hle]; [tauto|].
  split; [|lia]. intros E. exfalso. revert E.
  step_cases;
    try discriminate; apply Leave_too_large_head; other_message.
Qed.

(** A value is returned only from an iteration that passed the check at the
    top of the loop, and it is the buffer of that iteration. *)
Lemma parseJSONString_step_ok (r : bytes) (st : strState) (v rest : bytes) :
  parseJSONString_step r st = Leave (Ok v rest) ->
  v = st_value st /\ len v <= 4096.
Proof.
  unfold parseJSONString_step, strEnd.
  destruct (Z.ltb_spec 4096 (len (st_value st))) as [Hgt|Hle]; [discriminate|].
  step_cases; try discriminate;
    intros E; injection E as <- _; now split.
Qed.

Lemma parseJSONString_step_no_abort (r : bytes) (st : strState) (a : abnormal) :
  parseJSONString_step r st <> Leave (Abort a).
Proof.
  unfold parseJSONString_step, strEnd.
  step_cases;
    discriminate.
Qed.

Lemma parseJSONString_loop_ok (fuel : nat) (r : bytes) (st : strState) (v rest : bytes) :
  parseJSONString_loop fuel r st = Ok v rest -> len v <= 4096.
Proof.
  revert st. induction fuel as [|fuel IH]; intros st; cbn [parseJSONString_loop];
    [discriminate|].
  destruct (parseJSONString_step r st) as [st'|res] eqn:E.
  - apply IH.
  - intros ->. now apply parseJSONString_step_ok in E.
Qed.

Lemma parseJSONString_loop_too_large (fuel : nat) (r : bytes) (st : strState) :
  parseJSONString_loop fuel r st = Err (txt "string too large") ->
  exists k st', afterSteps k r st = Some st' /\ 4096 < len (st_value st').
Proof.
  revert st. induction fuel as [|fuel IH]; intros st; cbn [parseJSONString_loop];
    [discriminate|].
  destruct (parseJSONString_step r st) as [st1|res] eqn:E.
  - intros Hl. destruct (IH st1 Hl) as (k & st' & Hk & Hv).
    exists (S k), st'. cbn [afterSteps]. now rewrite E.
  - intros ->. exists O, st. split; [reflexivity|].
    now apply parseJSONString_step_too_large in E.
Qed.

Lemma afterSteps_progress (k : nat) (r : bytes) (st st' : strState) :
  readerOk (st_reader st) ->
  afterSteps k r st = Some st' ->
  rd_s (st_reader st') = rd_s (st_reader st)
  /\ (rd_i (st_reader st) + k <= rd_i (st_reader st'))%nat
  /\ readerOk (st_reader st').
Proof.
  revert st. induction k as [|k IH]; intros st Hok; cbn [afterSteps].
  - intros E. injection E as <-. repeat split; [lia | assumption].
  - destruct (parseJSONString_step r st) as [st1|] eqn:E; [|discriminate].
    intros Hk.
    destruct (parseJSONString_step_progress r st st1 Hok E) as (Hs & Hi & Hok1).
    destruct (IH st1 Hok1 Hk) as (Hs' & Hi' & Hok').
    repeat split; [congruence | lia | assumption].
Qed.

Lemma parseJSONString_loop_afterSteps (k fuel : nat) (r : bytes) (st st' : strState) :
  afterSteps k r st = Some st' ->
  parseJSONString_loop (k + fuel) r st = parseJSONString_loop fuel r st'.
Proof.
  revert st. induction k as [|k IH]; intros st; cbn [afterSteps Nat.add].
  - now intros [= ->].
  - cbn [parseJSONString_loop].
    destruct (parseJSONString_step r st) as [st1|]; [apply IH | discriminate].
Qed.

(** The fuel of [parseJSONString] is never used up, and no index leaves the
    slice: the function returns a value or an error. *)
Lemma parseJSONString_loop_returns (fuel : nat) (r : bytes) (st : strState) (a : abnormal) :
  readerOk (st_reader st) ->
  (length (rd_s (st_reader st)) - rd_i (st_reader st) < fuel)%nat ->
  parseJSONString_loop fuel r st <> Abort a.
Proof.
  revert st. induction fuel as [|fuel IH]; intros st Hok Hf; [lia|].
  cbn [parseJSONString_loop].
  destruct (parseJSONString_step r st) as [st1|res] eqn:E.
  - destruct (parseJSONString_step_progress r st st1 Hok E) as (Hs & Hi & Hok1).
    apply IH; [assumption|]. unfold readerOk in Hok, Hok1.
    rewrite Hs in Hok1 |- *. lia.
  - intros ->. now apply parseJSONString_step_no_abort in E.
Qed.

Lemma parseJSONString_body (r : bytes) :
  parseJSONString r =
    match stringBody r with
    | Some body => parseJSONString_loop (S (length body)) body (strInit body)
    | None =>
      match skipSpace r with
      | c0 :: c1 :: _ =>
        if Byte.eqb c0 dquote && Byte.eqb c1 dquote then Ok [] (skipn 2 (skipSpace r))
        else Err (lit "expected ' got " ++ stringOfByte c0)
      | _ => Err (txt "unexpected end of input")
      end
    end.
Proof.
  unfold parseJSONString, stringBody.
  destruct (skipSpace r) as [|c0 [|c1 rest]]; try reflexivity.
  destruct (Byte.eqb c0 dquote && Byte.eqb c1 dquote); [reflexivity|].
  destruct (negb (Byte.eqb c0 dquote)); reflexivity.
Qed.

Theorem parseJSONString_returns (r : bytes) (a : abnormal) :
  parseJSONString r <> Abort a.
Proof.
  rewrite parseJSONString_body.
  destruct (stringBody r) as [body|].
  - apply parseJSONString_loop_returns; unfold readerOk; cbn; lia.
  - destruct (skipSpace r) as [|c0 [|c1 rest]]; try discriminate.
    destruct (Byte.eqb c0 dquote && Byte.eqb c1 dquote); discriminate.
Qed.

(** The cap, in terms of the iterations of the loop. A string that
    [parseJSONString] returns has at most 4096 bytes, hence at most 4096
    characters; and the error "string too large" is returned exactly when,
    after some iterations, the buffer of the loop has more than 4096
    bytes. *)
Lemma parseJSONString_too_large_steps (r : bytes) :
  (forall v rest, parseJSONString r = Ok v rest ->
     len v <= 4096 /\ Z.of_nat (utf8_RuneCount v) <= 4096)
  /\ (parseJSONString r = Err (txt "string too large") <->
      exists body k st,
        stringBody r = Some body
        /\ afterSteps k body (strInit body) = Some st
        /\ 4096 < len (st_value st)).
Proof.
  rewrite parseJSONString_body. split.
  - intros v rest Hr.
    assert (Hv : len v <= 4096).
    { destruct (stringBody r) as [body|].
      - now apply parseJSONString_loop_ok in Hr.
      - destruct (skipSpace r) as [|c0 [|c1 tl]]; try discriminate.
        destruct (Byte.eqb c0 dquote && Byte.eqb c1 dquote); [|discriminate].
        injection Hr as <- _. unfold len. cbn [length]. lia. }
    split; [assumption|].
    pose proof (utf8_RuneCount_le v). unfold len in Hv. lia.
  - split.
    + destruct (stringBody r) as [body|].
      * intros Hl. apply parseJSONString_loop_too_large in Hl.
        destruct Hl as (k & st & Hk & Hv). now exists body, k, st.
      * destruct (skipSpace r) as [|c0 [|c1 tl]]; try discriminate.
        destruct (Byte.eqb c0 dquote && Byte.eqb c1 dquote); [discriminate|].
        intros E. exfalso. revert E. apply Err_too_large_head. other_message.
    + intros (body & k & st & -> & Hk & Hv).
      assert (Hok : readerOk (st_reader (strInit body))) by (unfold readerOk; cbn; lia).
      destruct (afterSteps_progress k body _ st Hok Hk) as (Hs & Hi & Hok').
      cbn [strInit st_reader rd_s rd_i] in Hs, Hi.
      unfold readerOk in Hok'. rewrite Hs in Hok'.
      replace (S (length body)) with (k + S (length body - k))%nat by lia.
      rewrite (parseJSONString_loop_afterSteps k _ body _ st Hk).
      cbn [parseJSONString_loop].
      now rewrite (proj2 (parseJSONString_step_too_large body st) Hv).
Qed.

(** C8, as stated, fails: this string has 2049 characters, of two bytes
    each, and is rejected as too large. *)
Lemma parseJSONString_cap_counts_bytes :
  utf8_RuneCount manyAccents = Z.to_nat 2049
  /\ parseJSONString manyAccentsString = Err (txt "string too large").
Proof. split; vm_compute; reflexivity. Qed.

(** ** Surrogate escapes, one iteration at a time *)

Lemma Reader_unread_advance (rd : Reader) (n : nat) :
  Reader_unread (Reader_advance rd n) = skipn n (Reader_unread rd).
Proof.
  unfold Reader_unread, Reader_advance. cbn [rd_s rd_i].
  rewrite Nat.add_comm. symmetry. apply skipn_skipn.
Qed.

Lemma land_shiftl_small (a b : Z) :
  0 <= b < 1024 -> Z.land (Z.shiftl a 10) b = 0.
Proof.
  intros Hb. apply Z.bits_inj'. intros n Hn.
  rewrite Z.land_spec, Z.bits_0.
  destruct (Z.ltb_spec n 10).
  - rewrite Z.shiftl_spec_low by lia. reflexivity.
  - rewrite (Z.bits_above_log2 b n); [apply andb_false_r | lia |].
    destruct (Z.eq_dec b 0) as [->|]; [cbn; lia|].
    apply Z.log2_lt_pow2; [lia|].
    apply Z.lt_le_trans with (2 ^ 10); [lia|].
    apply Z.pow_le_mono_r; lia.
Qed.

(** [utf16.DecodeRune] on a high and a low surrogate. *)
Lemma utf16_DecodeRune_pair (hi lo : Z) :
  55296 <= hi < 56320 -> 56320 <= lo < 57344 ->
  utf16_DecodeRune hi lo = pairCodePoint hi lo
  /\ 65536 <= pairCodePoint hi lo <= 1114111.
Proof.
  intros Hhi Hlo. unfold utf16_DecodeRune, pairCodePoint.
  destruct (Z.leb_spec 55296 hi); [|lia]. destruct (Z.ltb_spec hi 56320); [|lia].
  destruct (Z.leb_spec 56320 lo); [|lia]. destruct (Z.ltb_spec lo 57344); [|lia].
  cbn [andb].
  pose proof (Z.add_lor_land (Z.shiftl (hi - 55296) 10) (lo - 56320)) as Hadd.
  rewrite land_shiftl_small, Z.add_0_r in Hadd by lia.
  rewrite Hadd, Z.shiftl_mul_pow2 by lia.
  change (2 ^ 10) with 1024. lia.
Qed.

Section SurrogateSteps.
Variables (r value : bytes) (inEsc : bool) (rd : Reader).
Variables (a b c d : byte) (rn : Z).
Hypothesis Hvalue : len value <= 4096.
Hypothesis Hrn : strconv_ParseUint_16_32 [a; b; c; d] = Some rn.
Hypothesis Hsur : utf16_IsSurrogate rn = true.

Let st := mkStrState value inEsc true rd.

(** The iteration up to the second read. *)
Lemma surrogate_first_read (tail : bytes) :
  Reader_unread rd = a :: b :: c :: d :: tail ->
  parseJSONString_step r st =
    let '(got, eof, reader) := Reader_Read (Reader_advance rd 4) 6 in
    let maybeRune := filled 6 got in
    let n := length got in
    if eof || negb (Nat.eqb n 6)
       || negb (Byte.eqb (nth 0 maybeRune x00) backslash)
       || negb (Byte.eqb (nth 1 maybeRune x00) x75)
    then Continue (mkStrState (value ++ utf8_EncodeRune RuneError) inEsc false
                     (Reader_SeekBack reader n))
    else
      match strconv_ParseUint_16_32 (skipn 2 maybeRune) with
      | None => Leave (Err (txt "invalid unicode escape sequence " ++ maybeRune))
      | Some rn1 =>
        let dec := utf16_DecodeRune rn rn1 in
        if negb (Z.eqb dec RuneError)
        then Continue (mkStrState (value ++ utf8_EncodeRune dec) inEsc false reader)
        else Continue (mkStrState value inEsc false reader)
      end.
Proof.
  intros Hu.
  assert (Hread : Reader_Read rd 4 = ([a; b; c; d], false, Reader_advance rd 4))
    by (unfold Reader_Read; rewrite Hu; reflexivity).
  unfold parseJSONString_step, st. cbn [st_value st_inEsc st_inUEsc st_reader].
  destruct (Z.ltb_spec 4096 (len value)); [lia|].
  rewrite Hread. cbn [length orb Nat.eqb negb].
  change (filled 4 [a; b; c; d]) with [a; b; c; d]. rewrite Hrn, Hsur.
  reflexivity.
Qed.

(** A surrogate escape followed by fewer than six bytes, or by six bytes
    that do not start an escape: one U+FFFD is written and the reader is
    put back just after the surrogate escape. *)
Lemma surrogate_alone_step (tail : bytes) :
  Reader_unread rd = a :: b :: c :: d :: tail ->
  (length tail < 6)%nat \/ nth 0 tail x00 <> backslash \/ nth 1 tail x00 <> x75 ->
  parseJSONString_step r st
  = Continue (mkStrState (value ++ utf8_EncodeRune RuneError) inEsc false
                (Reader_advance rd 4))
  /\ Reader_unread (Reader_advance rd 4) = tail.
Proof.
  intros Hu Htail.
  assert (Hu4 : Reader_unread (Reader_advance rd 4) = tail)
    by (now rewrite Reader_unread_advance, Hu).
  split; [|assumption].
  rewrite (surrogate_first_read tail Hu).
  unfold Reader_Read. rewrite Hu4.
  destruct tail as [|t0 tail'].
  - cbn [orb length]. unfold Reader_SeekBack, Reader_advance. cbn [rd_s rd_i].
    now rewrite Nat.sub_0_r.
  - set (got := firstn 6 (t0 :: tail')).
    assert (Hback : Reader_SeekBack (Reader_advance (Reader_advance rd 4) (length got))
                      (length got) = Reader_advance rd 4).
    { unfold Reader_SeekBack, Reader_advance. cbn [rd_s rd_i]. f_equal. lia. }
    cbv zeta. cbn [orb].
    destruct (negb (Nat.eqb (length got) 6)
              || negb (Byte.eqb (nth 0 (filled 6 got) x00) backslash)
              || negb (Byte.eqb (nth 1 (filled 6 got) x00) x75)) eqn:Econd;
      [now rewrite Hback|].
    exfalso. apply orb_false_iff in Econd as [Econd E1].
    apply orb_false_iff in Econd as [E6 E0].
    apply negb_false_iff in E6, E0, E1.
    apply Nat.eqb_eq in E6. apply Byte.byte_dec_bl in E0, E1.
    assert (Hlen : (6 <= length (t0 :: tail'))%nat).
    { unfold got in E6. rewrite length_firstn in E6. lia. }
    destruct tail' as [|t1 [|t2 [|t3 [|t4 [|t5 tail'']]]]];
      cbn [length] in Hlen; try lia.
    cbn in E0, E1. cbn [nth length] in Htail.
    destruct Htail as [Hl|[Hn|Hn]]; [lia | congruence | congruence].
Qed.

Lemma surrogate_second_read (e f g h : byte) (tail : bytes) :
  Reader_unread rd = a :: b :: c :: d :: backslash :: x75 :: e :: f :: g :: h :: tail ->
  Reader_Read (Reader_advance rd 4) 6
  = ([backslash; x75; e; f; g; h], false, Reader_advance rd 10)
  /\ Reader_unread (Reader_advance rd 10) = tail.
Proof.
  intros Hu. split; [|now rewrite Reader_unread_advance, Hu].
  unfold Reader_Read. rewrite Reader_unread_advance, Hu.
  cbv [skipn firstn length]. unfold Reader_advance. cbn [rd_s rd_i].
  do 2 f_equal. lia.
Qed.

(** A high surrogate followed by the escape of a low surrogate: the code
    point of the pair is written and both escapes are consumed. *)
Lemma surrogate_pair_step (e f g h : byte) (rn1 : Z) (tail : bytes) :
  Reader_unread rd = a :: b :: c :: d :: backslash :: x75 :: e :: f :: g :: h :: tail ->
  strconv_ParseUint_16_32 [e; f; g; h] = Some rn1 ->
  55296 <= rn < 56320 -> 56320 <= rn1 < 57344 ->
  parseJSONString_step r st
  = Continue (mkStrState (value ++ utf8_EncodeRune (pairCodePoint rn rn1)) inEsc false
                (Reader_advance rd 10))
  /\ Reader_unread (Reader_advance rd 10) = tail.
Proof.
  intros Hu Hrn1 Hhi Hlo.
  destruct (utf16_DecodeRune_pair rn rn1 Hhi Hlo) as [Hdec Hrange].
  destruct (surrogate_second_read e f g h tail Hu) as [Hread Htail].
  split; [|assumption].
  rewrite (surrogate_first_read _ Hu), Hread. cbv zeta.
  change (filled 6 [backslash; x75; e; f; g; h]) with [backslash; x75; e; f; g; h].
  change (skipn 2 [backslash; x75; e; f; g; h]) with [e; f; g; h].
  rewrite Hrn1, Hdec.
  destruct (Z.eqb_spec (pairCodePoint rn rn1) RuneError) as [E|_];
    [unfold RuneError in E; lia | reflexivity].
Qed.

(** The missed case: a surrogate followed by an escape with which it makes
    no pair. Nothing is written and both escapes are consumed. *)
Lemma surrogate_mismatch_step (e f g h : byte) (rn1 : Z) (tail : bytes) :
  Reader_unread rd = a :: b :: c :: d :: backslash :: x75 :: e :: f :: g :: h :: tail ->
  strconv_ParseUint_16_32 [e; f; g; h] = Some rn1 ->
  utf16_DecodeRune rn rn1 = RuneError ->
  parseJSONString_step r st
  = Continue (mkStrState value inEsc false (Reader_advance rd 10))
  /\ Reader_unread (Reader_advance rd 10) = tail.
Proof.
  intros Hu Hrn1 Hdec.
  destruct (surrogate_second_read e f g h tail Hu) as [Hread Htail].
  split; [|assumption].
  rewrite (surrogate_first_read _ Hu), Hread. cbv zeta.
  change (filled 6 [backslash; x75; e; f; g; h]) with [backslash; x75; e; f; g; h].
  change (skipn 2 [backslash; x75; e; f; g; h]) with [e; f; g; h].
  now rewrite Hrn1, Hdec.
Qed.
End SurrogateSteps.

(** ** Surrogates *)

(** C9. A high surrogate followed by an escape that is no low surrogate
    gives no replacement character, and the second escape is not read
    again: the decoded string is empty. *)
Theorem high_surrogate_then_escape_dropped :
  parseJSONString (lit "'\uD800\u0041'") = Ok [] (lit "\uD800\u0041'").
Proof. vm_compute. reflexivity. Qed.

(** The fixtures of the test file: a pair gives U+10000, and a high
    surrogate before the closing quote gives U+FFFD. *)
Example surrogate_fixtures :
  (exists rest, parseJSONString (lit "'\uD800\uDC00'") = Ok [xf0; x90; x80; x80] rest)
  /\ (exists rest, parseJSONString (lit "'\uD800'") = Ok [xef; xbf; xbd] rest)
  /\ parseJSONString (lit "'\uD800\uDC0'")
     = Err (lit "invalid unicode escape sequence \uDC0'").
Proof.
  split; [eexists; vm_compute; reflexivity|].
  split; [eexists; vm_compute; reflexivity|].
  vm_compute. reflexivity.
Qed.

(** ** The reader always comes back

    Every call of the reader that returns a value has left at least one
    byte behind (the loops return the slice they stopped at), so the
    recursion budget [fuelFor] is never used up: the only way not to return
    is the index out of range of [parseJSONElement]. *)

Ltac len_lia :=
  repeat match goal with
         | H : context [length (skipn _ _)] |- _ => rewrite length_skipn in H
         | |- context [length (skipn _ _)] => rewrite length_skipn
         end;
  cbn [length] in *; lia.

Lemma skipSpace_length (r : bytes) : (length (skipSpace r) <= length r)%nat.
Proof.
  induction r as [|c r IH]; cbn [skipSpace]; [lia|].
  destruct (isSpace c); cbn [length]; lia.
Qed.

Lemma parseJSONString_loop_rest (fuel : nat) (r : bytes) (st : strState) (v rest : bytes) :
  parseJSONString_loop fuel r st = Ok v rest -> (length rest <= length r)%nat.
Proof.
  revert st. induction fuel as [|fuel IH]; intros st; cbn [parseJSONString_loop];
    [discriminate|].
  destruct (parseJSONString_step r st) as [st'|res] eqn:E; [apply IH|].
  intros ->. revert E. unfold parseJSONString_step, strEnd.
  step_cases; try discriminate; intros [= _ <-]; rewrite length_skipn; lia.
Qed.

Lemma parseJSONString_shorter (r v rest : bytes) :
  parseJSONString r = Ok v rest -> (length rest < length r)%nat.
Proof.
  pose proof (skipSpace_length r) as Hs. unfold parseJSONString.
  destruct (skipSpace r) as [|c0 [|c1 tl]]; try discriminate.
  destruct (Byte.eqb c0 dquote && Byte.eqb c1 dquote).
  { intros [= _ <-]. len_lia. }
  destruct (negb (Byte.eqb c0 dquote)); [discriminate|].
  intros Hl. apply parseJSONString_loop_rest in Hl. len_lia.
Qed.

Lemma digitRun_length (s : bytes) : (length (digitRun s) <= length s)%nat.
Proof.
  induction s as [|c s IH]; cbn [digitRun]; [lia|].
  destruct (isDigit c); cbn [length]; lia.
Qed.

Lemma parseJSONInt64_shorter (r : bytes) (n : Z) (rest : bytes) :
  parseJSONInt64 r = Ok n rest -> (length rest < length r)%nat.
Proof.
  pose proof (skipSpace_length r) as Hs. unfold parseJSONInt64.
  rewrite parseJSONInt64_loop_spec by (change (len []) with 0; lia).
  cbn [app Nat.add].
  pose proof (digitRun_length (skipSpace r)) as Hr.
  pose proof (digitRun_digits (skipSpace r)) as Hd.
  destruct (_ || _); [|discriminate].
  rewrite (ParseInt_digits _ Hd).
  destruct (digitRun (skipSpace r)) as [|c run] eqn:E; [discriminate|].
  destruct (Z.ltb maxInt64 (decimalValue (c :: run))); [discriminate|].
  intros [= _ <-]. rewrite length_skipn. cbn [length] in *. lia.
Qed.

Lemma parseJSONBoolean_shorter (r : bytes) (v : bool) (rest : bytes) :
  parseJSONBoolean r = Ok v rest -> (length rest < length r)%nat.
Proof.
  pose proof (skipSpace_length r) as Hs. unfold parseJSONBoolean, len.
  destruct (Z.leb_spec 4 (Z.of_nat (length (skipSpace r)))); cbn [andb].
  - destruct (bytes_Equal (firstn 4 (skipSpace r)) bytesTrue).
    { intros [= _ <-]. rewrite length_skipn. lia. }
    destruct (Z.leb_spec 5 (Z.of_nat (length (skipSpace r)))); cbn [andb];
      [|discriminate].
    destruct (bytes_Equal (firstn 5 (skipSpace r)) bytesFalse); [|discriminate].
    intros [= _ <-]. rewrite length_skipn. lia.
  - destruct (Z.leb_spec 5 (Z.of_nat (length (skipSpace r)))); [lia|].
    discriminate.
Qed.

Lemma findElementStart_length (r r1 : bytes) :
  findElementStart r = inr r1 -> (length r1 <= length r)%nat.
Proof.
  unfold findElementStart.
  destruct (findElementStart_loop r 0 0 false) as [|[idx seen]]; [discriminate|].
  destruct (negb seen); [discriminate|].
  intros [= <-]. rewrite length_skipn. lia.
Qed.

Lemma mapResult_ok {A B : Type} (f : A -> B) (x : result A) (v : B) (rest : bytes) :
  mapResult f x = Ok v rest -> exists w, x = Ok w rest /\ v = f w.
Proof. destruct x; try discriminate. intros [= <- <-]. eauto. Qed.

(** A value comes with a remainder that is shorter than the input; the
    loops return the slice they stopped at. *)
Lemma reader_progress (fuel : nat) :
  (forall r v rest, parseJSONElement_fuel fuel r = Ok v rest ->
     (length rest < length r)%nat)
  /\ (forall r o rest, parseJSONObject_fuel fuel r = Ok o rest ->
        (length rest < length r)%nat)
  /\ (forall obj r o rest, parseJSONObject_loop fuel obj r = Ok o rest ->
        (length rest <= length r)%nat)
  /\ (forall r l rest, parseJSONArray_fuel fuel r = Ok l rest ->
        (length rest < length r)%nat)
  /\ (forall els r l rest, parseJSONArray_loop fuel els r = Ok l rest ->
        (length rest <= length r)%nat).
Proof.
  induction fuel as [|fuel (IHe & IHo & IHol & IHa & IHal)];
    [repeat split; intros; discriminate|].
  repeat split.
  - intros r v rest. cbn [parseJSONElement_fuel].
    pose proof (skipSpace_length r) as Hs.
    destruct (skipSpace r) as [|c tl]; [discriminate|].
    repeat match goal with
           | |- context [if ?b then _ else _] => destruct b
           end;
      intros Hm; apply mapResult_ok in Hm as (w & Hm & _);
      [apply IHo in Hm | apply IHa in Hm | apply parseJSONString_shorter in Hm
       | apply parseJSONBoolean_shorter in Hm | apply parseJSONInt64_shorter in Hm];
      lia.
  - intros r o rest. cbn [parseJSONObject_fuel].
    pose proof (skipSpace_length r) as Hs.
    destruct (skipSpace r) as [|c0 [|c1 tl]]; try discriminate.
    destruct (negb (Byte.eqb c0 x7b)); [discriminate|].
    intros Hl. apply IHol in Hl. len_lia.
  - intros obj r o rest. cbn [parseJSONObject_loop].
    destruct r as [|c tl]; [discriminate|].
    destruct (Byte.eqb c x7d); [intros [= _ <-]; lia|].
    destruct (parseJSONString (c :: tl)) as [key rest1| |] eqn:Es; try discriminate.
    apply parseJSONString_shorter in Es.
    destruct (findElementStart rest1) as [|r1] eqn:Ef; [discriminate|].
    apply findElementStart_length in Ef.
    destruct (parseJSONElement_fuel fuel r1) as [value rest2| |] eqn:E; try discriminate.
    apply IHe in E. intros Hl. apply IHol in Hl. lia.
  - intros r l rest. cbn [parseJSONArray_fuel].
    pose proof (skipSpace_length r) as Hs.
    destruct (skipSpace r) as [|c0 [|c1 tl]]; try discriminate.
    destruct (negb (Byte.eqb c0 x5b)); [discriminate|].
    intros Hl. apply IHal in Hl. len_lia.
  - intros els r l rest. cbn [parseJSONArray_loop].
    destruct r as [|c tl]; [discriminate|].
    destruct (Byte.eqb c x5d); [intros [= _ <-]; lia|].
    destruct (parseJSONElement_fuel fuel (c :: tl)) as [element rest1| |] eqn:E;
      try discriminate.
    apply IHe in E. intros Hl. apply IHal in Hl. lia.
Qed.

Lemma mapResult_fuel {A B : Type} (f : A -> B) (x : result A) :
  x <> Abort FuelExhausted -> mapResult f x <> Abort FuelExhausted.
Proof. destruct x; cbn; congruence. Qed.

Lemma parseJSONInt64_returns (r : bytes) (a : abnormal) : parseJSONInt64 r <> Abort a.
Proof.
  unfold parseJSONInt64.
  destruct (parseJSONInt64_loop (skipSpace r) [] 0) as [|[num count]]; [discriminate|].
  destruct (strconv_ParseInt_10_64 num) as [n [e|]]; discriminate.
Qed.

Lemma parseJSONBoolean_returns (r : bytes) (a : abnormal) : parseJSONBoolean r <> Abort a.
Proof.
  unfold parseJSONBoolean.
  repeat match goal with
         | |- context [if ?b then _ else _] => destruct b
         end; discriminate.
Qed.

(** With three units of fuel for every byte, the budget is not used up. *)
Lemma reader_fuel (fuel : nat) :
  (forall r, (3 * length r + 3 <= fuel)%nat ->
     parseJSONElement_fuel fuel r <> Abort FuelExhausted)
  /\ (forall r, (3 * length r + 2 <= fuel)%nat ->
        parseJSONObject_fuel fuel r <> Abort FuelExhausted)
  /\ (forall obj r, (3 * length r + 1 <= fuel)%nat ->
        parseJSONObject_loop fuel obj r <> Abort FuelExhausted)
  /\ (forall r, (3 * length r + 2 <= fuel)%nat ->
        parseJSONArray_fuel fuel r <> Abort FuelExhausted)
  /\ (forall els r, (3 * length r + 4 <= fuel)%nat ->
        parseJSONArray_loop fuel els r <> Abort FuelExhausted).
Proof.
  induction fuel as [|fuel (IHe & IHo & IHol & IHa & IHal)];
    [repeat split; intros; lia|].
  destruct (reader_progress fuel) as (Pe & _ & _ & _ & _).
  repeat split.
  - intros r Hf. cbn [parseJSONElement_fuel].
    pose proof (skipSpace_length r) as Hs.
    destruct (skipSpace r) as [|c tl]; [discriminate|].
    repeat match goal with
           | |- context [if ?b then _ else _] => destruct b
           end;
      apply mapResult_fuel;
      [apply IHo; lia | apply IHa; lia | apply parseJSONString_returns
       | apply parseJSONBoolean_returns | apply parseJSONInt64_returns].
  - intros r Hf. cbn [parseJSONObject_fuel].
    pose proof (skipSpace_length r) as Hs.
    destruct (skipSpace r) as [|c0 [|c1 tl]]; try discriminate.
    destruct (negb (Byte.eqb c0 x7b)); [discriminate|].
    apply IHol. len_lia.
  - intros obj r Hf. cbn [parseJSONObject_loop].
    destruct r as [|c tl]; [discriminate|].
    destruct (Byte.eqb c x7d); [discriminate|].
    destruct (parseJSONString (c :: tl)) as [key rest1| |] eqn:Es;
      [|discriminate | now apply parseJSONString_returns in Es].
    apply parseJSONString_shorter in Es.
    destruct (findElementStart rest1) as [|r1] eqn:Ef; [discriminate|].
    apply findElementStart_length in Ef.
    destruct (parseJSONElement_fuel fuel r1) as [value rest2| |a] eqn:E;
      [|discriminate|].
    + apply Pe in E. apply IHol. cbn [length] in *. lia.
    + intros [= ->]. revert E. apply IHe. cbn [length] in *. lia.
  - intros r Hf. cbn [parseJSONArray_fuel].
    pose proof (skipSpace_length r) as Hs.
    destruct (skipSpace r) as [|c0 [|c1 tl]]; try discriminate.
    destruct (negb (Byte.eqb c0 x5b)); [discriminate|].
    apply IHal. len_lia.
  - intros els r Hf. cbn [parseJSONArray_loop].
    destruct r as [|c tl]; [discriminate|].
    destruct (Byte.eqb c x5d); [discriminate|].
    destruct (parseJSONElement_fuel fuel (c :: tl)) as [element rest1| |a] eqn:E;
      [|discriminate|].
    + apply Pe in E. apply IHal. cbn [length] in *. lia.
    + intros [= ->]. revert E. apply IHe. cbn [length] in *. lia.
Qed.

(** The reader returns a value with a shorter remainder, or an error, or it
    indexes out of range; it never runs out of fuel. *)
Theorem reader_returns (r : bytes) :
  parseJSONElement r <> Abort FuelExhausted
  /\ parseJSONObject r <> Abort FuelExhausted
  /\ parseJSONArray r <> Abort FuelExhausted
  /\ (forall (a : abnormal), parseJSONString r <> Abort a)
  /\ (forall (a : abnormal), parseJSONInt64 r <> Abort a)
  /\ (forall (a : abnormal), parseJSONBoolean r <> Abort a).
Proof.
  unfold parseJSONElement, parseJSONObject, parseJSONArray, fuelFor.
  destruct (reader_fuel (3 * length r + 3)) as (He & Ho & _ & Ha & _).
  split; [apply He; lia|]. split; [apply Ho; lia|]. split; [apply Ha; lia|].
  split; [intros a; apply parseJSONString_returns|].
  split; [intros a; apply parseJSONInt64_returns | intros a; apply parseJSONBoolean_returns].
Qed.

(** ** Reading past the end of the buffer *)

Lemma parseJSONElement_blank (r : bytes) :
  skipSpace r = [] -> parseJSONElement r = Abort IndexOutOfRange.
Proof.
  intros H. unfold parseJSONElement, fuelFor.
  replace (3 * length r + 3)%nat with (S (3 * length r + 2)) by lia.
  cbn [parseJSONElement_fuel]. now rewrite H.
Qed.

(** C2. [parseJSONElement] indexes [r[0]] after skipping white space without
    checking that a byte is left: on an empty or all-blank buffer, and
    reached from [parseJSONArray] on "[ " or from [parseJSONObject] after a
    colon followed by blanks, the call does not return an error but reads
    past the end of the buffer. *)
Theorem parseJSONElement_reads_past_end :
  parseJSONElement [] = Abort IndexOutOfRange
  /\ parseJSONElement (txt "   ") = Abort IndexOutOfRange
  /\ parseJSONArray (txt "[ ") = Abort IndexOutOfRange
  /\ parseJSONObject (lit "{'a': ") = Abort IndexOutOfRange.
Proof. repeat split; vm_compute; reflexivity. Qed.

(** ** The request serialiser *)

Lemma byte_eqb_false (c d : byte) : c <> d -> Byte.eqb c d = false.
Proof.
  intros N. destruct (Byte.eqb c d) eqn:E; [|reflexivity].
  now apply Byte.byte_dec_bl in E.
Qed.

Lemma nonEmpty_true (s : bytes) : s <> [] -> nonEmpty s = true.
Proof. destruct s; [congruence | reflexivity]. Qed.

Lemma marshalJSON_userName_verbatim (u : userdbCall) :
  cp_userName (parameters u) <> [] ->
  userdbCall_marshalJSON u
  = beforeUserName u ++ cp_userName (parameters u) ++ dquote :: afterUserName u.
Proof.
  intros Hne.
  unfold userdbCall_marshalJSON, callParameters_marshalJSON, beforeUserName,
    afterUserName, moreText, uidText, gidText.
  rewrite (nonEmpty_true _ Hne).
  change (lit "'") with [dquote].
  repeat rewrite <- app_assoc. reflexivity.
Qed.

Lemma marshalJSON_groupName_verbatim (u : userdbCall) :
  cp_groupName (parameters u) <> [] ->
  userdbCall_marshalJSON u
  = beforeGroupName u ++ cp_groupName (parameters u) ++ dquote :: afterGroupName u.
Proof.
  intros Hne.
  unfold userdbCall_marshalJSON, callParameters_marshalJSON, beforeGroupName,
    afterGroupName, moreText, uidText, gidText.
  rewrite (nonEmpty_true _ Hne).
  change (lit "'") with [dquote].
  repeat rewrite <- app_assoc. reflexivity.
Qed.

Lemma marshalJSON_collision :
  quotedNameCall <> twoNamesCall
  /\ userdbCall_marshalJSON quotedNameCall = userdbCall_marshalJSON twoNamesCall.
Proof. split; [discriminate | vm_compute; reflexivity]. Qed.

(** ** The dispatcher *)

Lemma bytes_Equal_true (a b : bytes) : a = b -> bytes_Equal a b = true.
Proof. intros ->. unfold bytes_Equal. now apply bool_decide_eq_true. Qed.

Lemma bytes_Equal_false (a b : bytes) : a <> b -> bytes_Equal a b = false.
Proof. intros N. unfold bytes_Equal. now apply bool_decide_eq_false. Qed.

Lemma marshalJSON_nonEmpty (call : userdbCall) :
  nonEmpty (userdbCall_marshalJSON call) = true.
Proof. reflexivity. Qed.

(** The loop goes past every message that is [passedOver]. *)
Lemma parseMessages_passedOver (pre rest : list bytes) (acc : list jsonObject) :
  Forall passedOver pre ->
  exists acc', parseMessages (pre ++ rest) acc = parseMessages rest acc'.
Proof.
  intros H. revert acc. induction H as [|m pre Hm _ IH]; intros acc.
  - now exists acc.
  - destruct Hm as (resp & Hu & [Hnf | [He Hc]]); cbn [app parseMessages]; rewrite Hu.
    + rewrite Hnf. rewrite bytes_Equal_false by discriminate.
      rewrite bytes_Equal_true by reflexivity. apply IH.
    + rewrite He, Hc. rewrite bytes_Equal_true by reflexivity. cbn [negb]. apply IH.
Qed.

(** What [query] does once the response is read. *)
Lemma query_received {U : Type} `{userdbParamsUnmarshaler U}
    (net : network) (cl : userdbClient) (call : userdbCall) (u : U) (resp : bytes) :
  received (connectionOf net cl call) call resp -> resp <> [] ->
  query net cl call u =
    match parseMessages (splitNul (removelast resp)) [] with
    | Halt a => Halt a
    | Ret (Returned handled err) => Ret (u, handled, err)
    | Ret (Gathered replyParams) =>
      let '(u, err) := unmarshalParameters u replyParams in Ret (u, true, err)
    end.
Proof.
  intros (Hs & Hc & Hw & Hr) Hne. unfold query, roundTrip.
  unfold connectionOf in *. rewrite Hs, Hc, marshalJSON_nonEmpty. cbn [negb].
  rewrite Hw, Hr, (nonEmpty_true _ Hne). reflexivity.
Qed.

Section Dispatcher.
Context {U : Type} `{userdbParamsUnmarshaler U}.
Variables (net : network) (cl : userdbClient) (call : userdbCall) (u : U).
Let conn := connectionOf net cl call.

Lemma query_socket_fails (e : error) :
  socketErr conn = Some e -> query net cl call u = Ret (u, false, Some e).
Proof.
  intros Hs. unfold query, roundTrip. fold (connectionOf net cl call).
  fold conn. now rewrite Hs.
Qed.

Lemma query_connect_fails (e : error) (notExist : bool) :
  socketErr conn = None -> connectErr conn = Some (e, notExist) ->
  query net cl call u = Ret (u, negb notExist, Some e).
Proof.
  intros Hs Hc. unfold query, roundTrip. fold (connectionOf net cl call).
  fold conn. rewrite Hs, Hc. now destruct notExist.
Qed.

Lemma query_write_fails (e : error) :
  socketErr conn = None -> connectErr conn = None ->
  writeLoop (writes conn) (length (terminated (userdbCall_marshalJSON call))) 0 = Some e ->
  query net cl call u = Ret (u, true, Some e).
Proof.
  intros Hs Hc Hw. unfold query, roundTrip. fold (connectionOf net cl call).
  fold conn. rewrite Hs, Hc, marshalJSON_nonEmpty. cbn [negb]. now rewrite Hw.
Qed.

Lemma query_read_fails (e : error) :
  socketErr conn = None -> connectErr conn = None ->
  writeLoop (writes conn) (length (terminated (userdbCall_marshalJSON call))) 0 = None ->
  readLoop (reads conn) [] = inl e ->
  query net cl call u = Ret (u, true, Some e).
Proof.
  intros Hs Hc Hw Hr. unfold query, roundTrip. fold (connectionOf net cl call).
  fold conn. rewrite Hs, Hc, marshalJSON_nonEmpty. cbn [negb]. now rewrite Hw, Hr.
Qed.

(** The first message that is not passed over decides the call. *)
Lemma query_decided (resp : bytes) (pre post : list bytes) (m : bytes) :
  received conn call resp -> resp <> [] ->
  splitNul (removelast resp) = pre ++ m :: post ->
  Forall passedOver pre ->
  (forall reply,
      userdbReply_unmarshal userdbReply_zero m = Ret (reply, None) ->
      reply_err reply = errServiceNotAvailable ->
      query net cl call u = Ret (u, false, None))
  /\ (forall reply e,
      userdbReply_unmarshal userdbReply_zero m = Ret (reply, Some e) ->
      query net cl call u = Ret (u, true, Some e))
  /\ (forall reply,
      userdbReply_unmarshal userdbReply_zero m = Ret (reply, None) ->
      reply_err reply <> [] ->
      reply_err reply <> errNoRecordFound ->
      reply_err reply <> errServiceNotAvailable ->
      query net cl call u = Ret (u, true, Some (reply_err reply))).
Proof.
  intros Hrecv Hne Hsplit Hpre.
  rewrite (query_received net cl call u resp Hrecv Hne), Hsplit.
  destruct (parseMessages_passedOver pre (m :: post) [] Hpre) as [acc' ->].
  cbn [parseMessages]. repeat split.
  - intros reply Hu He. rewrite Hu, He.
    rewrite bytes_Equal_false by discriminate.
    rewrite bytes_Equal_false by discriminate.
    now rewrite bytes_Equal_true.
  - intros reply e Hu. now rewrite Hu.
  - intros reply Hu N1 N2 N3. rewrite Hu.
    now rewrite !bytes_Equal_false.
Qed.
End Dispatcher.

(** X22. The outcomes of [query], path by path. When the loop over the
    messages reaches a reply that is decoded and carries the
    ServiceNotAvailable code (every message before it was decoded and
    carried NoRecordFound, or no error with continues set), the call returns
    handled=false and a nil error. A Connect failure for an existing path, a
    deadline or an I/O error in the write loop or in the read loop, a parse
    error of a message reached, and any other error code of a message
    reached give handled=true with that error. A Socket failure and a
    Connect failure for a missing path give handled=false with the error.
    [queryGroupDb] and [queryUserDb] pass handled=false on. *)
Theorem query_outcomes {U : Type} `{userdbParamsUnmarshaler U}
    (net : network) (cl : userdbClient) (call : userdbCall) (u : U) :
    let conn := connectionOf net cl call in
    (forall resp pre m post,
        received conn call resp -> resp <> [] ->
        splitNul (removelast resp) = pre ++ m :: post ->
        Forall passedOver pre ->
        (forall reply,
            userdbReply_unmarshal userdbReply_zero m = Ret (reply, None) ->
            reply_err reply = errServiceNotAvailable ->
            query net cl call u = Ret (u, false, None))
        /\ (forall reply e,
            userdbReply_unmarshal userdbReply_zero m = Ret (reply, Some e) ->
            query net cl call u = Ret (u, true, Some e))
        /\ (forall reply,
            userdbReply_unmarshal userdbReply_zero m = Ret (reply, None) ->
            reply_err reply <> [] ->
            reply_err reply <> errNoRecordFound ->
            reply_err reply <> errServiceNotAvailable ->
            query net cl call u = Ret (u, true, Some (reply_err reply))))
    /\ (forall e, socketErr conn = None -> connectErr conn = Some (e, false) ->
        query net cl call u = Ret (u, true, Some e))
    /\ (forall e, socketErr conn = None -> connectErr conn = None ->
        writeLoop (writes conn) (length (terminated (userdbCall_marshalJSON call))) 0
        = Some e ->
        query net cl call u = Ret (u, true, Some e))
    /\ (forall e, socketErr conn = None -> connectErr conn = None ->
        writeLoop (writes conn) (length (terminated (userdbCall_marshalJSON call))) 0
        = None ->
        readLoop (reads conn) [] = inl e ->
        query net cl call u = Ret (u, true, Some e))
    /\ (forall e, socketErr conn = Some e ->
        query net cl call u = Ret (u, false, Some e))
    /\ (forall e, socketErr conn = None -> connectErr conn = Some (e, true) ->
        query net cl call u = Ret (u, false, Some e))
    /\ (forall gid groupname g err,
        query net cl (mkUserdbCall mGetGroupRecord
                        (mkCallParameters None [] gid groupname) false)
          groupRecord_zero = Ret (g, false, err) ->
        exists err', queryGroupDb net cl gid groupname = Ret (None, false, err'))
    /\ (forall uid username r err,
        query net cl (mkUserdbCall mGetUserRecord
                        (mkCallParameters uid username None []) false)
          userRecord_zero = Ret (r, false, err) ->
        exists err', queryUserDb net cl uid username = Ret (None, false, err')).
Proof.
  intros conn.
  split; [intros resp pre m post; apply query_decided|].
  split; [intros e Hs Hc; apply (query_connect_fails net cl call u e false Hs Hc)|].
  split; [intros e; apply query_write_fails|].
  split; [intros e; apply query_read_fails|].
  split; [intros e; apply query_socket_fails|].
  split; [intros e Hs Hc; apply (query_connect_fails net cl call u e true Hs Hc)|].
  split.
  - intros gid groupname g err Hq. unfold queryGroupDb. rewrite Hq. cbn. eauto.
  - intros uid username r err Hq. unfold queryUserDb. rewrite Hq. cbn. eauto.
Qed.

(** A stream of two messages: NoRecordFound, then ServiceNotAvailable. *)
Lemma query_outcomes_witness :
  query (replyWith (noRecordMessage ++ [x00] ++ notAvailableMessage ++ [x00]))
    testClient (groupCall (txt "stdlibcontrib")) groupRecord_zero
  = Ret (groupRecord_zero, false, None).
Proof.
  refine (proj1 (proj1 (query_outcomes (U := groupRecord) _ testClient
                          (groupCall (txt "stdlibcontrib")) groupRecord_zero)
                   (noRecordMessage ++ [x00] ++ notAvailableMessage ++ [x00])
                   [noRecordMessage] notAvailableMessage [] _ _ _ _)
            (mkUserdbReply errServiceNotAvailable false ∅) _ _).
  - repeat split.
  - discriminate.
  - vm_compute. reflexivity.
  - constructor; [|constructor].
    exists (mkUserdbReply errNoRecordFound false ∅). split.
    + vm_compute. reflexivity.
    + left. reflexivity.
  - vm_compute. reflexivity.
  - reflexivity.
Defined.

(** C3. A reply that carries the ServiceNotAvailable code does not end a
    lookup as handled=false without an error value. As a service writes it,
    the reply is not decoded (the remainder that [parseJSONString] returns
    after the key is not the text after the key), and the lookup is handled
    and fails with the reader's error. Laid out so that the reader decodes
    it, the reply makes [query] return handled=false and a nil error, but
    [queryGroupDb] and [queryUserDb] format that nil error into an error
    value; the second call of [lookupGroupIds] returns the nil error as it
    is. *)
Theorem lookupGroup_service_not_available :
  lookupGroup (replyWith (notAvailableWire ++ [x00])) testClient (txt "stdlibcontrib")
  = Ret (None, true,
         Some (txt "error querying systemd-userdb group record: expected colon, got invalid character: a"))
  /\ query (replyWith (notAvailableMessage ++ [x00])) testClient
       (groupCall (txt "stdlibcontrib")) groupRecord_zero
     = Ret (groupRecord_zero, false, None)
  /\ lookupGroup (replyWith (notAvailableMessage ++ [x00])) testClient (txt "stdlibcontrib")
     = Ret (None, false,
            Some (txt "error querying systemd-userdb group record: %!s(<nil>)"))
  /\ lookupUser (replyWith (notAvailableMessage ++ [x00])) testClient (txt "stdlibcontrib")
     = Ret (None, false,
            Some (txt "error querying systemd-userdb user record: %!s(<nil>)"))
  /\ lookupGroupIds someOrder (serveUserdb primaryGroupUnavailable) testClient
       (txt "stdlibcontrib")
     = Ret (None, false, None).
Proof. repeat split; vm_compute; reflexivity. Qed.

(** The machine identity of the client plays no part in a query: the
    operations start from a fresh record, whose machine id and hostname are
    empty. *)
Lemma lookups_ignore_machine_identity (net : network) (cl cl' : userdbClient) :
  serviceSocket cl = serviceSocket cl' ->
  (forall gid groupname, queryGroupDb net cl gid groupname
                         = queryGroupDb net cl' gid groupname)
  /\ (forall uid username, queryUserDb net cl uid username
                           = queryUserDb net cl' uid username).
Proof.
  intros Hs. split; intros; unfold queryGroupDb, queryUserDb, query, roundTrip;
    now rewrite Hs.
Qed.

(** ** The group fixture *)

(** C1. The reply of [TestUserdbLookupGroup] is not decoded: the remainder
    that [parseJSONString] returns after the first key is not the text that
    follows the key, so [parseJSONObject] fails on the fixture, and
    [lookupGroup] returns handled with an error and no group. *)
Theorem lookupGroup_fixture_not_decoded :
  terminated (userdbCall_marshalJSON
                (mkUserdbCall mGetGroupRecord
                   (mkCallParameters None [] None (txt "stdlibcontrib")) false))
    = groupRequest ++ [x00]
  /\ parseJSONObject groupFixture
     = Err (txt "expected colon, got invalid character: t")
  /\ lookupGroup (serveUserdb [(groupRequest, groupFixture)]) testClient
       (txt "stdlibcontrib")
     = Ret (None, true,
            Some (txt "error querying systemd-userdb group record: expected colon, got invalid character: t")).
Proof. repeat split; vm_compute; reflexivity. Qed.

(** ** What [perMachineMatches] does match *)

Lemma stringIn_spec (x : bytes) (l : list bytes) : stringIn x l = true <-> x ∈ l.
Proof.
  unfold stringIn. rewrite existsb_exists. split.
  - intros (y & Hy & He). apply bool_decide_eq_true in He. subst y.
    now apply list_elem_of_In.
  - intros Hx. exists x. split; [now apply list_elem_of_In|].
    now apply bool_decide_eq_true.
Qed.

(** The four tests of [matchesHost], each made only when the ones before it
    failed, amount to their disjunction. *)
Lemma matchesHost_orb (p : perMachineRecord) (per : jsonObject) :
  matchesHost p per =
    match jsonObjectGet (list bytes) per (txt "matchMachineId") with
    | Some mids => stringIn (machineId p) mids
    | None => false
    end
    || match jsonObjectGet bytes per (txt "marchMachineId") with
       | Some mid => bytes_Equal mid (machineId p)
       | None => false
       end
    || match jsonObjectGet (list bytes) per (txt "matchHostname") with
       | Some mhs => stringIn (hostname p) mhs
       | None => false
       end
    || match jsonObjectGet bytes per (txt "matchHostname") with
       | Some mh => bytes_Equal mh (hostname p)
       | None => false
       end.
Proof.
  unfold matchesHost.
  repeat match goal with
         | |- context [jsonObjectGet ?T per ?k] => destruct (jsonObjectGet T per k)
         end;
    repeat match goal with
           | |- context [stringIn ?x ?l] => destruct (stringIn x l)
           | |- context [bytes_Equal ?x ?y] => destruct (bytes_Equal x y)
           end;
    reflexivity.
Qed.

(** An entry matches exactly when its matchMachineId array holds the machine
    id, or its "marchMachineId" string is the machine id, or its
    matchHostname array holds the hostname, or its matchHostname string is
    the hostname. A single-string matchMachineId is not looked at. *)
Lemma matchesHost_spec (p : perMachineRecord) (per : jsonObject) :
  matchesHost p per = true <->
  (exists mids, jsonObjectGet (list bytes) per (txt "matchMachineId") = Some mids
                /\ machineId p ∈ mids)
  \/ jsonObjectGet bytes per (txt "marchMachineId") = Some (machineId p)
  \/ (exists mhs, jsonObjectGet (list bytes) per (txt "matchHostname") = Some mhs
                  /\ hostname p ∈ mhs)
  \/ jsonObjectGet bytes per (txt "matchHostname") = Some (hostname p).
Proof.
  rewrite matchesHost_orb, !orb_true_iff.
  assert (Hs : forall (o : option (list bytes)) (x : bytes),
             match o with Some l => stringIn x l | None => false end = true
             <-> exists l, o = Some l /\ x ∈ l).
  { intros [l|] x; [rewrite stringIn_spec|]; split.
    - intros Hx. now exists l.
    - now intros (? & [= <-] & ?).
    - discriminate.
    - now intros (? & [=] & _). }
  assert (He : forall (o : option bytes) (x : bytes),
             match o with Some y => bytes_Equal y x | None => false end = true
             <-> o = Some x).
  { intros [y|] x; unfold bytes_Equal; [rewrite bool_decide_eq_true|]; split;
      congruence. }
  rewrite !Hs, !He. tauto.
Qed.

(** A single-string matchMachineId has no effect on the match, whatever it
    holds. *)
Lemma single_matchMachineId_ignored (p : perMachineRecord) (per : jsonObject)
    (mid : bytes) :
  per !! txt "matchMachineId" = Some (AString mid) ->
  matchesHost p per = matchesHost p (delete (txt "matchMachineId") per).
Proof.
  intros Hmid. rewrite !matchesHost_orb. unfold jsonObjectGet.
  rewrite Hmid, lookup_delete_eq.
  rewrite !lookup_delete_ne by (intros E; vm_compute in E; discriminate E).
  reflexivity.
Qed.

(** An array that comes from the reader is a [[]any]: the assertion to
    [[]jsonObject] fails and no entry matches. *)
Lemma perMachineMatches_of_parsed_array (p : perMachineRecord) (obj : jsonObject)
    (l : list any) :
  obj !! txt "perMachine" = Some (ASlice l) -> perMachineMatches p obj = [].
Proof. intros H. unfold perMachineMatches, jsonObjectGet. now rewrite H. Qed.

Lemma perMachineMatches_readerObject (p : perMachineRecord) (obj : jsonObject) :
  readerObject obj -> perMachineMatches p obj = [].
Proof.
  intros Hobj. unfold perMachineMatches, jsonObjectGet.
  destruct (obj !! txt "perMachine") as [a|] eqn:E; [|reflexivity].
  apply Hobj in E. now destruct E.
Qed.

(** Every value that the reader returns is a [readerValue]. *)
Lemma reader_values (fuel : nat) :
  (forall r v rest, parseJSONElement_fuel fuel r = Ok v rest -> readerValue v)
  /\ (forall r o rest, parseJSONObject_fuel fuel r = Ok o rest -> readerObject o)
  /\ (forall obj r o rest, readerObject obj ->
        parseJSONObject_loop fuel obj r = Ok o rest -> readerObject o)
  /\ (forall r l rest, parseJSONArray_fuel fuel r = Ok l rest -> Forall readerValue l)
  /\ (forall els r l rest, Forall readerValue els ->
        parseJSONArray_loop fuel els r = Ok l rest -> Forall readerValue l).
Proof.
  induction fuel as [|fuel (IHe & IHo & IHol & IHa & IHal)];
    [repeat split; intros; discriminate|].
  repeat split.
  - intros r v rest. cbn [parseJSONElement_fuel].
    destruct (skipSpace r) as [|c tl]; [discriminate|].
    destruct (Byte.eqb c x7b).
    { destruct (parseJSONObject_fuel fuel (c :: tl)) as [o ?| |] eqn:E; try discriminate.
      intros [= <- _]. constructor. now apply IHo in E. }
    destruct (Byte.eqb c x5b).
    { destruct (parseJSONArray_fuel fuel (c :: tl)) as [l ?| |] eqn:E; try discriminate.
      intros [= <- _]. constructor. now apply IHa in E. }
    destruct (Byte.eqb c dquote).
    { destruct (parseJSONString (c :: tl)); try discriminate.
      intros [= <- _]. constructor. }
    destruct (Byte.eqb c x74 || Byte.eqb c x66).
    { destruct (parseJSONBoolean (c :: tl)); try discriminate.
      intros [= <- _]. constructor. }
    destruct (parseJSONInt64 (c :: tl)); try discriminate.
    intros [= <- _]. constructor.
  - intros r o rest. cbn [parseJSONObject_fuel].
    destruct (skipSpace r) as [|c0 [|c1 tl]]; try discriminate.
    destruct (negb (Byte.eqb c0 x7b)); [discriminate|].
    apply IHol. apply map_Forall_empty.
  - intros obj r o rest Hobj. cbn [parseJSONObject_loop].
    destruct r as [|c tl]; [discriminate|].
    destruct (Byte.eqb c x7d); [now intros [= <- _]|].
    destruct (parseJSONString (c :: tl)) as [key rest1| |]; try discriminate.
    destruct (findElementStart rest1) as [|r1]; [discriminate|].
    destruct (parseJSONElement_fuel fuel r1) as [value rest2| |] eqn:E; try discriminate.
    apply IHol. apply map_Forall_insert_2; [now apply IHe in E | assumption].
  - intros r l rest. cbn [parseJSONArray_fuel].
    destruct (skipSpace r) as [|c0 [|c1 tl]]; try discriminate.
    destruct (negb (Byte.eqb c0 x5b)); [discriminate|].
    apply IHal. constructor.
  - intros els r l rest Hels. cbn [parseJSONArray_loop].
    destruct r as [|c tl]; [discriminate|].
    destruct (Byte.eqb c x5d); [now intros [= <- _]|].
    destruct (parseJSONElement_fuel fuel (c :: tl)) as [element rest1| |] eqn:E;
      try discriminate.
    apply IHal. apply Forall_app_2; [assumption|].
    constructor; [now apply IHe in E | constructor].
Qed.

(** No perMachine entry of a record decoded from a reply ever matches:
    whatever the machine, [perMachineMatches] is empty on every object
    found in a reply that [parseJSONObject] accepted. *)
Lemma perMachineMatches_of_reply (p : perMachineRecord) (data : bytes)
    (reply : jsonObject) (rest : bytes) (params record : jsonObject) :
  parseJSONObject data = Ok reply rest ->
  jsonObjectGet jsonObject reply (txt "parameters") = Some params ->
  jsonObjectGet jsonObject params (txt "record") = Some record ->
  perMachineMatches p record = [].
Proof.
  intros Hp Hparams Hrecord. apply perMachineMatches_readerObject.
  apply (proj1 (proj2 (reader_values _))) in Hp.
  unfold jsonObjectGet in Hparams, Hrecord.
  destruct (reply !! txt "parameters") as [a|] eqn:E1; [|discriminate].
  apply Hp in E1. destruct a; try discriminate. injection Hparams as ->.
  inversion E1 as [? Hps| | | |]; subst.
  destruct (params !! txt "record") as [a|] eqn:E2; [|discriminate].
  apply Hps in E2. destruct a; try discriminate. injection Hrecord as ->.
  now inversion E2.
Qed.

(** ** The single-string form of matchMachineId *)

(** C4. An entry of perMachine that names the caller's machine id by the
    single-string form of matchMachineId does not match: the source looks
    the single string up under another key. The entry's gid is not
    applied. *)
Theorem legacy_matchMachineId_not_matched :
  jsonObjectGet bytes legacyEntry (txt "matchMachineId") = Some (machineId thisMachine)
  /\ matchesHost thisMachine legacyEntry = false
  /\ perMachineMatches thisMachine legacyRecord = []
  /\ (let '(g, err) := groupRecord_unmarshalParameters
                         (mkGroupRecord thisMachine [] 0) legacyParams in
      err = None /\ gr_gid g = 1).
Proof. repeat split; vm_compute; reflexivity. Qed.

(** ** Field resolution *)

Section Resolution.
Context {T : Type} `{GoType T}.
Variable key : bytes.

(** The loop over the matches leaves the value of the last match that
    defines the field. *)
Lemma fold_assignIf (matches : list jsonObject) (init : T) :
  fold_left (fun acc m => assignIf m key acc) matches init =
    match last (omap (fun m => jsonObjectGet T m key) matches) with
    | Some v => v
    | None => init
    end.
Proof.
  induction matches as [|m ms IH] using rev_ind; [reflexivity|].
  rewrite fold_left_app, omap_app. cbn [fold_left].
  change (omap (fun m => jsonObjectGet T m key) [m])
    with (match jsonObjectGet T m key with Some v => [v] | None => [] end).
  unfold assignIf at 1.
  destruct (jsonObjectGet T m key) as [v|].
  - now rewrite last_snoc.
  - now rewrite app_nil_r.
Qed.

(** The three assignments in the order of the source give the value that
    the specification describes. *)
Lemma layers_resolveField (init : T) (record : jsonObject)
    (matches : list jsonObject) (bound : option jsonObject) :
  (let x := assignIf record key init in
   let x := fold_left (fun acc m => assignIf m key acc) matches x in
   match bound with
   | Some rec => assignIf rec key x
   | None => x
   end) = resolveField T key init record matches bound.
Proof.
  cbv zeta. rewrite fold_assignIf. unfold resolveField, assignIf.
  destruct bound as [rec|]; cbn [mbind option_bind]; [|reflexivity].
  destruct (jsonObjectGet T rec key); reflexivity.
Qed.
End Resolution.

Lemma group_fold_gid (matches : list jsonObject) (g : groupRecord) :
  fold_left (fun g m => groupRecord_setGid g (assignIf m (txt "gid") (gr_gid g))) matches g
  = groupRecord_setGid g
      (fold_left (fun acc m => assignIf m (txt "gid") acc) matches (gr_gid g)).
Proof.
  revert g. induction matches as [|m ms IH]; intros g; cbn [fold_left].
  - now destruct g.
  - rewrite IH. reflexivity.
Qed.

Lemma user_fold_fields (matches : list jsonObject) (u : userRecord) :
  fold_left userRecord_assign matches u
  = mkUserRecord (ur_perMachineRecord u) (ur_userName u)
      (fold_left (fun acc m => assignIf m (txt "realName") acc) matches (ur_realName u))
      (fold_left (fun acc m => assignIf m (txt "uid") acc) matches (ur_uid u))
      (fold_left (fun acc m => assignIf m (txt "gid") acc) matches (ur_gid u))
      (fold_left (fun acc m => assignIf m (txt "homeDirectory") acc) matches
         (ur_homeDirectory u)).
Proof.
  revert u. induction matches as [|m ms IH]; intros u; cbn [fold_left].
  - now destruct u.
  - rewrite IH. reflexivity.
Qed.

Lemma groupRecord_resolution (g g' : groupRecord) (params : list jsonObject) :
  groupRecord_unmarshalParameters g params = (g', None) ->
  exists p0 record groupName,
    params = [p0]
    /\ jsonObjectGet jsonObject p0 (txt "record") = Some record
    /\ jsonObjectGet bytes record (txt "groupName") = Some groupName
    /\ g' = mkGroupRecord (gr_perMachineRecord g) groupName
              (resolveField Z (txt "gid") (gr_gid g) record
                 (perMachineMatches (gr_perMachineRecord g) record)
                 (machineBoundRecord (machineId (gr_perMachineRecord g)) record)).
Proof.
  unfold groupRecord_unmarshalParameters. intros Hrun.
  destruct params as [|p0 [|? ?]]; try discriminate.
  destruct (jsonObjectGet jsonObject p0 (txt "record")) as [record|] eqn:Er;
    [|discriminate].
  destruct (jsonObjectGet bytes record (txt "groupName")) as [groupName|] eqn:En;
    [|discriminate].
  exists p0, record, groupName. repeat split; try assumption.
  cbn [gr_perMachineRecord gr_gid groupRecord_setGid] in Hrun.
  rewrite group_fold_gid in Hrun.
  cbn [gr_perMachineRecord gr_gid gr_groupName groupRecord_setGid] in Hrun.
  rewrite <- (layers_resolveField (T := Z)).
  cbv zeta.
  destruct (machineBoundRecord (machineId (gr_perMachineRecord g)) record);
    cbn [gr_perMachineRecord gr_gid gr_groupName groupRecord_setGid] in Hrun;
    now inversion Hrun.
Qed.

Lemma userRecord_resolution (u u' : userRecord) (params : list jsonObject) :
  userRecord_unmarshalParameters u params = (u', None) ->
  exists p0 record userName,
    params = [p0]
    /\ jsonObjectGet jsonObject p0 (txt "record") = Some record
    /\ jsonObjectGet bytes record (txt "userName") = Some userName
    /\ let matches := perMachineMatches (ur_perMachineRecord u) record in
       let bound := machineBoundRecord (machineId (ur_perMachineRecord u)) record in
       u' = mkUserRecord (ur_perMachineRecord u) userName
              (resolveField bytes (txt "realName") (ur_realName u) record matches bound)
              (resolveField Z (txt "uid") (ur_uid u) record matches bound)
              (resolveField Z (txt "gid") (ur_gid u) record matches bound)
              (resolveField bytes (txt "homeDirectory") (ur_homeDirectory u)
                 record matches bound).
Proof.
  unfold userRecord_unmarshalParameters. intros Hrun.
  destruct params as [|p0 [|? ?]]; try discriminate.
  destruct (jsonObjectGet jsonObject p0 (txt "record")) as [record|] eqn:Er;
    [|discriminate].
  destruct (jsonObjectGet bytes record (txt "userName")) as [userName|] eqn:En;
    [|discriminate].
  exists p0, record, userName. repeat split; try assumption.
  cbv zeta.
  rewrite user_fold_fields in Hrun.
  unfold userRecord_assign in Hrun.
  cbn [ur_perMachineRecord ur_userName ur_realName ur_uid ur_gid ur_homeDirectory]
    in Hrun.
  rewrite <- !layers_resolveField. cbv zeta.
  destruct (machineBoundRecord (machineId (ur_perMachineRecord u)) record);
    cbn [ur_perMachineRecord ur_userName ur_realName ur_uid ur_gid ur_homeDirectory]
      in Hrun;
    now inversion Hrun.
Qed.

(** Field resolution, relative to the identity that the record itself
    carries. When [unmarshalParameters] of a group record or of a user
    record succeeds, every overridable field (gid; realName, uid, gid,
    homeDirectory) has, independently of the other fields, the value of
    [resolveField]: the field of the machine-bound entry of the record's own
    machine id when that entry defines it, otherwise that of the last
    perMachine match (in array order) that defines it, otherwise that of the
    base record, otherwise the value before the call. The name is the base
    record's and the machine identity is left as it was. *)
Theorem field_resolution_precedence :
  (forall (g g' : groupRecord) (params : list jsonObject),
      groupRecord_unmarshalParameters g params = (g', None) ->
      exists p0 record groupName,
        params = [p0]
        /\ jsonObjectGet jsonObject p0 (txt "record") = Some record
        /\ jsonObjectGet bytes record (txt "groupName") = Some groupName
        /\ g' = mkGroupRecord (gr_perMachineRecord g) groupName
                  (resolveField Z (txt "gid") (gr_gid g) record
                     (perMachineMatches (gr_perMachineRecord g) record)
                     (machineBoundRecord (machineId (gr_perMachineRecord g)) record)))
  /\ (forall (u u' : userRecord) (params : list jsonObject),
      userRecord_unmarshalParameters u params = (u', None) ->
      exists p0 record userName,
        params = [p0]
        /\ jsonObjectGet jsonObject p0 (txt "record") = Some record
        /\ jsonObjectGet bytes record (txt "userName") = Some userName
        /\ let matches := perMachineMatches (ur_perMachineRecord u) record in
           let bound := machineBoundRecord (machineId (ur_perMachineRecord u)) record in
           u' = mkUserRecord (ur_perMachineRecord u) userName
                  (resolveField bytes (txt "realName") (ur_realName u) record matches bound)
                  (resolveField Z (txt "uid") (ur_uid u) record matches bound)
                  (resolveField Z (txt "gid") (ur_gid u) record matches bound)
                  (resolveField bytes (txt "homeDirectory") (ur_homeDirectory u)
                     record matches bound))
  /\ gr_gid groupRecord_zero = 0
  /\ (ur_realName userRecord_zero, ur_uid userRecord_zero,
      ur_gid userRecord_zero, ur_homeDirectory userRecord_zero) = ([], 0, 0, []).
Proof.
  split; [exact groupRecord_resolution|].
  split; [exact userRecord_resolution|].
  split; reflexivity.
Qed.

(** On [layeredRecord] and the machine [thisMachine]: uid is set in all
    three layers and the machine-bound 900 wins; gid is set in the base and
    in two matching entries and the later match, 71, wins (the entry for
    another host is passed over); homeDirectory is set in the base only;
    realName is set nowhere. *)
Example layered_resolution :
  userRecord_unmarshalParameters (mkUserRecord thisMachine [] [] 0 0 []) layeredParams
  = (mkUserRecord thisMachine (txt "ada") [] 900 71 (txt "/home/ada"), None).
Proof. vm_compute. reflexivity. Qed.

Lemma field_resolution_precedence_witness :
  exists p0 record userName,
    layeredParams = [p0]
    /\ jsonObjectGet jsonObject p0 (txt "record") = Some record
    /\ jsonObjectGet bytes record (txt "userName") = Some userName
    /\ let matches := perMachineMatches thisMachine record in
       let bound := machineBoundRecord (machineId thisMachine) record in
       mkUserRecord thisMachine (txt "ada") [] 900 71 (txt "/home/ada")
       = mkUserRecord thisMachine userName
           (resolveField bytes (txt "realName") [] record matches bound)
           (resolveField Z (txt "uid") 0 record matches bound)
           (resolveField Z (txt "gid") 0 record matches bound)
           (resolveField bytes (txt "homeDirectory") [] record matches bound).
Proof.
  apply (proj1 (proj2 field_resolution_precedence)
           (mkUserRecord thisMachine [] [] 0 0 [])
           (mkUserRecord thisMachine (txt "ada") [] 900 71 (txt "/home/ada"))
           layeredParams).
  vm_compute. reflexivity.
Defined.

(** C5. The machine-bound entry for the caller's machine id is not applied.
    The client is made on the machine 3f2a; the reply is decoded, its
    record has gid 1 and a binding entry for 3f2a that sets gid 7; the
    lookup returns gid 1. The resolver itself gives 7 when the record it
    fills carries the machine identity, but [queryGroupDb] and [queryUserDb]
    fill a fresh record, whose machine id and hostname are empty, and the
    identity of the client is never handed on. *)
Theorem binding_of_caller_not_applied :
  machineId (cl_perMachineRecord machineClient) = txt "3f2a"
  /\ (exists record,
        recordOfReply boundReply = Some record
        /\ jsonObjectGet Z record (txt "gid") = Some 1
        /\ machineBoundRecord (machineId (cl_perMachineRecord machineClient)) record
             ≫= (fun rec => jsonObjectGet Z rec (txt "gid")) = Some 7)
  /\ lookupGroup (replyWith (boundReply ++ [x00])) machineClient (txt "wheel")
     = Ret (Some (mkGroup (txt "wheel") (txt "1")), true, None)
  /\ groupRecord_unmarshalParameters
       (mkGroupRecord (cl_perMachineRecord machineClient) [] 0) boundParams
     = (mkGroupRecord thisMachine (txt "wheel") 7, None)
  /\ groupRecord_unmarshalParameters groupRecord_zero boundParams
     = (mkGroupRecord perMachineRecord_zero (txt "wheel") 1, None).
Proof.
  split; [reflexivity|]. split.
  - assert (H : match recordOfReply boundReply with
                | Some record =>
                  (jsonObjectGet Z record (txt "gid"),
                   machineBoundRecord (txt "3f2a") record
                     ≫= (fun rec => jsonObjectGet Z rec (txt "gid")))
                  = (Some 1, Some 7)
                | None => False
                end) by (vm_compute; reflexivity).
    destruct (recordOfReply boundReply) as [record|]; [|contradiction].
    exists record. injection H as H1 H2. repeat split; assumption.
  - repeat split; vm_compute; reflexivity.
Qed.

(** ** Memberships *)

Lemma handled_without_error (ok : bool) (err : option error) :
  negb ok || bool_decide (err <> None) = false <-> ok = true /\ err = None.
Proof.
  destruct ok, err as [e|]; cbn [negb orb].
  - rewrite bool_decide_eq_false. split; [intros N; now destruct N | intros [_ [=]]].
  - rewrite bool_decide_eq_false. split; [tauto | intros _ N; now apply N].
  - split; [discriminate | intros [[=] _]].
  - split; [discriminate | intros [[=] _]].
Qed.

(** The decoder of memberships: when it gives no error, every parameters
    object defines both names, and the keys gathered are the group names. *)
Lemma memberships_loop_ok (params : list jsonObject) (gu gu' : gmap bytes (gset bytes)) :
  memberships_loop params gu = (gu', None) ->
  Forall definesBoth params /\ dom gu' = dom gu ∪ groupNamesOf params.
Proof.
  revert gu. induction params as [|ps params IH]; intros gu; cbn [memberships_loop].
  - intros [= <-]. split; [constructor|]. unfold groupNamesOf. cbn. set_solver.
  - destruct (jsonObjectGet bytes ps (txt "userName")) as [userName|] eqn:Eu;
      [|discriminate].
    destruct (jsonObjectGet bytes ps (txt "groupName")) as [groupName|] eqn:Eg;
      [|discriminate].
    intros Hl. apply IH in Hl as [Hall Hdom]. split.
    + constructor; [|assumption]. split; [rewrite Eu | rewrite Eg]; eauto.
    + rewrite Hdom. unfold groupNamesOf. cbn [omap list_omap]. rewrite Eg.
      rewrite list_to_set_cons.
      destruct (gu !! groupName); rewrite dom_insert_L; set_solver.
Qed.

Lemma memberships_loop_fails (params : list jsonObject) (gu : gmap bytes (gset bytes)) :
  ~ Forall definesBoth params -> exists e, snd (memberships_loop params gu) = Some e.
Proof.
  intros Hn. destruct (memberships_loop params gu) as [gu' [e|]] eqn:E; [eauto|].
  exfalso. apply Hn. now apply memberships_loop_ok in E.
Qed.

(** The loop over the groups: every call is answered, and the gids are
    appended in the order of the keys. *)
Lemma lookupGroupIds_loop_ok (net : network) (cl : userdbClient)
    (keys : list bytes) (gids0 gids : list bytes) :
  lookupGroupIds_loop net cl keys gids0 = Ret (Some gids, true, None) ->
  Forall (groupAnswered net cl) keys /\ gids = gids0 ++ (gidOf net cl <$> keys).
Proof.
  revert gids0. induction keys as [|g keys IH]; intros gids0; cbn [lookupGroupIds_loop].
  - intros [= <-]. split; [constructor | now rewrite app_nil_r].
  - fold (groupCall g).
    destruct (query net cl (groupCall g) groupRecord_zero) as [[[group ok] err]|a] eqn:Eq;
      [|discriminate].
    destruct (negb ok || bool_decide (err <> None)) eqn:Eh; [discriminate|].
    apply handled_without_error in Eh as [-> ->].
    intros Hl. apply IH in Hl as [Hall ->]. split.
    + constructor; [now exists group | assumption].
    + rewrite <- app_assoc. cbn [fmap list_fmap app]. unfold gidOf at 2.
      now rewrite Eq.
Qed.


(** The run of [TestUserdbLookupGroupIds]: the three gids, in the order in
    which [someOrder] hands out the two group names. *)
Example lookupGroupIds_test_run :
  lookupGroupIds someOrder (serveUserdb groupIdsData) testClient (txt "stdlibcontrib")
  = Ret (Some [txt "181"; txt "183"; txt "182"], true, None).
Proof. vm_compute. reflexivity. Qed.


(** * Further properties *)

(** ** [findElementStart] *)

Lemma skipSpace_suffix (r : bytes) :
  skipn (length r - length (skipSpace r)) r = skipSpace r.
Proof.
  induction r as [|c r IH]; [reflexivity|].
  cbn [skipSpace]. destruct (isSpace c).
  - pose proof (skipSpace_length r).
    replace (length (c :: r) - length (skipSpace r))%nat
      with (S (length r - length (skipSpace r))) by (cbn [length]; lia).
    exact IH.
  - now rewrite Nat.sub_diag.
Qed.

Lemma skipn_last (r : bytes) (d : byte) :
  r <> [] -> skipn (length r - 1) r = [List.last r d].
Proof.
  induction r as [|c r IH]; [congruence|]. intros _.
  destruct r as [|c' r]; [reflexivity|].
  replace (length (c :: c' :: r) - 1)%nat with (S (length (c' :: r) - 1))
    by (cbn [length]; lia).
  cbn [skipn]. rewrite IH by discriminate. reflexivity.
Qed.

(** The loop of [findElementStart], by what follows the blanks. *)
Lemma findElementStart_loop_spec (rem : bytes) (i idx : nat) (seenColon : bool) :
  findElementStart_loop rem i idx seenColon =
    match skipSpace rem with
    | [] => inr (match rem with [] => idx | _ => (i + length rem - 1)%nat end, seenColon)
    | c :: tl =>
      let j := (i + (length rem - length (c :: tl)))%nat in
      if seenColon then inr (j, true)
      else if Byte.eqb c x3a then findElementStart_loop tl (S j) j true
      else inl (txt "expected colon, got invalid character: " ++ stringOfByte c)
    end.
Proof.
  revert i idx. induction rem as [|c rem IH]; intros i idx; [reflexivity|].
  cbn [findElementStart_loop skipSpace]. destruct (isSpace c) eqn:Es.
  - rewrite IH. pose proof (skipSpace_length rem) as Hl.
    destruct (skipSpace rem) as [|c' tl] eqn:E.
    + destruct rem; do 2 f_equal; cbn [length]; lia.
    + cbn zeta.
      replace (S i + (length rem - length (c' :: tl)))%nat
        with (i + (length (c :: rem) - length (c' :: tl)))%nat
        by (cbn [length] in *; lia).
      reflexivity.
  - cbn zeta. rewrite Nat.sub_diag, Nat.add_0_r.
    destruct seenColon; cbn [negb andb]; [reflexivity|].
    destruct (Byte.eqb c x3a); reflexivity.
Qed.

(** X1. [findElementStart] skips blanks, wants a colon, skips blanks again
    and returns the slice from the first byte that is no blank. When nothing
    but blanks follows the colon, it returns the last byte of the input, a
    blank or the colon itself, and not an empty slice. Whenever it returns a
    slice, that slice is a suffix of the input and holds at least one
    byte. *)
Theorem findElementStart_spec (r : bytes) :
  findElementStart r =
    match skipSpace r with
    | [] => inl (txt "expected colon, got end of input")
    | c :: tl =>
      if Byte.eqb c x3a then
        match skipSpace tl with
        | [] => inr [List.last r x00]
        | value => inr value
        end
      else inl (txt "expected colon, got invalid character: " ++ stringOfByte c)
    end
  /\ (forall out, findElementStart r = inr out ->
        out <> [] /\ exists pre, r = pre ++ out).
Proof.
  assert (Hsuffix : forall out, findElementStart r = inr out ->
            out <> [] -> out <> [] /\ exists pre, r = pre ++ out).
  { intros out Hf Hne. split; [assumption|]. unfold findElementStart in Hf.
    destruct (findElementStart_loop r 0 0 false) as [|[idx seen]]; [discriminate|].
    destruct (negb seen); [discriminate|]. injection Hf as <-.
    exists (firstn idx r). symmetry. apply firstn_skipn. }
  assert (Hspec : findElementStart r =
    match skipSpace r with
    | [] => inl (txt "expected colon, got end of input")
    | c :: tl =>
      if Byte.eqb c x3a then
        match skipSpace tl with
        | [] => inr [List.last r x00]
        | value => inr value
        end
      else inl (txt "expected colon, got invalid character: " ++ stringOfByte c)
    end).
  { unfold findElementStart. rewrite findElementStart_loop_spec.
    pose proof (skipSpace_suffix r) as Hr. pose proof (skipSpace_length r) as Hl.
    destruct (skipSpace r) as [|c tl] eqn:E; [reflexivity|].
    cbn zeta. cbn [Nat.add]. destruct (Byte.eqb c x3a); [|reflexivity].
    rewrite findElementStart_loop_spec.
    pose proof (skipSpace_suffix tl) as Ht. pose proof (skipSpace_length tl) as Hlt.
    assert (Hrt : skipn (S (length r - length (c :: tl))) r = tl).
    { change (S ?n) with (1 + n)%nat. rewrite <- skipn_skipn, Hr. reflexivity. }
    destruct (skipSpace tl) as [|c' tl'] eqn:Et.
    - cbn [negb]. f_equal.
      assert (Hne : r <> []) by (intros ->; discriminate E).
      rewrite <- (skipn_last r x00 Hne). f_equal.
      destruct tl; cbn [length] in *; lia.
    - cbn zeta. cbn [negb]. f_equal.
      replace (S (length r - length (c :: tl)) + (length tl - length (c' :: tl')))%nat
        with ((length tl - length (c' :: tl')) + S (length r - length (c :: tl)))%nat
        by lia.
      rewrite <- skipn_skipn, Hrt. exact Ht. }
  split; [exact Hspec|].
  intros out Hf. apply Hsuffix; [assumption|].
  rewrite Hspec in Hf.
  destruct (skipSpace r) as [|c tl]; [discriminate|].
  destruct (Byte.eqb c x3a); [|discriminate].
  destruct (skipSpace tl); injection Hf as <-; discriminate.
Qed.

Lemma findElementStart_spec_witness :
  lit "'x'" <> [] /\ exists pre, lit "   :  'x'" = pre ++ lit "'x'".
Proof.
  apply (proj2 (findElementStart_spec (lit "   :  'x'")) (lit "'x'")).
  vm_compute. reflexivity.
Defined.

(** ** [parseJSONBoolean] *)

(** X2. [parseJSONBoolean] returns a value exactly when the input, after
    blanks, begins with the four bytes of true or the five bytes of false;
    the remainder is what follows them, whatever it is (no delimiter is
    asked for). On every other input the error is "unable to parse boolean
    value". *)
Theorem parseJSONBoolean_spec (r : bytes) :
  (forall v rest,
      parseJSONBoolean r = Ok v rest <->
      skipSpace r = (if v then bytesTrue else bytesFalse) ++ rest)
  /\ (forall e, parseJSONBoolean r = Err e -> e = txt "unable to parse boolean value").
Proof.
  unfold parseJSONBoolean. generalize (skipSpace r) as s. intros s.
  unfold bytes_Equal, len. split.
  - intros v rest. split.
    + destruct (Z.leb_spec 4 (Z.of_nat (length s))) as [H4|H4]; cbn [andb].
      * destruct (bool_decide_reflect (firstn 4 s = bytesTrue)) as [Et|Nt].
        { intros [= <- <-]. rewrite <- Et. symmetry. apply firstn_skipn. }
        destruct (Z.leb_spec 5 (Z.of_nat (length s))) as [H5|H5]; cbn [andb];
          [|discriminate].
        destruct (bool_decide_reflect (firstn 5 s = bytesFalse)) as [Ef|Nf];
          [|discriminate].
        intros [= <- <-]. rewrite <- Ef. symmetry. apply firstn_skipn.
      * destruct (Z.leb_spec 5 (Z.of_nat (length s))); [lia | discriminate].
    + intros ->. destruct v.
      * change bytesTrue with [x74; x72; x75; x65]. cbn [app firstn skipn length].
        destruct (Z.leb_spec 4 (Z.of_nat (S (S (S (S (length rest))))))); [|lia].
        now rewrite bool_decide_eq_true_2.
      * change bytesFalse with [x66; x61; x6c; x73; x65].
        change bytesTrue with [x74; x72; x75; x65].
        cbn [app firstn skipn length].
        destruct (Z.leb_spec 4 (Z.of_nat (S (S (S (S (S (length rest)))))))); [|lia].
        destruct (Z.leb_spec 5 (Z.of_nat (S (S (S (S (S (length rest)))))))); [|lia].
        rewrite bool_decide_eq_false_2 by discriminate.
        now rewrite bool_decide_eq_true_2.
  - intros e.
    repeat match goal with
           | |- context [if ?b then _ else _] => destruct b
           end; try discriminate.
    now intros [= <-].
Qed.

Lemma parseJSONBoolean_spec_witness :
  parseJSONBoolean (txt "  falsework") = Ok false (txt "work").
Proof.
  apply (proj1 (parseJSONBoolean_spec (txt "  falsework"))). reflexivity.
Defined.

(** ** Elements that are no JSON value of the reader *)

Lemma skipSpace_head (r : bytes) (c : byte) (tl : bytes) :
  skipSpace r = c :: tl -> isSpace c = false.
Proof.
  induction r as [|b r IH]; [discriminate|]. cbn [skipSpace].
  destruct (isSpace b) eqn:E; [exact IH|]. now intros [= <- _].
Qed.

Lemma skipSpace_fixed (c : byte) (tl : bytes) :
  isSpace c = false -> skipSpace (c :: tl) = c :: tl.
Proof. intros H. cbn [skipSpace]. now rewrite H. Qed.

Lemma parseJSONInt64_no_digit (c : byte) (tl : bytes) :
  isSpace c = false -> isDigit c = false ->
  parseJSONInt64 (c :: tl) = Err (errSyntax (txt "ParseInt") []).
Proof.
  intros Hs Hd. unfold parseJSONInt64. rewrite (skipSpace_fixed c tl Hs).
  cbn [parseJSONInt64_loop]. change (Z.eqb (len []) 20) with false. cbn iota.
  now rewrite Hd.
Qed.

(** X3. An element whose first byte after blanks is none of the braces,
    brackets, quotes or the letters t and f is handed to [parseJSONInt64];
    when that byte is no digit either (null, a minus sign, a comma, a
    closing bracket), the element is rejected with the syntax error that
    [strconv.ParseInt] gives for the empty string. *)
Theorem parseJSONElement_unsupported (r : bytes) (c : byte) (tl : bytes) :
  skipSpace r = c :: tl ->
  c <> x7b -> c <> x5b -> c <> dquote -> c <> x74 -> c <> x66 ->
  isDigit c = false ->
  parseJSONElement r = Err (errSyntax (txt "ParseInt") []).
Proof.
  intros Hr N1 N2 N3 N4 N5 Hd. unfold parseJSONElement, fuelFor.
  replace (3 * length r + 3)%nat with (S (3 * length r + 2)) by lia.
  cbn [parseJSONElement_fuel]. rewrite Hr.
  rewrite !byte_eqb_false by assumption. cbn [orb].
  rewrite (parseJSONInt64_no_digit c tl (skipSpace_head r c tl Hr) Hd). reflexivity.
Qed.

Lemma parseJSONElement_unsupported_witness :
  parseJSONElement (txt " null}") = Err (errSyntax (txt "ParseInt") []).
Proof.
  apply (parseJSONElement_unsupported (txt " null}") x6e (txt "ull}"));
    try discriminate; reflexivity.
Defined.

(** ** Closing braces and brackets *)

Lemma parseJSONObject_loop_stops (fuel : nat) (obj : jsonObject) (r : bytes)
    (o : jsonObject) (rest : bytes) :
  parseJSONObject_loop fuel obj r = Ok o rest -> exists tl, rest = x7d :: tl.
Proof.
  revert obj r. induction fuel as [|fuel IH]; intros obj r; [discriminate|].
  cbn [parseJSONObject_loop].
  destruct r as [|c tl]; [discriminate|].
  destruct (Byte.eqb c x7d) eqn:E.
  { intros [= _ <-]. apply Byte.byte_dec_bl in E. subst c. now exists tl. }
  destruct (parseJSONString (c :: tl)) as [key rest1| |]; try discriminate.
  destruct (findElementStart rest1) as [|r1]; [discriminate|].
  destruct (parseJSONElement_fuel fuel r1) as [value rest2| |]; try discriminate.
  apply IH.
Qed.

Lemma parseJSONArray_loop_stops (fuel : nat) (els : list any) (r : bytes)
    (l : list any) (rest : bytes) :
  parseJSONArray_loop fuel els r = Ok l rest -> exists tl, rest = x5d :: tl.
Proof.
  revert els r. induction fuel as [|fuel IH]; intros els r; [discriminate|].
  cbn [parseJSONArray_loop].
  destruct r as [|c tl]; [discriminate|].
  destruct (Byte.eqb c x5d) eqn:E.
  { intros [= _ <-]. apply Byte.byte_dec_bl in E. subst c. now exists tl. }
  destruct (parseJSONElement_fuel fuel (c :: tl)) as [element rest1| |]; try discriminate.
  apply IH.
Qed.

Lemma parseJSONObject_fuel_stops (fuel : nat) (r : bytes) (o : jsonObject) (rest : bytes) :
  parseJSONObject_fuel fuel r = Ok o rest -> exists tl, rest = x7d :: tl.
Proof.
  destruct fuel as [|fuel]; [discriminate|]. cbn [parseJSONObject_fuel].
  destruct (skipSpace r) as [|c0 [|c1 tl]]; try discriminate.
  destruct (negb (Byte.eqb c0 x7b)); [discriminate|].
  apply parseJSONObject_loop_stops.
Qed.

Lemma parseJSONArray_fuel_stops (fuel : nat) (r : bytes) (l : list any) (rest : bytes) :
  parseJSONArray_fuel fuel r = Ok l rest -> exists tl, rest = x5d :: tl.
Proof.
  destruct fuel as [|fuel]; [discriminate|]. cbn [parseJSONArray_fuel].
  destruct (skipSpace r) as [|c0 [|c1 tl]]; try discriminate.
  destruct (negb (Byte.eqb c0 x5b)); [discriminate|].
  apply parseJSONArray_loop_stops.
Qed.

(** X4. [parseJSONObject] and [parseJSONArray] return from their loop at
    the closing brace or bracket without stepping over it: the remainder of
    every object read begins with the closing brace, that of every array
    with the closing bracket. *)
Theorem closing_bracket_left_in_remainder (r : bytes) :
  (forall o rest, parseJSONObject r = Ok o rest -> exists tl, rest = x7d :: tl)
  /\ (forall l rest, parseJSONArray r = Ok l rest -> exists tl, rest = x5d :: tl).
Proof.
  split; intros v rest.
  - apply parseJSONObject_fuel_stops.
  - apply parseJSONArray_fuel_stops.
Qed.

Lemma closing_bracket_left_in_remainder_witness :
  exists tl, txt "]] " = x5d :: tl.
Proof.
  apply (proj2 (closing_bracket_left_in_remainder (txt "[1 [2 3]] "))
           [AInt64 1; ASlice [AInt64 2; AInt64 3]] (txt "]] ")).
  vm_compute. reflexivity.
Defined.

(** ** Arrays in objects, objects in arrays *)

Lemma parseJSONElement_fuel_slice (fuel : nat) (r : bytes) (l : list any) (rest : bytes) :
  parseJSONElement_fuel fuel r = Ok (ASlice l) rest -> exists tl, rest = x5d :: tl.
Proof.
  destruct fuel as [|fuel]; [discriminate|]. cbn [parseJSONElement_fuel].
  destruct (skipSpace r) as [|c tl]; [discriminate|].
  repeat match goal with
         | |- context [if ?b then _ else _] => destruct b
         end;
    intros Hm; apply mapResult_ok in Hm as (w & Hm & Hv); try discriminate Hv.
  now apply parseJSONArray_fuel_stops in Hm.
Qed.

Lemma parseJSONElement_fuel_object (fuel : nat) (r : bytes) (o : jsonObject) (rest : bytes) :
  parseJSONElement_fuel fuel r = Ok (AObject o) rest -> exists tl, rest = x7d :: tl.
Proof.
  destruct fuel as [|fuel]; [discriminate|]. cbn [parseJSONElement_fuel].
  destruct (skipSpace r) as [|c tl]; [discriminate|].
  repeat match goal with
         | |- context [if ?b then _ else _] => destruct b
         end;
    intros Hm; apply mapResult_ok in Hm as (w & Hm & Hv); try discriminate Hv.
  now apply parseJSONObject_fuel_stops in Hm.
Qed.

(** After an array, the loop of [parseJSONObject] wants a key and finds the
    closing bracket. *)
Lemma parseJSONObject_loop_after_array (fuel : nat) (obj : jsonObject) (tl : bytes)
    (o : jsonObject) (rest : bytes) :
  parseJSONObject_loop fuel obj (x5d :: tl) <> Ok o rest.
Proof.
  destruct fuel as [|fuel]; [discriminate|]. cbn [parseJSONObject_loop].
  change (Byte.eqb x5d x7d) with false. cbn iota.
  unfold parseJSONString. rewrite skipSpace_fixed by reflexivity.
  destruct tl; discriminate.
Qed.

(** After an object, the loop of [parseJSONArray] wants an element and
    finds the closing brace. *)
Lemma parseJSONArray_loop_after_object (fuel : nat) (els : list any) (tl : bytes)
    (l : list any) (rest : bytes) :
  parseJSONArray_loop fuel els (x7d :: tl) <> Ok l rest.
Proof.
  destruct fuel as [|fuel]; [discriminate|]. cbn [parseJSONArray_loop].
  change (Byte.eqb x7d x5d) with false. cbn iota.
  destruct fuel as [|fuel]; [discriminate|]. cbn [parseJSONElement_fuel].
  rewrite skipSpace_fixed by reflexivity.
  change (Byte.eqb x7d x7b) with false. change (Byte.eqb x7d x5b) with false.
  change (Byte.eqb x7d dquote) with false.
  change (Byte.eqb x7d x74 || Byte.eqb x7d x66) with false. cbn iota.
  rewrite parseJSONInt64_no_digit by reflexivity. discriminate.
Qed.

Lemma reader_shapes (fuel : nat) :
  (forall r v rest, parseJSONElement_fuel fuel r = Ok v rest -> shaped v)
  /\ (forall r o rest, parseJSONObject_fuel fuel r = Ok o rest -> shaped (AObject o))
  /\ (forall obj r o rest, shaped (AObject obj) ->
        parseJSONObject_loop fuel obj r = Ok o rest -> shaped (AObject o))
  /\ (forall r l rest, parseJSONArray_fuel fuel r = Ok l rest -> shaped (ASlice l))
  /\ (forall els r l rest, shaped (ASlice els) ->
        parseJSONArray_loop fuel els r = Ok l rest -> shaped (ASlice l)).
Proof.
  induction fuel as [|fuel (IHe & IHo & IHol & IHa & IHal)];
    [repeat split; intros; discriminate|].
  repeat split.
  - intros r v rest. cbn [parseJSONElement_fuel].
    destruct (skipSpace r) as [|c tl]; [discriminate|].
    repeat match goal with
           | |- context [if ?b then _ else _] => destruct b
           end;
      intros Hm; apply mapResult_ok in Hm as (w & Hm & ->);
      [now apply IHo in Hm | now apply IHa in Hm | constructor..].
  - intros r o rest. cbn [parseJSONObject_fuel].
    destruct (skipSpace r) as [|c0 [|c1 tl]]; try discriminate.
    destruct (negb (Byte.eqb c0 x7b)); [discriminate|].
    apply IHol. constructor. apply map_Forall_empty.
  - intros obj r o rest Hobj. cbn [parseJSONObject_loop].
    destruct r as [|c tl]; [discriminate|].
    destruct (Byte.eqb c x7d); [now intros [= <- _]|].
    destruct (parseJSONString (c :: tl)) as [key rest1| |]; try discriminate.
    destruct (findElementStart rest1) as [|r1]; [discriminate|].
    destruct (parseJSONElement_fuel fuel r1) as [value rest2| |] eqn:E; try discriminate.
    intros Hl.
    assert (Hv : forall l, value <> ASlice l).
    { intros l ->. apply parseJSONElement_fuel_slice in E as [tl' ->].
      now apply parseJSONObject_loop_after_array in Hl. }
    revert Hl. apply IHol. constructor.
    inversion Hobj as [? Hm| | | |]; subst.
    apply map_Forall_insert_2; [|assumption].
    split; [now apply IHe in E | assumption].
  - intros r l rest. cbn [parseJSONArray_fuel].
    destruct (skipSpace r) as [|c0 [|c1 tl]]; try discriminate.
    destruct (negb (Byte.eqb c0 x5b)); [discriminate|].
    apply IHal. constructor. constructor.
  - intros els r l rest Hels. cbn [parseJSONArray_loop].
    destruct r as [|c tl]; [discriminate|].
    destruct (Byte.eqb c x5d); [now intros [= <- _]|].
    destruct (parseJSONElement_fuel fuel (c :: tl)) as [element rest1| |] eqn:E;
      try discriminate.
    intros Hl.
    assert (Hv : forall o, element <> AObject o).
    { intros o ->. apply parseJSONElement_fuel_object in E as [tl' ->].
      now apply parseJSONArray_loop_after_object in Hl. }
    revert Hl. apply IHal. constructor.
    inversion Hels as [|? Hl'| | |]; subst.
    apply Forall_app_2; [assumption|].
    constructor; [|constructor]. split; [now apply IHe in E | assumption].
Qed.

(** X5. No object that the reader returns has an array as a member, and no
    array that it returns has an object as an element, at any depth: after
    an array the loop of [parseJSONObject] meets the closing bracket where
    it wants a key, and after an object the loop of [parseJSONArray] meets
    the closing brace where it wants an element. *)
Theorem reader_never_mixes_arrays_and_objects (r : bytes) :
  (forall v rest, parseJSONElement r = Ok v rest -> shaped v)
  /\ (forall o rest, parseJSONObject r = Ok o rest ->
        shaped (AObject o) /\ forall k l, o !! k <> Some (ASlice l))
  /\ (forall l rest, parseJSONArray r = Ok l rest ->
        shaped (ASlice l) /\ forall o, AObject o ∉ l).
Proof.
  destruct (reader_shapes (fuelFor r)) as (He & Ho & _ & Ha & _).
  split; [intros v rest; apply He|]. split.
  - intros o rest Hp. apply Ho in Hp. split; [assumption|].
    inversion Hp as [? Hm| | | |]; subst. intros k l Hk.
    apply Hm in Hk as [_ Hk]. now apply (Hk l).
  - intros l rest Hp. apply Ha in Hp. split; [assumption|].
    inversion Hp as [|? Hl| | |]; subst. intros o Ho'.
    apply (proj1 (Forall_forall _ _) Hl) in Ho' as [_ Ho']. now apply (Ho' o).
Qed.

Lemma reader_never_mixes_arrays_and_objects_witness :
  shaped (ASlice [AInt64 1; ASlice [AInt64 2; AInt64 3]])
  /\ forall o, AObject o ∉ [AInt64 1; ASlice [AInt64 2; AInt64 3]].
Proof.
  apply (proj2 (proj2 (reader_never_mixes_arrays_and_objects (txt "[1 [2 3]] ")))
           [AInt64 1; ASlice [AInt64 2; AInt64 3]] (txt "]] ")).
  vm_compute. reflexivity.
Defined.

(** ** The string reader, token by token *)

Lemma Zbyte_byteZ (c : byte) : Zbyte (byteZ c) = c.
Proof. destruct c; reflexivity. Qed.

Lemma byteZ_range (c : byte) : 0 <= byteZ c < 256.
Proof. destruct c; cbv; split; congruence. Qed.

Lemma byteZ_inj (c d : byte) : byteZ c = byteZ d -> c = d.
Proof. intros H. rewrite <- (Zbyte_byteZ c), <- (Zbyte_byteZ d). now rewrite H. Qed.

Lemma utf8_EncodeRune_ascii (c : byte) :
  byteZ c < 128 -> utf8_EncodeRune (byteZ c) = [c].
Proof.
  intros H. pose proof (byteZ_range c) as Hr. unfold utf8_EncodeRune.
  destruct (Z.leb_spec 0 (byteZ c)); [|lia].
  destruct (Z.leb_spec (byteZ c) 1114111); [|lia].
  destruct (Z.leb_spec 55296 (byteZ c)); [lia|]. cbn [andb negb].
  destruct (Z.leb_spec (byteZ c) 127); [|lia].
  now rewrite Zbyte_byteZ.
Qed.

Lemma lor_ge_l (a b : Z) : 0 <= a -> 0 <= b -> a <= Z.lor a b.
Proof.
  intros Ha Hb. apply Z.ldiff_le; [apply Z.lor_nonneg; lia|].
  apply Z.bits_inj'. intros n Hn.
  rewrite Z.ldiff_spec, Z.lor_spec, Z.bits_0.
  destruct (Z.testbit a n), (Z.testbit b n); reflexivity.
Qed.

Lemma lor_ge_r (a b : Z) : 0 <= a -> 0 <= b -> b <= Z.lor a b.
Proof. intros Ha Hb. rewrite Z.lor_comm. now apply lor_ge_l. Qed.

Ltac bits_nonneg :=
  repeat first [ apply Z.lor_nonneg; split
               | apply Z.shiftl_nonneg
               | apply Z.land_nonneg; right; lia
               | lia ].

Ltac range_hyps :=
  repeat match goal with
         | H : (_ && _)%bool = true |- _ => apply andb_true_iff in H as [? ?]
         | H : (_ <=? _) = true |- _ => apply Z.leb_le in H
         | H : (_ <=? _) = false |- _ => apply Z.leb_gt in H
         | H : (_ =? _) = true |- _ => apply Z.eqb_eq in H
         | H : (_ =? _) = false |- _ => apply Z.eqb_neq in H
         end.

(** [x & (2^m - 1)] and [x << k] as arithmetic. *)
Ltac bits_to_arith :=
  repeat rewrite Z.shiftl_mul_pow2 by lia;
  repeat rewrite Z.shiftr_div_pow2 by lia;
  change 63 with (Z.ones 6); change 31 with (Z.ones 5);
  change 15 with (Z.ones 4); change 7 with (Z.ones 3);
  repeat rewrite Z.land_ones by lia;
  change (Z.ones 6) with 63; change (Z.ones 5) with 31;
  change (Z.ones 4) with 15; change (Z.ones 3) with 7;
  change (2 ^ 3) with 8; change (2 ^ 4) with 16; change (2 ^ 5) with 32;
  change (2 ^ 6) with 64; change (2 ^ 12) with 4096; change (2 ^ 18) with 262144.

Ltac lower_bound :=
  first [ solve [bits_to_arith; Z.div_mod_to_equations; lia]
        | (etransitivity; [|apply lor_ge_l; bits_nonneg]); lower_bound
        | (etransitivity; [|apply lor_ge_r; bits_nonneg]); lower_bound ].

(** A rune read from a byte that is not ASCII is neither the backslash nor
    the quote. *)
Lemma utf8_DecodeRune_not_ascii (c : byte) (u : bytes) :
  128 <= byteZ c -> 128 <= fst (utf8_DecodeRune (c :: u)).
Proof.
  intros Hc. unfold utf8_DecodeRune.
  destruct (Z.ltb_spec (byteZ c) 128); [lia|].
  pose proof (byteZ_range c) as Hrc.
  unfold inRange, isCont, inRange.
  repeat match goal with
         | |- context [match ?l with [] => _ | _ :: _ => _ end] => destruct l
         | |- context [if ?b then _ else _] => destruct b eqn:?
         end; cbn [fst]; unfold RuneError; try lia; range_hyps.
  all: repeat match goal with
              | H : context [if ?b then _ else _] |- _ => destruct b eqn:?
              end; range_hyps; lower_bound.
Qed.

Section Tokens.
Variable body : bytes.

Let normal (value : bytes) (i : nat) : strState :=
  mkStrState value false false (mkReader body i).

Lemma step_quote (value : bytes) (i : nat) (tail : bytes) :
  len value <= 4096 -> skipn i body = dquote :: tail ->
  parseJSONString_step body (normal value i)
  = Leave (Ok value (skipn (length body - (i + 1)) body)).
Proof.
  intros Hv Hu. unfold parseJSONString_step, normal.
  cbn [st_value st_inEsc st_inUEsc st_reader].
  destruct (Z.ltb_spec 4096 (len value)); [lia|].
  unfold Reader_ReadRune, Reader_unread. cbn [rd_s rd_i]. rewrite Hu.
  change (Z.ltb (byteZ dquote) RuneSelf) with true. cbn iota.
  change (Z.eqb (byteZ dquote) (byteZ backslash)) with false.
  change (Z.eqb (byteZ dquote) (byteZ dquote)) with true. cbn iota.
  unfold strEnd, Reader_Len, Reader_unread, Reader_advance. cbn [rd_s rd_i].
  now rewrite length_skipn.
Qed.

Lemma step_ascii (value : bytes) (i : nat) (c : byte) (u : bytes) :
  len value <= 4096 -> skipn i body = c :: u ->
  byteZ c < 128 -> c <> dquote -> c <> backslash ->
  parseJSONString_step body (normal value i) = Continue (normal (value ++ [c]) (i + 1)).
Proof.
  intros Hv Hu Hc Nq Nb. unfold parseJSONString_step, normal.
  cbn [st_value st_inEsc st_inUEsc st_reader].
  destruct (Z.ltb_spec 4096 (len value)); [lia|].
  unfold Reader_ReadRune, Reader_unread. cbn [rd_s rd_i]. rewrite Hu.
  unfold RuneSelf. destruct (Z.ltb_spec (byteZ c) 128); [|lia].
  destruct (Z.eqb_spec (byteZ c) (byteZ backslash)) as [E|_];
    [now apply byteZ_inj in E|].
  destruct (Z.eqb_spec (byteZ c) (byteZ dquote)) as [E|_];
    [now apply byteZ_inj in E|].
  now rewrite utf8_EncodeRune_ascii.
Qed.

Lemma step_rune (value : bytes) (i : nat) (c : byte) (u : bytes) (rn : Z) (size : nat) :
  len value <= 4096 -> skipn i body = c :: u ->
  128 <= byteZ c -> utf8_DecodeRune (c :: u) = (rn, size) ->
  parseJSONString_step body (normal value i)
  = Continue (normal (value ++ utf8_EncodeRune rn) (i + size)).
Proof.
  intros Hv Hu Hc Hd. unfold parseJSONString_step, normal.
  cbn [st_value st_inEsc st_inUEsc st_reader].
  destruct (Z.ltb_spec 4096 (len value)); [lia|].
  unfold Reader_ReadRune, Reader_unread. cbn [rd_s rd_i]. rewrite Hu.
  unfold RuneSelf. destruct (Z.ltb_spec (byteZ c) 128); [lia|].
  pose proof (utf8_DecodeRune_not_ascii c u Hc) as Hrn.
  rewrite Hd in Hrn |- *. cbn [fst] in Hrn.
  destruct (Z.eqb_spec rn (byteZ backslash)) as [E|_];
    [rewrite E in Hrn; vm_compute in Hrn; now contradiction Hrn|].
  destruct (Z.eqb_spec rn (byteZ dquote)) as [E|_];
    [rewrite E in Hrn; vm_compute in Hrn; now contradiction Hrn|].
  reflexivity.
Qed.

Lemma step_backslash (value : bytes) (i : nat) (u : bytes) :
  len value <= 4096 -> skipn i body = backslash :: u ->
  parseJSONString_step body (normal value i)
  = Continue (mkStrState value true false (mkReader body (i + 1))).
Proof.
  intros Hv Hu. unfold parseJSONString_step, normal.
  cbn [st_value st_inEsc st_inUEsc st_reader].
  destruct (Z.ltb_spec 4096 (len value)); [lia|].
  unfold Reader_ReadRune, Reader_unread. cbn [rd_s rd_i]. rewrite Hu.
  reflexivity.
Qed.

Lemma step_escaped (value : bytes) (i : nat) (e b : byte) (u : bytes) :
  len value <= 4096 -> skipn i body = e :: u -> escaped e = Some b ->
  parseJSONString_step body (mkStrState value true false (mkReader body i))
  = Continue (normal (value ++ [b]) (i + 1)).
Proof.
  intros Hv Hu He. unfold parseJSONString_step, normal.
  cbn [st_value st_inEsc st_inUEsc st_reader].
  destruct (Z.ltb_spec 4096 (len value)); [lia|].
  unfold Reader_ReadByte, Reader_unread. cbn [rd_s rd_i]. rewrite Hu.
  revert He. unfold escaped.
  destruct (Byte.eqb e x62); [now intros [= <-]|].
  destruct (Byte.eqb e x66); [now intros [= <-]|].
  destruct (Byte.eqb e x6e); [now intros [= <-]|].
  destruct (Byte.eqb e x72); [now intros [= <-]|].
  destruct (Byte.eqb e x74); [now intros [= <-]|].
  destruct (Byte.eqb e x75) eqn:Eu.
  { apply Byte.byte_dec_bl in Eu. subst e. discriminate. }
  destruct (Byte.eqb e x2f); [now intros [= <-]|].
  destruct (Byte.eqb e backslash); [now intros [= <-]|].
  destruct (Byte.eqb e dquote); [now intros [= <-]|].
  discriminate.
Qed.

Lemma step_u (value : bytes) (i : nat) (u : bytes) :
  len value <= 4096 -> skipn i body = x75 :: u ->
  parseJSONString_step body (mkStrState value true false (mkReader body i))
  = Continue (mkStrState value false true (mkReader body (i + 1))).
Proof.
  intros Hv Hu. unfold parseJSONString_step.
  cbn [st_value st_inEsc st_inUEsc st_reader].
  destruct (Z.ltb_spec 4096 (len value)); [lia|].
  unfold Reader_ReadByte, Reader_unread. cbn [rd_s rd_i]. rewrite Hu.
  reflexivity.
Qed.

Lemma step_unicode (value : bytes) (i : nat) (a b c d : byte) (rn : Z) (u : bytes) :
  len value <= 4096 -> skipn i body = a :: b :: c :: d :: u ->
  strconv_ParseUint_16_32 [a; b; c; d] = Some rn -> utf16_IsSurrogate rn = false ->
  parseJSONString_step body (mkStrState value false true (mkReader body i))
  = Continue (normal (value ++ utf8_EncodeRune rn) (i + 4)).
Proof.
  intros Hv Hu Hrn Hs. unfold parseJSONString_step, normal.
  cbn [st_value st_inEsc st_inUEsc st_reader].
  destruct (Z.ltb_spec 4096 (len value)); [lia|].
  assert (Hread : Reader_Read (mkReader body i) 4
                  = ([a; b; c; d], false, mkReader body (i + 4)))
    by (unfold Reader_Read, Reader_unread; cbn [rd_s rd_i]; rewrite Hu; reflexivity).
  rewrite Hread. cbn [length orb Nat.eqb negb].
  change (filled 4 [a; b; c; d]) with [a; b; c; d]. now rewrite Hrn, Hs.
Qed.

Lemma loop_continue (fuel : nat) (st st' : strState) :
  parseJSONString_step body st = Continue st' ->
  parseJSONString_loop (S fuel) body st = parseJSONString_loop fuel body st'.
Proof. intros H. cbn [parseJSONString_loop]. now rewrite H. Qed.

Lemma skipn_cons_next (i : nat) (c : byte) (u : bytes) (n : nat) :
  skipn i body = c :: u -> skipn (i + n) body = skipn n (c :: u).
Proof. intros H. rewrite Nat.add_comm, <- skipn_skipn. now rewrite H. Qed.

(** The loop on a token: the text written, and the remainder returned,
    which is the slice cut at the count of bytes left unread. *)
Lemma loop_reads (u v : bytes) (k : nat) :
  readsToken u v k ->
  forall (value : bytes) (i fuel : nat),
    skipn i body = u -> len (value ++ v) <= 4096 -> (length u < fuel)%nat ->
    parseJSONString_loop fuel body (normal value i)
    = Ok (value ++ v) (skipn (length body - (i + k)) body).
Proof.
  induction 1 as [tail | c u v k Hc Nq Nb _ IH | c u rn size v k Hc Hd _ IH
                  | e b u v k He _ IH | h rn u v k Hh Hrn Hs _ IH
                  | h rn u v k Hh Hrn Hs Hlone _ IH
                  | h1 h2 hi lo u v k Hh1 Hhi Hh2 Hlo Rhi Rlo _ IH
                  | h1 h2 rn rn1 u v k Hh1 Hrn Hh2 Hrn1 Hs Hdec _ IH];
    intros value i fuel Hu Hlen Hf.
  - destruct fuel as [|fuel]; [lia|]. cbn [parseJSONString_loop].
    rewrite app_nil_r in *. now rewrite (step_quote value i tail Hlen Hu).
  - destruct fuel as [|fuel]; [cbn [length] in Hf; lia|].
    rewrite len_app in Hlen. pose proof (len_nonneg (c :: v)).
    rewrite (loop_continue fuel _ _ (step_ascii value i c u ltac:(lia) Hu Hc Nq Nb)).
    rewrite (IH (value ++ [c]) (i + 1)%nat fuel).
    + rewrite <- app_assoc. cbn [app]. do 2 f_equal. lia.
    + now rewrite (skipn_cons_next i c u 1 Hu).
    + rewrite <- app_assoc. cbn [app]. now rewrite len_app.
    + cbn [length] in Hf. lia.
  - destruct fuel as [|fuel]; [cbn [length] in Hf; lia|].
    rewrite len_app in Hlen. pose proof (len_nonneg (utf8_EncodeRune rn ++ v)).
    rewrite (loop_continue fuel _ _ (step_rune value i c u rn size ltac:(lia) Hu Hc Hd)).
    pose proof (utf8_DecodeRune_size c u) as Hsz. rewrite Hd in Hsz. cbn [snd] in Hsz.
    rewrite (IH (value ++ utf8_EncodeRune rn) (i + size)%nat fuel).
    + rewrite <- app_assoc. do 2 f_equal. lia.
    + now rewrite (skipn_cons_next i c u size Hu).
    + rewrite <- app_assoc. now rewrite len_app.
    + rewrite length_skipn. lia.
  - destruct fuel as [|[|fuel]]; [cbn [length] in Hf; lia..|].
    rewrite len_app in Hlen. pose proof (len_nonneg (b :: v)).
    rewrite (loop_continue _ _ _ (step_backslash value i (e :: u) ltac:(lia) Hu)).
    assert (Hu1 : skipn (i + 1) body = e :: u)
      by now rewrite (skipn_cons_next i _ _ 1 Hu).
    rewrite (loop_continue _ _ _ (step_escaped value (i + 1) e b u ltac:(lia) Hu1 He)).
    rewrite (IH (value ++ [b]) (i + 1 + 1)%nat fuel).
    + rewrite <- app_assoc. cbn [app]. do 2 f_equal. lia.
    + now rewrite (skipn_cons_next (i + 1) e u 1 Hu1).
    + rewrite <- app_assoc. cbn [app]. now rewrite len_app.
    + cbn [length] in Hf. lia.
  - destruct h as [|a [|b [|c [|d [|]]]]]; try discriminate Hh.
    cbn [escapeU app] in Hu, Hf.
    destruct fuel as [|[|[|fuel]]]; [cbn [length] in Hf; lia..|].
    rewrite len_app in Hlen. pose proof (len_nonneg (utf8_EncodeRune rn ++ v)).
    rewrite (loop_continue _ _ _ (step_backslash value i _ ltac:(lia) Hu)).
    assert (Hu1 : skipn (i + 1) body = x75 :: a :: b :: c :: d :: u)
      by now rewrite (skipn_cons_next i _ _ 1 Hu).
    rewrite (loop_continue _ _ _ (step_u value (i + 1) _ ltac:(lia) Hu1)).
    assert (Hu2 : skipn (i + 1 + 1) body = a :: b :: c :: d :: u)
      by now rewrite (skipn_cons_next (i + 1) _ _ 1 Hu1).
    rewrite (loop_continue _ _ _
               (step_unicode value (i + 1 + 1) a b c d rn u ltac:(lia) Hu2 Hrn Hs)).
    rewrite (IH (value ++ utf8_EncodeRune rn) (i + 1 + 1 + 4)%nat fuel).
    + rewrite <- app_assoc. do 2 f_equal. lia.
    + now rewrite (skipn_cons_next (i + 1 + 1) _ _ 4 Hu2).
    + rewrite <- app_assoc. now rewrite len_app.
    + cbn [length] in Hf. lia.
  - destruct h as [|a [|b [|c [|d [|]]]]]; try discriminate Hh.
    cbn [escapeU app] in Hu, Hf.
    destruct fuel as [|[|[|fuel]]]; [cbn [length] in Hf; lia..|].
    rewrite len_app in Hlen. pose proof (len_nonneg (utf8_EncodeRune RuneError ++ v)).
    rewrite (loop_continue _ _ _ (step_backslash value i _ ltac:(lia) Hu)).
    assert (Hu1 : skipn (i + 1) body = x75 :: a :: b :: c :: d :: u)
      by now rewrite (skipn_cons_next i _ _ 1 Hu).
    rewrite (loop_continue _ _ _ (step_u value (i + 1) _ ltac:(lia) Hu1)).
    assert (Hu2 : skipn (i + 1 + 1) body = a :: b :: c :: d :: u)
      by now rewrite (skipn_cons_next (i + 1) _ _ 1 Hu1).
    destruct (surrogate_alone_step body value false (mkReader body (i + 1 + 1))
                a b c d rn ltac:(lia) Hrn Hs u Hu2 Hlone) as [Hstep _].
    rewrite (loop_continue _ _ _ Hstep).
    change (Reader_advance (mkReader body (i + 1 + 1)) 4)
      with (mkReader body (i + 1 + 1 + 4)).
    change (mkStrState ?x false false (mkReader body ?j)) with (normal x j).
    rewrite (IH (value ++ utf8_EncodeRune RuneError) (i + 1 + 1 + 4)%nat fuel).
    + rewrite <- app_assoc. do 2 f_equal. lia.
    + now rewrite (skipn_cons_next (i + 1 + 1) _ _ 4 Hu2).
    + rewrite <- app_assoc. now rewrite len_app.
    + cbn [length] in Hf. lia.
  - destruct h1 as [|a [|b [|c [|d [|]]]]]; try discriminate Hh1.
    destruct h2 as [|e [|f [|g [|h [|]]]]]; try discriminate Hh2.
    cbn [escapeU app] in Hu, Hf.
    destruct fuel as [|[|[|fuel]]]; [cbn [length] in Hf; lia..|].
    rewrite len_app in Hlen.
    pose proof (len_nonneg (utf8_EncodeRune (pairCodePoint hi lo) ++ v)).
    rewrite (loop_continue _ _ _ (step_backslash value i _ ltac:(lia) Hu)).
    assert (Hu1 : skipn (i + 1) body
                  = x75 :: a :: b :: c :: d :: backslash :: x75 :: e :: f :: g :: h :: u)
      by now rewrite (skipn_cons_next i _ _ 1 Hu).
    rewrite (loop_continue _ _ _ (step_u value (i + 1) _ ltac:(lia) Hu1)).
    assert (Hu2 : skipn (i + 1 + 1) body
                  = a :: b :: c :: d :: backslash :: x75 :: e :: f :: g :: h :: u)
      by now rewrite (skipn_cons_next (i + 1) _ _ 1 Hu1).
    assert (Hs : utf16_IsSurrogate hi = true).
    { unfold utf16_IsSurrogate.
      destruct (Z.leb_spec 55296 hi); [|lia]. destruct (Z.ltb_spec hi 57344); [|lia].
      reflexivity. }
    destruct (surrogate_pair_step body value false (mkReader body (i + 1 + 1))
                a b c d hi ltac:(lia) Hhi Hs e f g h lo u Hu2 Hlo Rhi Rlo) as [Hstep _].
    rewrite (loop_continue _ _ _ Hstep).
    change (Reader_advance (mkReader body (i + 1 + 1)) 10)
      with (mkReader body (i + 1 + 1 + 10)).
    change (mkStrState ?x false false (mkReader body ?j)) with (normal x j).
    rewrite (IH (value ++ utf8_EncodeRune (pairCodePoint hi lo)) (i + 1 + 1 + 10)%nat fuel).
    + rewrite <- app_assoc. do 2 f_equal. lia.
    + now rewrite (skipn_cons_next (i + 1 + 1) _ _ 10 Hu2).
    + rewrite <- app_assoc. now rewrite len_app.
    + cbn [length] in Hf. lia.
  - destruct h1 as [|a [|b [|c [|d [|]]]]]; try discriminate Hh1.
    destruct h2 as [|e [|f [|g [|h [|]]]]]; try discriminate Hh2.
    cbn [escapeU app] in Hu, Hf.
    destruct fuel as [|[|[|fuel]]]; [cbn [length] in Hf; lia..|].
    pose proof (len_nonneg v).
    assert (Hv : len value <= 4096) by (rewrite len_app in Hlen; lia).
    rewrite (loop_continue _ _ _ (step_backslash value i _ Hv Hu)).
    assert (Hu1 : skipn (i + 1) body
                  = x75 :: a :: b :: c :: d :: backslash :: x75 :: e :: f :: g :: h :: u)
      by now rewrite (skipn_cons_next i _ _ 1 Hu).
    rewrite (loop_continue _ _ _ (step_u value (i + 1) _ Hv Hu1)).
    assert (Hu2 : skipn (i + 1 + 1) body
                  = a :: b :: c :: d :: backslash :: x75 :: e :: f :: g :: h :: u)
      by now rewrite (skipn_cons_next (i + 1) _ _ 1 Hu1).
    destruct (surrogate_mismatch_step body value false (mkReader body (i + 1 + 1))
                a b c d rn Hv Hrn Hs e f g h rn1 u Hu2 Hrn1 Hdec) as [Hstep _].
    rewrite (loop_continue _ _ _ Hstep).
    change (Reader_advance (mkReader body (i + 1 + 1)) 10)
      with (mkReader body (i + 1 + 1 + 10)).
    change (mkStrState ?x false false (mkReader body ?j)) with (normal x j).
    rewrite (IH value (i + 1 + 1 + 10)%nat fuel).
    + do 2 f_equal. lia.
    + now rewrite (skipn_cons_next (i + 1 + 1) _ _ 10 Hu2).
    + assumption.
    + cbn [length] in Hf. lia.
Qed.
End Tokens.

Lemma readsToken_count (u v : bytes) (k : nat) : readsToken u v k -> (1 <= k <= length u)%nat.
Proof.
  induction 1 as [tail | c u v k Hc Nq Nb _ IH | c u rn size v k Hc Hd _ IH
                  | e b u v k He _ IH | h rn u v k Hh Hrn Hs _ IH
                  | h rn u v k Hh Hrn Hs Hlone _ IH
                  | h1 h2 hi lo u v k Hh1 Hhi Hh2 Hlo Rhi Rlo _ IH
                  | h1 h2 rn rn1 u v k Hh1 Hrn Hh2 Hrn1 Hs Hdec _ IH];
    unfold escapeU; cbn [length app] in *; rewrite ?length_app; cbn [length app];
    rewrite ?length_app; try lia.
  pose proof (utf8_DecodeRune_size c u) as Hsz. rewrite Hd in Hsz. cbn [snd] in Hsz.
  rewrite length_skipn in IH. cbn [length] in *. lia.
Qed.

Lemma readsToken_empty (tail v : bytes) (k : nat) :
  readsToken (dquote :: tail) v k -> v = [] /\ k = 1%nat.
Proof.
  intros H. inversion H as [tail' | c u v' k' Hc Nq Nb | c u rn size v' k' Hc
                            | | | | | ]; subst; try discriminate.
  - now split.
  - congruence.
  - vm_compute in Hc. now contradiction Hc.
Qed.

(** X6. What [parseJSONString] returns for a string token. After blanks and
    the opening quote, every byte or escape is decoded in turn ([readsToken]): an
    ASCII byte stands for itself, any other byte is read as a UTF-8 rune and
    written again, a backslash with one of b f n r t / \ and the quote gives
    the escaped byte, an escape of four hexadecimal digits gives the UTF-8
    text of its code unit, a pair of surrogate escapes that of the pair's
    code point, a surrogate escape that no escape follows U+FFFD, and a
    surrogate escape followed by an escape with which it makes no pair
    nothing. The remainder is the slice after the opening quote, less its
    first bytes, as many as follow the closing quote; so it holds as many
    bytes as the loop read, the closing quote included. For the empty
    string, which is returned before the loop, the remainder is the text
    after its closing quote. *)
Theorem parseJSONString_token (r body v : bytes) (k : nat) :
  skipSpace r = dquote :: body ->
  readsToken body v k -> len v <= 4096 ->
  parseJSONString r
  = Ok v (if Byte.eqb (hd x00 body) dquote then skipn 1 body
          else skipn (length body - k) body)
  /\ (hd x00 body <> dquote ->
      length (skipn (length body - k) body) = k).
Proof.
  intros Hr Hreads Hlen. split.
  - unfold parseJSONString. rewrite Hr.
    destruct body as [|c1 tail]; [inversion Hreads|]. cbn [hd].
    change (Byte.eqb dquote dquote) with true. cbn [andb negb].
    destruct (Byte.eqb c1 dquote) eqn:E.
    + apply Byte.byte_dec_bl in E. subst c1.
      now destruct (readsToken_empty tail v k Hreads) as [-> _].
    + cbn [skipn].
      rewrite (loop_reads (c1 :: tail) (c1 :: tail) v k Hreads [] 0);
        [reflexivity | reflexivity | assumption | lia].
  - intros _. pose proof (readsToken_count body v k Hreads). rewrite length_skipn. lia.
Qed.

Lemma parseJSONString_token_witness :
  parseJSONString (lit " 'a\n\u00e9'} ")
  = Ok [x61; x0a; xc3; xa9] (lit "n\u00e9'} ").
Proof.
  refine (proj1 (parseJSONString_token (lit " 'a\n\u00e9'} ") (lit "a\n\u00e9'} ")
                   [x61; x0a; xc3; xa9] 10 _ _ _)).
  - reflexivity.
  - apply readsToken_ascii; [vm_compute; reflexivity | discriminate | discriminate |].
    apply (readsToken_escape x6e x0a); [reflexivity|].
    apply (readsToken_unicode (txt "00e9") 233 (lit "'} ") [] 1);
      [reflexivity | reflexivity | reflexivity |].
    apply readsToken_quote.
  - vm_compute. discriminate.
Defined.

(** ** Text written by the string reader is valid UTF-8 *)

Lemma encodings_app (a b : bytes) : encodings a -> encodings b -> encodings (a ++ b).
Proof.
  induction 1 as [|enc rest He _ IH]; intros Hb; [exact Hb|].
  rewrite <- app_assoc. constructor; [assumption | now apply IH].
Qed.

Lemma encodings_valid (p : bytes) :
  encodings p -> forall fuel, (length p <= fuel)%nat -> utf8_Valid_fuel fuel p = true.
Proof.
  induction 1 as [|enc rest [Hne He] _ IH]; intros fuel Hf; [now destruct fuel|].
  destruct (He rest) as (rn & Hd & Hok).
  rewrite length_app in Hf.
  assert (Hskip : skipn (length enc) (enc ++ rest) = rest).
  { rewrite skipn_app, skipn_all, Nat.sub_diag. reflexivity. }
  destruct enc as [|c enc]; [congruence|].
  destruct fuel as [|fuel]; [cbn [length] in Hf; lia|].
  cbn [app] in *. cbn [utf8_Valid_fuel]. rewrite Hd, Hok, Hskip.
  apply IH. cbn [length] in Hf. lia.
Qed.

Lemma byteZ_Zbyte (n : Z) : 0 <= n < 256 -> byteZ (Zbyte n) = n.
Proof.
  intros Hn. unfold Zbyte, byteZ. rewrite Z.mod_small by lia.
  destruct (Byte.of_N (Z.to_N n)) as [c|] eqn:E.
  - apply Byte.to_of_N in E. rewrite E. lia.
  - apply Byte.of_N_None_iff in E. lia.
Qed.

Lemma land_shiftl_low (a b m : Z) :
  0 <= m -> 0 <= b < 2 ^ m -> Z.land (Z.shiftl a m) b = 0.
Proof.
  intros Hm [Hb0 Hbm].
  destruct (Z.eq_dec b 0) as [->|Nb]; [apply Z.land_0_r|].
  apply Z.bits_inj'. intros n Hn.
  rewrite Z.land_spec, Z.bits_0.
  destruct (Z.ltb_spec n m).
  - rewrite Z.shiftl_spec_low by lia. reflexivity.
  - rewrite (Z.bits_above_log2 b n); [apply andb_false_r | exact Hb0 |].
    apply Z.lt_le_trans with m; [|assumption].
    apply Z.log2_lt_pow2; [lia | exact Hbm].
Qed.

(** A prefix byte with the low bits of the rune put in. *)
Lemma lor_prefix (a m x : Z) :
  0 <= m -> 0 <= x < 2 ^ m -> Z.lor (a * 2 ^ m) x = a * 2 ^ m + x.
Proof.
  intros Hm Hx. rewrite <- Z.shiftl_mul_pow2 by lia.
  pose proof (Z.add_lor_land (Z.shiftl a m) x) as Hadd.
  rewrite land_shiftl_low in Hadd by assumption. lia.
Qed.

Ltac decide_ranges :=
  repeat match goal with
         | |- context [Z.eqb ?a ?b] => destruct (Z.eqb_spec a b); try lia
         | |- context [Z.leb ?a ?b] => destruct (Z.leb_spec a b); try lia
         | |- context [Z.ltb ?a ?b] => destruct (Z.ltb_spec a b); try lia
         end.

(** [utf8.DecodeRune] on a lead byte and continuation bytes in range. *)
Lemma utf8_DecodeRune_two (c0 c1 : byte) (tail : bytes) :
  194 <= byteZ c0 <= 223 -> 128 <= byteZ c1 <= 191 ->
  snd (utf8_DecodeRune (c0 :: c1 :: tail)) = 2%nat.
Proof.
  intros H0 H1. unfold utf8_DecodeRune, inRange, isCont, inRange.
  decide_ranges; reflexivity.
Qed.

Lemma utf8_DecodeRune_three (c0 c1 c2 : byte) (tail : bytes) :
  224 <= byteZ c0 <= 239 -> 128 <= byteZ c1 <= 191 -> 128 <= byteZ c2 <= 191 ->
  (byteZ c0 = 224 -> 160 <= byteZ c1) -> (byteZ c0 = 237 -> byteZ c1 <= 159) ->
  snd (utf8_DecodeRune (c0 :: c1 :: c2 :: tail)) = 3%nat.
Proof.
  intros H0 H1 H2 Hlo Hhi. unfold utf8_DecodeRune, inRange, isCont, inRange.
  decide_ranges; reflexivity.
Qed.

Lemma utf8_DecodeRune_four (c0 c1 c2 c3 : byte) (tail : bytes) :
  240 <= byteZ c0 <= 244 -> 128 <= byteZ c1 <= 191 -> 128 <= byteZ c2 <= 191 ->
  128 <= byteZ c3 <= 191 ->
  (byteZ c0 = 240 -> 144 <= byteZ c1) -> (byteZ c0 = 244 -> byteZ c1 <= 143) ->
  snd (utf8_DecodeRune (c0 :: c1 :: c2 :: c3 :: tail)) = 4%nat.
Proof.
  intros H0 H1 H2 H3 Hlo Hhi. unfold utf8_DecodeRune, inRange, isCont, inRange.
  decide_ranges; reflexivity.
Qed.

(** An encoding of two bytes or more, once its size is known. *)
Lemma encodesOne_sized (enc : bytes) :
  (2 <= length enc)%nat ->
  (forall tail, snd (utf8_DecodeRune (enc ++ tail)) = length enc) ->
  encodesOne enc.
Proof.
  intros Hl Hs. split; [intros ->; cbn in Hl; lia|].
  intros tail. specialize (Hs tail).
  destruct (utf8_DecodeRune (enc ++ tail)) as [rn size]. cbn [snd] in Hs. subst size.
  exists rn. split; [reflexivity|].
  destruct (Nat.eqb_spec (length enc) 1); [lia | apply andb_false_r].
Qed.

Lemma encodesOne_rune (r : Z) : encodesOne (utf8_EncodeRune r).
Proof.
  assert (Hmain : forall x, 0 <= x <= 1114111 -> ~ (55296 <= x <= 57343) ->
            encodesOne
              (if Z.leb x 127 then [Zbyte x]
               else if Z.leb x 2047 then
                 [Zbyte (Z.lor 192 (Z.shiftr x 6)); Zbyte (Z.lor 128 (Z.land x 63))]
               else if Z.leb x 65535 then
                 [Zbyte (Z.lor 224 (Z.shiftr x 12));
                  Zbyte (Z.lor 128 (Z.land (Z.shiftr x 6) 63));
                  Zbyte (Z.lor 128 (Z.land x 63))]
               else
                 [Zbyte (Z.lor 240 (Z.shiftr x 18));
                  Zbyte (Z.lor 128 (Z.land (Z.shiftr x 12) 63));
                  Zbyte (Z.lor 128 (Z.land (Z.shiftr x 6) 63));
                  Zbyte (Z.lor 128 (Z.land x 63))])).
  { intros x Hx Hs.
    assert (H128 : forall y, Z.lor 128 (Z.land y 63) = 128 + y mod 64).
    { intros y. change 63 with (Z.ones 6). rewrite Z.land_ones by lia.
      change 128 with (2 * 2 ^ 6). apply lor_prefix; [lia|].
      apply Z.mod_pos_bound. lia. }
    assert (Hcont : forall y, 128 <= byteZ (Zbyte (128 + y mod 64)) <= 191).
    { intros y. pose proof (Z.mod_pos_bound y 64 ltac:(lia)).
      rewrite byteZ_Zbyte; lia. }
    rewrite !H128, !Z.shiftr_div_pow2 by lia.
    change (2 ^ 6) with 64. change (2 ^ 12) with 4096. change (2 ^ 18) with 262144.
    destruct (Z.leb_spec x 127).
    { split; [discriminate|]. intros tail. exists x.
      unfold utf8_DecodeRune. cbn [app]. rewrite byteZ_Zbyte by lia.
      destruct (Z.ltb_spec x 128); [|lia]. split; [reflexivity|].
      unfold RuneError. destruct (Z.eqb_spec x 65533); [lia | reflexivity]. }
    destruct (Z.leb_spec x 2047).
    { assert (H192 : Z.lor 192 (x / 64) = 192 + x / 64).
      { change 192 with (3 * 2 ^ 6). apply lor_prefix; [lia|].
        change (2 ^ 6) with 64. Z.div_mod_to_equations. lia. }
      rewrite H192. apply encodesOne_sized; [cbn [length]; lia|].
      intros tail. cbn [app length]. apply utf8_DecodeRune_two; [|apply Hcont].
      rewrite byteZ_Zbyte; Z.div_mod_to_equations; lia. }
    destruct (Z.leb_spec x 65535).
    { assert (H224 : Z.lor 224 (x / 4096) = 224 + x / 4096).
      { change 224 with (14 * 2 ^ 4). apply lor_prefix; [lia|].
        change (2 ^ 4) with 16. Z.div_mod_to_equations. lia. }
      rewrite H224. apply encodesOne_sized; [cbn [length]; lia|].
      intros tail. cbn [app length].
      assert (Hb0 : byteZ (Zbyte (224 + x / 4096)) = 224 + x / 4096)
        by (apply byteZ_Zbyte; Z.div_mod_to_equations; lia).
      assert (Hb1 : byteZ (Zbyte (128 + (x / 64) mod 64)) = 128 + (x / 64) mod 64)
        by (apply byteZ_Zbyte; Z.div_mod_to_equations; lia).
      apply utf8_DecodeRune_three; try apply Hcont; rewrite ?Hb0, ?Hb1;
        Z.div_mod_to_equations; lia. }
    assert (H240 : Z.lor 240 (x / 262144) = 240 + x / 262144).
    { change 240 with (30 * 2 ^ 3). apply lor_prefix; [lia|].
      change (2 ^ 3) with 8. Z.div_mod_to_equations. lia. }
    rewrite H240. apply encodesOne_sized; [cbn [length]; lia|].
    intros tail. cbn [app length].
    assert (Hb0 : byteZ (Zbyte (240 + x / 262144)) = 240 + x / 262144)
      by (apply byteZ_Zbyte; Z.div_mod_to_equations; lia).
    assert (Hb1 : byteZ (Zbyte (128 + (x / 4096) mod 64)) = 128 + (x / 4096) mod 64)
      by (apply byteZ_Zbyte; Z.div_mod_to_equations; lia).
    apply utf8_DecodeRune_four; try apply Hcont; rewrite ?Hb0, ?Hb1;
      Z.div_mod_to_equations; lia. }
  unfold utf8_EncodeRune.
  destruct (Z.leb_spec 0 r); [|apply (Hmain RuneError); unfold RuneError; lia].
  destruct (Z.leb_spec r 1114111); [|apply (Hmain RuneError); unfold RuneError; lia].
  destruct (Z.leb_spec 55296 r); cbn [andb negb];
    [|apply (Hmain r); lia].
  destruct (Z.leb_spec r 57343); cbn [negb];
    [apply (Hmain RuneError); unfold RuneError; lia | apply (Hmain r); lia].
Qed.

Lemma encodings_one (enc : bytes) : encodesOne enc -> encodings enc.
Proof.
  intros H. rewrite <- (app_nil_r enc). constructor; [assumption | constructor].
Qed.

Lemma encodesOne_ascii (b : byte) : byteZ b < 128 -> encodesOne [b].
Proof.
  intros Hb. rewrite <- (utf8_EncodeRune_ascii b Hb). apply encodesOne_rune.
Qed.

(** An iteration that goes on has written nothing, or one escaped ASCII
    byte, or the encoding of one rune. *)
Lemma parseJSONString_step_encodings (r : bytes) (st st' : strState) :
  encodings (st_value st) ->
  parseJSONString_step r st = Continue st' -> encodings (st_value st').
Proof.
  intros Hv. unfold parseJSONString_step.
  step_cases; try discriminate;
    intros [= <-]; cbn [st_value]; try assumption;
    apply encodings_app; try assumption; apply encodings_one;
    first [apply encodesOne_rune | apply encodesOne_ascii; vm_compute; reflexivity].
Qed.

Lemma parseJSONString_loop_encodings (fuel : nat) (r : bytes) (st : strState)
    (v rest : bytes) :
  encodings (st_value st) ->
  parseJSONString_loop fuel r st = Ok v rest -> encodings v.
Proof.
  revert st. induction fuel as [|fuel IH]; intros st Hv; cbn [parseJSONString_loop];
    [discriminate|].
  destruct (parseJSONString_step r st) as [st'|res] eqn:E.
  - apply IH. now apply (parseJSONString_step_encodings r st).
  - intros ->. apply parseJSONString_step_ok in E as [-> _]. assumption.
Qed.

(** X7. Every string that [parseJSONString] returns is valid UTF-8,
    whatever the bytes of the input: a byte that does not begin a
    well-formed encoding is read as U+FFFD and written as such. This is the
    property that [FuzzParseJSONString] tests. *)
Theorem parseJSONString_valid_utf8 (r v rest : bytes) :
  parseJSONString r = Ok v rest -> utf8_ValidString v = true.
Proof.
  intros Hp. unfold utf8_ValidString. apply encodings_valid; [|lia].
  revert Hp. rewrite parseJSONString_body.
  destruct (stringBody r) as [body|].
  - apply parseJSONString_loop_encodings. constructor.
  - destruct (skipSpace r) as [|c0 [|c1 tl]]; try discriminate.
    destruct (Byte.eqb c0 dquote && Byte.eqb c1 dquote); [|discriminate].
    intros [= <- _]. constructor.
Qed.

Lemma parseJSONString_valid_utf8_witness :
  utf8_ValidString [xef; xbf; xbd; x61; xef; xbf; xbd; xef; xbf; xbd] = true.
Proof.
  apply (parseJSONString_valid_utf8 [x22; xfe; x61; xe5; xff; x22; x20; x20; x20; x20; x20]
           [xef; xbf; xbd; x61; xef; xbf; xbd; xef; xbf; xbd] [x20; x20; x20; x20; x20]).
  vm_compute. reflexivity.
Defined.

(** ** Integers read and written back *)

Lemma decimalValue_snoc (ds : bytes) (d : byte) :
  decimalValue (ds ++ [d]) = 10 * decimalValue ds + (byteZ d - 48).
Proof. unfold decimalValue. now rewrite fold_left_app. Qed.

Lemma decimalValue_leading (c : byte) (ds : bytes) :
  Forall (fun c => isDigit c = true) (c :: ds) ->
  byteZ c - 48 <= decimalValue (c :: ds).
Proof.
  intros H. inversion H as [|? ? Hc Hds]; subst. unfold decimalValue. cbn [fold_left].
  destruct (isDigit_digitVal c Hc) as [_ Hr].
  etransitivity; [|apply decimal_fold_lower]; [lia | assumption | lia].
Qed.

Lemma decimalValue_zeros (zs ds : bytes) :
  Forall (eq x30) zs -> decimalValue (zs ++ ds) = decimalValue ds.
Proof.
  intros H. unfold decimalValue. rewrite fold_left_app. f_equal.
  induction H as [|z zs <- _ IH]; [reflexivity | exact IH].
Qed.

(** A numeral without leading zeros is what [strconv.FormatInt] writes for
    its value. *)
Lemma decimalDigits_numeral (ds : bytes) :
  Forall (fun c => isDigit c = true) ds -> ds <> [] ->
  (ds = [x30] \/ hd x30 ds <> x30) ->
  forall (fuel : nat) (acc : bytes), (length ds <= fuel)%nat ->
    decimalDigits fuel (decimalValue ds) acc = ds ++ acc.
Proof.
  induction ds as [|d ds0 IH] using rev_ind; [congruence|].
  intros Hd _ Hcanon fuel acc Hf.
  apply Forall_app in Hd as [Hd0 Hd1]. inversion Hd1 as [|? ? Hdd _]; subst.
  destruct (isDigit_digitVal d Hdd) as [_ Hr].
  rewrite length_app in Hf. cbn [length] in Hf.
  destruct fuel as [|fuel]; [lia|].
  rewrite decimalValue_snoc. cbn [decimalDigits].
  assert (H0 : 0 <= decimalValue ds0)
    by (apply (decimal_fold_lower ds0 0 Hd0); lia).
  assert (Hmod : (10 * decimalValue ds0 + (byteZ d - 48)) mod 10 = byteZ d - 48)
    by (Z.div_mod_to_equations; lia).
  assert (Hdiv : (10 * decimalValue ds0 + (byteZ d - 48)) / 10 = decimalValue ds0)
    by (Z.div_mod_to_equations; lia).
  rewrite Hmod, Hdiv.
  replace (48 + (byteZ d - 48)) with (byteZ d) by lia. rewrite Zbyte_byteZ.
  destruct ds0 as [|c ds1].
  - change (decimalValue []) with 0.
    destruct (Z.ltb_spec (10 * 0 + (byteZ d - 48)) 10); [reflexivity | lia].
  - assert (Hc : hd x30 (c :: ds1) <> x30).
    { destruct Hcanon as [E|N]; [|exact N].
      destruct ds1; discriminate E. }
    cbn [hd] in Hc.
    assert (Hlead : 1 <= decimalValue (c :: ds1)).
    { pose proof (decimalValue_leading c ds1 Hd0) as Hl.
      inversion Hd0 as [|? ? Hcc _]; subst.
      destruct (isDigit_digitVal c Hcc) as [_ Hrc].
      assert (byteZ c <> 48).
      { intros E. apply Hc. apply byteZ_inj. rewrite E. reflexivity. }
      lia. }
    destruct (Z.ltb_spec (10 * decimalValue (c :: ds1) + (byteZ d - 48)) 10); [lia|].
    rewrite IH; [now rewrite <- app_assoc | assumption | discriminate | now right | lia].
Qed.

(** A run of digits is zeros followed by a numeral without leading zeros. *)
Lemma digits_numeral (ds : bytes) :
  ds <> [] ->
  exists zs num, ds = zs ++ num /\ Forall (eq x30) zs /\ num <> []
                 /\ (num = [x30] \/ hd x30 num <> x30).
Proof.
  induction ds as [|c ds IH]; [congruence|]. intros _.
  destruct (byte_eq_dec c x30) as [->|N].
  - destruct ds as [|c' ds'].
    + exists [], [x30]. repeat split; [constructor | discriminate | now left].
    + destruct (IH ltac:(discriminate)) as (zs & num & E & Hz & Hne & Hc).
      exists (x30 :: zs), num. rewrite E. repeat split; try assumption.
      now constructor.
  - exists [], (c :: ds). repeat split; [constructor | discriminate | now right].
Qed.

(** X8. A number that [parseJSONInt64] returns is not negative, and the
    input is, after blanks, some zeros, then the number as
    [strconv.FormatInt] writes it, then the remainder returned. In
    particular the input holds the decimal text of the number, which is
    what [FuzzParseJSONInt64] tests. *)
Theorem parseJSONInt64_round_trip (r : bytes) (n : Z) (rest : bytes) :
  parseJSONInt64 r = Ok n rest ->
  0 <= n <= maxInt64
  /\ exists zeros,
       Forall (eq x30) zeros
       /\ skipSpace r = zeros ++ strconv_FormatInt_10 n ++ rest.
Proof.
  unfold parseJSONInt64.
  rewrite parseJSONInt64_loop_spec by (change (len []) with 0; lia).
  change (len []) with 0. rewrite Z.add_0_l. cbn [app Nat.add].
  pose proof (digitRun_digits (skipSpace r)) as Hd.
  pose proof (digitRun_afterDigits (skipSpace r)) as Hs.
  pose proof (skipn_digitRun (skipSpace r)) as Hskip.
  set (run := digitRun (skipSpace r)) in *.
  destruct (Z.leb (len run) 19 || _) eqn:Hcond; [|discriminate].
  assert (Hlen : (length run <= 20)%nat).
  { apply orb_true_iff in Hcond as [H|H].
    - apply Z.leb_le in H. unfold len in H. lia.
    - apply andb_true_iff in H as [H _]. apply Z.eqb_eq in H. unfold len in H. lia. }
  rewrite (ParseInt_digits run Hd).
  destruct run as [|c run'] eqn:Erun; [discriminate|].
  destruct (Z.ltb_spec maxInt64 (decimalValue (c :: run'))) as [|Hmax]; [discriminate|].
  rewrite Hskip. intros [= <- <-].
  destruct (digits_numeral (c :: run') ltac:(discriminate))
    as (zs & num & E & Hz & Hne & Hcanon).
  assert (Hnum : Forall (fun c => isDigit c = true) num).
  { rewrite E in Hd. now apply Forall_app in Hd as [_ Hd]. }
  assert (H0 : 0 <= decimalValue num)
    by (apply (decimal_fold_lower num 0 Hnum); lia).
  rewrite E, (decimalValue_zeros zs num Hz) in *.
  split; [lia|]. exists zs. split; [assumption|].
  unfold strconv_FormatInt_10. destruct (Z.ltb_spec (decimalValue num) 0); [lia|].
  rewrite (decimalDigits_numeral num Hnum Hne Hcanon 20 []).
  - rewrite app_nil_r, app_assoc. now rewrite Hs.
  - rewrite length_app in Hlen. lia.
Qed.

Lemma parseJSONInt64_round_trip_witness :
  0 <= 181 <= maxInt64
  /\ exists zeros,
       Forall (eq x30) zeros
       /\ skipSpace (txt "  00181,") = zeros ++ strconv_FormatInt_10 181 ++ txt ",".
Proof.
  apply (parseJSONInt64_round_trip (txt "  00181,") 181 (txt ",")).
  vm_compute. reflexivity.
Defined.

(** ** Arrays of integers *)

Lemma skipSpace_blanks (sp r : bytes) :
  Forall (fun c => isSpace c = true) sp -> skipSpace (sp ++ r) = skipSpace r.
Proof. induction 1 as [|c sp Hc _ IH]; [reflexivity|]. cbn. now rewrite Hc. Qed.

Lemma isDigit_not_space (c : byte) : isDigit c = true -> isSpace c = false.
Proof. destruct c; cbv; congruence. Qed.

Lemma digitRun_numeral (num rest : bytes) :
  Forall (fun c => isDigit c = true) num ->
  isDigit (hd x00 rest) = false ->
  digitRun (num ++ rest) = num /\ afterDigits (num ++ rest) = rest.
Proof.
  intros Hn Hr. induction Hn as [|c num Hc _ [IH1 IH2]].
  - destruct rest as [|c rest]; [now split|]. cbn in *. now rewrite Hr.
  - cbn. rewrite Hc. now rewrite IH1, IH2.
Qed.

(** A numeral followed by a byte that is no digit. *)
Lemma parseJSONInt64_numeral (num rest : bytes) :
  num <> [] -> Forall (fun c => isDigit c = true) num ->
  (length num <= 19)%nat -> decimalValue num <= maxInt64 ->
  isDigit (hd x00 rest) = false ->
  parseJSONInt64 (num ++ rest) = Ok (decimalValue num) rest.
Proof.
  intros Hne Hd Hl Hv Hr. unfold parseJSONInt64.
  assert (Hs : skipSpace (num ++ rest) = num ++ rest).
  { destruct num as [|c num]; [congruence|]. inversion Hd; subst.
    cbn [app]. apply skipSpace_fixed. now apply isDigit_not_space. }
  rewrite Hs, parseJSONInt64_loop_spec by (change (len []) with 0; lia).
  destruct (digitRun_numeral num rest Hd Hr) as [-> Ha].
  pose proof (skipn_digitRun (num ++ rest)) as Hskip.
  destruct (digitRun_numeral num rest Hd Hr) as [Hrun _].
  rewrite Hrun, Ha in Hskip.
  change (len []) with 0. cbn [app Nat.add]. rewrite Z.add_0_l.
  destruct (Z.leb_spec (len num) 19) as [_|Hgt]; [|unfold len in Hgt; lia].
  cbn [orb]. rewrite (ParseInt_digits num Hd).
  destruct num as [|c num]; [congruence|].
  destruct (Z.ltb_spec maxInt64 (decimalValue (c :: num))); [lia|].
  now rewrite Hskip.
Qed.

Lemma spaced_head (items : list (bytes * bytes)) (endc : byte) (tail : bytes) :
  Forall spacedNumeral items -> isDigit endc = false ->
  isDigit (hd x00 (spaced items ++ endc :: tail)) = false.
Proof.
  intros Hitems Hend.
  destruct Hitems as [|[sp num] items' (Hne & Hsp & _) _]; [exact Hend|].
  unfold spaced. cbn [map concat fst snd].
  destruct sp as [|c sp]; [congruence|]. inversion Hsp as [|? ? Hc _]; subst.
  cbn [app hd]. destruct (isDigit c) eqn:E; [|reflexivity].
  apply isDigit_not_space in E. congruence.
Qed.

Lemma parseJSONArray_loop_integers (items : list (bytes * bytes)) :
  Forall spacedNumeral items ->
  forall (els : list any) (fuel : nat) (tail : bytes),
    (length items + 2 <= fuel)%nat ->
    parseJSONArray_loop fuel els (spaced items ++ x5d :: tail)
    = Ok (els ++ map (fun item => AInt64 (decimalValue (snd item))) items) (x5d :: tail)
    /\ parseJSONArray_loop fuel els (spaced items ++ x2c :: tail)
       = Err (errSyntax (txt "ParseInt") []).
Proof.
  induction 1 as [|[sp num] items Hitem Hitems IH]; intros els fuel tail Hf.
  - cbn [length] in Hf. destruct fuel as [|[|fuel]]; [lia..|].
    unfold spaced. cbn [map concat app]. split.
    + cbn [parseJSONArray_loop]. change (Byte.eqb x5d x5d) with true. cbn iota.
      now rewrite app_nil_r.
    + cbn [parseJSONArray_loop parseJSONElement_fuel].
      change (Byte.eqb x2c x5d) with false. cbn iota.
      rewrite skipSpace_fixed by reflexivity.
      change (Byte.eqb x2c x7b) with false. change (Byte.eqb x2c x5b) with false.
      change (Byte.eqb x2c dquote) with false.
      change (Byte.eqb x2c x74 || Byte.eqb x2c x66) with false. cbn iota.
      now rewrite parseJSONInt64_no_digit by reflexivity.
  - cbn [length] in Hf. destruct fuel as [|[|fuel]]; [lia..|].
    destruct Hitem as (Hne & Hsp & Hnn & Hd & Hl & Hv).
    assert (Hstep : forall endc, isDigit endc = false ->
              parseJSONArray_loop (S (S fuel)) els
                (spaced ((sp, num) :: items) ++ endc :: tail)
              = parseJSONArray_loop (S fuel)
                  (els ++ [AInt64 (decimalValue num)]) (spaced items ++ endc :: tail)).
    { intros endc Hend. unfold spaced. cbn [map concat fst snd].
      fold (spaced items). rewrite <- !app_assoc.
      destruct sp as [|c sp]; [congruence|]. inversion Hsp as [|? ? Hc Hsp']; subst.
      cbn [app]. cbn [parseJSONArray_loop].
      assert (Ec : Byte.eqb c x5d = false).
      { destruct (Byte.eqb c x5d) eqn:E; [|reflexivity].
        apply Byte.byte_dec_bl in E. subst c. discriminate Hc. }
      rewrite Ec. cbn [parseJSONElement_fuel].
      change (c :: sp ++ num ++ spaced items ++ endc :: tail)
        with ((c :: sp) ++ num ++ spaced items ++ endc :: tail).
      rewrite (skipSpace_blanks (c :: sp)) by assumption.
      destruct num as [|d num]; [congruence|]. inversion Hd as [|? ? Hdd Hd']; subst.
      cbn [app]. rewrite skipSpace_fixed by now apply isDigit_not_space.
      assert (Hnb : forall b, isDigit b = false -> Byte.eqb d b = false).
      { intros b Hb. destruct (Byte.eqb d b) eqn:E; [|reflexivity].
        apply Byte.byte_dec_bl in E. subst d. congruence. }
      rewrite !Hnb by reflexivity. cbn [orb].
      change (d :: num ++ spaced items ++ endc :: tail)
        with ((d :: num) ++ spaced items ++ endc :: tail).
      rewrite (parseJSONInt64_numeral (d :: num) _ Hnn Hd Hl Hv
                 (spaced_head items endc tail Hitems Hend)).
      reflexivity. }
    rewrite !Hstep by reflexivity.
    destruct (IH (els ++ [AInt64 (decimalValue num)]) (S fuel) tail ltac:(lia)) as [-> ->].
    split; [|reflexivity]. cbn [map snd]. now rewrite <- app_assoc.
Qed.

(** X9. [parseJSONArray] on integers. Elements are separated by blanks: an
    array of numerals, each after at least one blank, is read to the list
    of their values, and the remainder begins with the closing bracket. A
    comma after an element, as JSON has it, is taken for the start of the
    next element and rejected with the syntax error of [strconv.ParseInt]:
    no array with a comma in this place is read. *)
Theorem parseJSONArray_integers (items : list (bytes * bytes)) (tail : bytes) :
  Forall spacedNumeral items ->
  parseJSONArray (x5b :: spaced items ++ x5d :: tail)
  = Ok (map (fun item => AInt64 (decimalValue (snd item))) items) (x5d :: tail)
  /\ parseJSONArray (x5b :: spaced items ++ x2c :: tail)
     = Err (errSyntax (txt "ParseInt") []).
Proof.
  intros Hitems.
  assert (Hlen : forall endc, (length items <= length (spaced items ++ endc :: tail))%nat).
  { intros endc. rewrite length_app.
    enough (length items <= length (spaced items))%nat by lia.
    induction Hitems as [|[sp num] items (Hne & _) _ IH]; cbn [length]; [lia|].
    unfold spaced in *. cbn [map concat fst snd]. rewrite !length_app.
    destruct sp; [congruence|]. cbn [length]. lia. }
  assert (Hgo : forall endc,
            parseJSONArray (x5b :: spaced items ++ endc :: tail)
            = parseJSONArray_loop (3 * length (x5b :: spaced items ++ endc :: tail) + 2)
                [] (spaced items ++ endc :: tail)).
  { intros endc. unfold parseJSONArray, fuelFor.
    replace (3 * length (x5b :: spaced items ++ endc :: tail) + 3)%nat
      with (S (3 * length (x5b :: spaced items ++ endc :: tail) + 2)) by lia.
    cbn [parseJSONArray_fuel]. rewrite skipSpace_fixed by reflexivity.
    destruct (spaced items ++ endc :: tail) as [|c l] eqn:E.
    { destruct (spaced items); discriminate E. }
    change (Byte.eqb x5b x5b) with true. cbn [negb skipn]. reflexivity. }
  rewrite !Hgo.
  split.
  - destruct (parseJSONArray_loop_integers items Hitems []
                (3 * length (x5b :: spaced items ++ x5d :: tail) + 2) tail) as [-> _];
      [|reflexivity].
    specialize (Hlen x5d). cbn [length]. lia.
  - destruct (parseJSONArray_loop_integers items Hitems []
                (3 * length (x5b :: spaced items ++ x2c :: tail) + 2) tail) as [_ ->];
      [|reflexivity].
    specialize (Hlen x2c). cbn [length]. lia.
Qed.

Lemma parseJSONArray_integers_witness :
  parseJSONArray (txt "[ 181  182] ") = Ok [AInt64 181; AInt64 182] (txt "] ")
  /\ parseJSONArray (txt "[ 181  182, 183]")
     = Err (errSyntax (txt "ParseInt") []).
Proof.
  apply (parseJSONArray_integers [(txt " ", txt "181"); (txt "  ", txt "182")]).
  repeat constructor; try discriminate; vm_compute; congruence.
Defined.

(** ** The wire: requests, reads and messages *)

Lemma List_last_snoc (l : bytes) (c d : byte) : List.last (l ++ [c]) d = c.
Proof. apply last_last. Qed.

Lemma marshalJSON_last (call : userdbCall) :
  List.last (userdbCall_marshalJSON call) x01 = x7d.
Proof.
  unfold userdbCall_marshalJSON. rewrite !app_assoc.
  change (lit "}") with [x7d]. apply List_last_snoc.
Qed.

Lemma splitNul_plain (m : bytes) : x00 ∉ m -> splitNul m = [m].
Proof.
  induction m as [|c m IH]; intros Hm; [reflexivity|].
  apply not_elem_of_cons in Hm as [Hc Hm]. cbn [splitNul].
  rewrite byte_eqb_false by congruence. now rewrite IH.
Qed.

Lemma splitNul_message (m rest : bytes) :
  x00 ∉ m -> splitNul (m ++ x00 :: rest) = m :: splitNul rest.
Proof.
  induction m as [|c m IH]; intros Hm; [reflexivity|].
  apply not_elem_of_cons in Hm as [Hc Hm]. cbn [app splitNul].
  rewrite byte_eqb_false by congruence. now rewrite IH.
Qed.

Lemma frame_nonEmpty (msgs : list bytes) : msgs <> [] -> frame msgs <> [].
Proof.
  destruct msgs as [|m msgs]; [congruence|]. intros _. unfold frame.
  cbn [map concat]. destruct m; discriminate.
Qed.

(** Splitting undoes framing. *)
Lemma splitNul_frame (msgs : list bytes) :
  msgs <> [] -> Forall (fun m => x00 ∉ m) msgs ->
  splitNul (removelast (frame msgs)) = msgs.
Proof.
  intros Hne H. induction H as [|m msgs Hm Hmsgs IH]; [congruence|].
  unfold frame. cbn [map concat]. fold (frame msgs).
  destruct msgs as [|m' msgs'].
  - cbn [frame map concat]. rewrite app_nil_r, removelast_last.
    now apply splitNul_plain.
  - rewrite removelast_app by (apply frame_nonEmpty; discriminate).
    rewrite <- app_assoc. cbn [app]. rewrite splitNul_message by assumption.
    now rewrite IH.
Qed.

(** The read loop goes on over reads that do not end in NUL, and stops at
    the first that does, or at the first that returns nothing. *)
Lemma readLoop_chunks (pre : list bytes) (resp : bytes) (script : list readStep) :
  Forall openChunk pre ->
  readLoop (map RChunk pre ++ script) resp = readLoop script (resp ++ concat pre).
Proof.
  intros H. revert resp. induction H as [|d pre [Hne Hlast] _ IH]; intros resp.
  - now rewrite app_nil_r.
  - cbn [map app readLoop concat]. rewrite (nonEmpty_true d Hne).
    rewrite byte_eqb_false by assumption. rewrite IH. now rewrite app_assoc.
Qed.

Lemma readLoop_last (resp data : bytes) (later : list readStep) :
  readLoop (RChunk (data ++ [x00]) :: later) resp = inr (resp ++ data ++ [x00]).
Proof.
  cbn [readLoop]. rewrite nonEmpty_true by (destruct data; discriminate).
  now rewrite List_last_snoc.
Qed.

(** X10. What goes over the socket. The request is the serialised call
    followed by one NUL byte. When the peer's answer is a stream of
    NUL-terminated messages, read in any number of pieces of which only the
    last ends in NUL, [query] works on exactly these messages; a read after
    that piece is never made. When the peer closes without a final NUL, the
    last byte of what it sent is cut off all the same. *)
Theorem query_wire_format {U : Type} `{userdbParamsUnmarshaler U}
    (net : network) (cl : userdbClient) (call : userdbCall) (u : U) :
  let conn := connectionOf net cl call in
  terminated (userdbCall_marshalJSON call) = userdbCall_marshalJSON call ++ [x00]
  /\ (forall msgs pre data later,
        socketErr conn = None -> connectErr conn = None ->
        writeLoop (writes conn) (length (userdbCall_marshalJSON call ++ [x00])) 0 = None ->
        reads conn = map RChunk pre ++ RChunk (data ++ [x00]) :: later ->
        Forall openChunk pre ->
        concat pre ++ data ++ [x00] = frame msgs ->
        msgs <> [] -> Forall (fun m => x00 ∉ m) msgs ->
        query net cl call u = dispatch msgs u)
  /\ (forall pre m c,
        socketErr conn = None -> connectErr conn = None ->
        writeLoop (writes conn) (length (userdbCall_marshalJSON call ++ [x00])) 0 = None ->
        reads conn = map RChunk pre ++ [RChunk []] ->
        Forall openChunk pre ->
        concat pre = m ++ [c] -> x00 ∉ m ->
        query net cl call u = dispatch [m] u).
Proof.
  intros conn.
  assert (Hterm : terminated (userdbCall_marshalJSON call)
                  = userdbCall_marshalJSON call ++ [x00]).
  { unfold terminated. now rewrite marshalJSON_last. }
  split; [exact Hterm|]. split.
  - intros msgs pre data later Hs Hc Hw Hr Hpre Hframe Hne Hnul.
    rewrite (query_received net cl call u (frame msgs)).
    + unfold dispatch. now rewrite splitNul_frame.
    + repeat split; try assumption; fold conn; [now rewrite Hterm|].
      rewrite Hr, readLoop_chunks by assumption. rewrite readLoop_last.
      cbn [app]. now rewrite Hframe.
    + now apply frame_nonEmpty.
  - intros pre m c Hs Hc Hw Hr Hpre Hcat Hnul.
    rewrite (query_received net cl call u (m ++ [c])).
    + unfold dispatch. rewrite removelast_last. now rewrite splitNul_plain.
    + repeat split; try assumption; fold conn; [now rewrite Hterm|].
      rewrite Hr, readLoop_chunks by assumption. cbn [readLoop nonEmpty app].
      now rewrite Hcat.
    + destruct m; discriminate.
Qed.

Lemma query_wire_format_witness :
  query (fun _ _ => mkConnection None None []
                      [RChunk (firstn 40 noRecordMessage);
                       RChunk (skipn 40 noRecordMessage ++ [x00]);
                       RFail (txt "never read")])
    testClient (groupCall (txt "stdlibcontrib")) groupRecord_zero
  = dispatch [noRecordMessage] groupRecord_zero.
Proof.
  refine (proj1 (proj2 (query_wire_format (U := groupRecord) _ testClient
                          (groupCall (txt "stdlibcontrib")) groupRecord_zero))
            [noRecordMessage] [firstn 40 noRecordMessage] (skipn 40 noRecordMessage)
            [RFail (txt "never read")] _ _ _ _ _ _ _ _).
  - reflexivity.
  - reflexivity.
  - reflexivity.
  - reflexivity.
  - constructor; [|constructor]. split; vm_compute; discriminate.
  - vm_compute. reflexivity.
  - discriminate.
  - constructor; [|constructor]. refine (bool_decide_unpack (x00 ∉ noRecordMessage) _). vm_compute. exact I.
Defined.

(** ** The loop over the messages *)

Lemma isData_dataMessage (m : bytes) (continues : bool) :
  isData m continues = true -> dataMessage m (parametersOf m) continues.
Proof.
  unfold isData, parametersOf, dataMessage.
  destruct (userdbReply_unmarshal userdbReply_zero m) as [[resp [e|]]|];
    try discriminate.
  intros Hb. apply andb_true_iff in Hb as [He Hc].
  apply bool_decide_eq_true in He. apply Bool.eqb_prop in Hc.
  exists resp. now repeat split.
Qed.

Lemma parseMessages_goesOn (pre : list bytes) (kept : list (option jsonObject))
    (rest : list bytes) (acc : list jsonObject) :
  Forall2 goesOn pre kept ->
  parseMessages (pre ++ rest) acc = parseMessages rest (acc ++ omap id kept).
Proof.
  intros H. revert acc. induction H as [|m k pre kept Hm _ IH]; intros acc.
  - cbn. now rewrite app_nil_r.
  - cbn [app parseMessages]. destruct k as [p|].
    + destruct Hm as (resp & -> & He & <- & Hc). rewrite He, Hc.
      rewrite bytes_Equal_true by reflexivity. cbn [negb].
      rewrite IH. cbn [omap id]. now rewrite <- app_assoc.
    + destruct Hm as (resp & -> & He). rewrite He.
      rewrite bytes_Equal_false by discriminate.
      rewrite bytes_Equal_true by reflexivity. now rewrite IH.
Qed.

(** X11. The loop of [query] over the messages of a response: it goes past
    every NoRecordFound message, keeps the parameters of every message
    without error, in the order of the stream, and stops at the first such
    message that has no continues flag; what follows that message is not
    decoded. The unmarshaler is handed the parameters kept, also when the
    stream ends before a final message. *)
Theorem dispatch_gathers {U : Type} `{userdbParamsUnmarshaler U}
    (pre : list bytes) (kept : list (option jsonObject)) (u : U) :
  Forall2 goesOn pre kept ->
  (forall m p post,
      dataMessage m p false ->
      dispatch (pre ++ m :: post) u
      = let '(u', err) := unmarshalParameters u (omap id kept ++ [p]) in
        Ret (u', true, err))
  /\ dispatch pre u
     = let '(u', err) := unmarshalParameters u (omap id kept) in Ret (u', true, err).
Proof.
  intros Hpre. split.
  - intros m p post (resp & Hu & He & <- & Hc). unfold dispatch.
    rewrite (parseMessages_goesOn pre kept _ [] Hpre). cbn [app parseMessages].
    rewrite Hu, He, Hc. rewrite bytes_Equal_true by reflexivity. reflexivity.
  - unfold dispatch. rewrite <- (app_nil_r pre).
    rewrite (parseMessages_goesOn pre kept [] [] Hpre). reflexivity.
Qed.

Lemma dispatch_gathers_witness :
  dispatch ([noRecordMessage; membershipReply1] ++ membershipReply2 :: [lit "{"])
    memberships_zero
  = let '(u', err) :=
      unmarshalParameters memberships_zero
        (omap id [None; Some (parametersOf membershipReply1)]
         ++ [parametersOf membershipReply2]) in
    Ret (u', true, err).
Proof.
  refine (proj1 (dispatch_gathers (U := memberships)
                   [noRecordMessage; membershipReply1]
                   [None; Some (parametersOf membershipReply1)] memberships_zero _)
            membershipReply2 (parametersOf membershipReply2) [lit "{"] _).
  - constructor; [|constructor; [|constructor]].
    + exists (mkUserdbReply errNoRecordFound false ∅). split; vm_compute; reflexivity.
    + apply isData_dataMessage. vm_compute. reflexivity.
  - apply isData_dataMessage. vm_compute. reflexivity.
Defined.

(** ** Names that the service does not know, and a peer that says nothing *)

Lemma parseMessages_noRecord (msgs : list bytes) (acc : list jsonObject) :
  Forall noRecord msgs -> parseMessages msgs acc = Ret (Gathered acc).
Proof.
  intros H. revert acc. induction H as [|m msgs (resp & Hu & He) _ IH]; intros acc;
    [reflexivity|].
  cbn [parseMessages]. rewrite Hu, He.
  rewrite bytes_Equal_false by discriminate.
  rewrite bytes_Equal_true by reflexivity. apply IH.
Qed.

Lemma noRecordWire_not_decoded :
  exists reply,
    userdbReply_unmarshal userdbReply_zero noRecordWire
    = Ret (reply, Some (txt "expected colon, got invalid character: o")).
Proof. eexists. vm_compute. reflexivity. Qed.

(** X12. A lookup of a name or id that the service does not know does not
    end as not found. When the first message of the response is the
    NoRecordFound reply as a service writes it, the reader does not decode
    it (the remainder after the key error starts inside the code), and the
    lookups of group and user records are handled and fail with the
    reader's error. When the messages are laid out so that the reader
    decodes them and every one carries NoRecordFound, the loop of [query]
    leaves no parameters, the unmarshalers reject the empty list, and the
    lookups are handled and fail with "unexpected userdb reply". *)
Theorem lookup_of_unknown_record (net : network) (cl : userdbClient) :
  (forall gid groupname resp msgs,
      received (connectionOf net cl (mkUserdbCall mGetGroupRecord
                  (mkCallParameters None [] gid groupname) false))
        (mkUserdbCall mGetGroupRecord (mkCallParameters None [] gid groupname) false)
        resp ->
      resp <> [] -> splitNul (removelast resp) = noRecordWire :: msgs ->
      queryGroupDb net cl gid groupname
      = Ret (None, true,
             Some (txt "error querying systemd-userdb group record: expected colon, got invalid character: o")))
  /\ (forall uid username resp msgs,
      received (connectionOf net cl (mkUserdbCall mGetUserRecord
                  (mkCallParameters uid username None []) false))
        (mkUserdbCall mGetUserRecord (mkCallParameters uid username None []) false)
        resp ->
      resp <> [] -> splitNul (removelast resp) = noRecordWire :: msgs ->
      queryUserDb net cl uid username
      = Ret (None, true,
             Some (txt "error querying systemd-userdb user record: expected colon, got invalid character: o")))
  /\ (forall gid groupname resp,
      received (connectionOf net cl (mkUserdbCall mGetGroupRecord
                  (mkCallParameters None [] gid groupname) false))
        (mkUserdbCall mGetGroupRecord (mkCallParameters None [] gid groupname) false)
        resp ->
      resp <> [] -> Forall noRecord (splitNul (removelast resp)) ->
      queryGroupDb net cl gid groupname
      = Ret (None, true,
             Some (txt "error querying systemd-userdb group record: unexpected userdb reply")))
  /\ (forall uid username resp,
      received (connectionOf net cl (mkUserdbCall mGetUserRecord
                  (mkCallParameters uid username None []) false))
        (mkUserdbCall mGetUserRecord (mkCallParameters uid username None []) false)
        resp ->
      resp <> [] -> Forall noRecord (splitNul (removelast resp)) ->
      queryUserDb net cl uid username
      = Ret (None, true,
             Some (txt "error querying systemd-userdb user record: unexpected userdb reply"))).
Proof.
  destruct noRecordWire_not_decoded as [reply Hwire].
  split; [|split; [|split]].
  - intros gid groupname resp msgs Hrecv Hne Hsplit. unfold queryGroupDb.
    rewrite (query_received net cl _ groupRecord_zero resp Hrecv Hne), Hsplit.
    cbn [parseMessages]. rewrite Hwire. reflexivity.
  - intros uid username resp msgs Hrecv Hne Hsplit. unfold queryUserDb.
    rewrite (query_received net cl _ userRecord_zero resp Hrecv Hne), Hsplit.
    cbn [parseMessages]. rewrite Hwire. reflexivity.
  - intros gid groupname resp Hrecv Hne Hall. unfold queryGroupDb.
    rewrite (query_received net cl _ groupRecord_zero resp Hrecv Hne).
    rewrite (parseMessages_noRecord _ [] Hall). reflexivity.
  - intros uid username resp Hrecv Hne Hall. unfold queryUserDb.
    rewrite (query_received net cl _ userRecord_zero resp Hrecv Hne).
    rewrite (parseMessages_noRecord _ [] Hall). reflexivity.
Qed.

(** The reply of a service that does not know the group nobody. *)
Lemma lookup_of_unknown_record_witness :
  queryGroupDb (replyWith (noRecordWire ++ [x00])) testClient None (txt "nobody")
  = Ret (None, true,
         Some (txt "error querying systemd-userdb group record: expected colon, got invalid character: o")).
Proof.
  refine (proj1 (lookup_of_unknown_record (replyWith (noRecordWire ++ [x00])) testClient)
            None (txt "nobody") (noRecordWire ++ [x00]) [] _ _ _).
  - repeat split.
  - discriminate.
  - rewrite removelast_last. vm_compute. reflexivity.
Defined.

(** X13. When the peer closes the connection without sending a byte,
    [query] returns handled and no error without calling the unmarshaler,
    and the lookups build their answer from the untouched record: a group
    with an empty name and gid "0", a user with empty names and uid and
    gid "0". *)
Theorem lookup_on_silent_peer (net : network) (cl : userdbClient) :
  (forall gid groupname,
      received (connectionOf net cl (mkUserdbCall mGetGroupRecord
                  (mkCallParameters None [] gid groupname) false))
        (mkUserdbCall mGetGroupRecord (mkCallParameters None [] gid groupname) false)
        [] ->
      queryGroupDb net cl gid groupname
      = Ret (Some (mkGroup [] (txt "0")), true, None))
  /\ (forall uid username,
      received (connectionOf net cl (mkUserdbCall mGetUserRecord
                  (mkCallParameters uid username None []) false))
        (mkUserdbCall mGetUserRecord (mkCallParameters uid username None []) false)
        [] ->
      queryUserDb net cl uid username
      = Ret (Some (mkUser (txt "0") (txt "0") [] [] []), true, None)).
Proof.
  split.
  - intros gid groupname (Hs & Hc & Hw & Hr). unfold queryGroupDb, query, roundTrip.
    unfold connectionOf in *. rewrite Hs, Hc, marshalJSON_nonEmpty. cbn [negb].
    rewrite Hw, Hr. reflexivity.
  - intros uid username (Hs & Hc & Hw & Hr). unfold queryUserDb, query, roundTrip.
    unfold connectionOf in *. rewrite Hs, Hc, marshalJSON_nonEmpty. cbn [negb].
    rewrite Hw, Hr. reflexivity.
Qed.

Lemma lookup_on_silent_peer_witness :
  queryUserDb (serveUserdb []) testClient None (txt "stdlibcontrib")
  = Ret (Some (mkUser (txt "0") (txt "0") [] [] []), true, None).
Proof.
  apply (proj2 (lookup_on_silent_peer (serveUserdb []) testClient) None
           (txt "stdlibcontrib")).
  repeat split.
Defined.

(** ** The membership map *)

Lemma listed_insert (gu : gmap bytes (gset bytes)) (groupName userName g u : bytes) :
  listed match gu !! groupName with
         | Some users => <[groupName := {[userName]} ∪ users]> gu
         | None => <[groupName := {[userName]}]> gu
         end g u
  <-> listed gu g u \/ (g = groupName /\ u = userName).
Proof.
  unfold listed. destruct (decide (g = groupName)) as [->|Ng].
  - destruct (gu !! groupName) as [users|] eqn:E.
    + rewrite lookup_insert_eq. split.
      * intros (us & [= <-] & Hu). apply elem_of_union in Hu as [Hu|Hu].
        -- apply elem_of_singleton in Hu. now right.
        -- left. now exists users.
      * intros [(us & Hl & Hu)|[_ ->]].
        -- try rewrite E in Hl. injection Hl as <-. eexists. split; [reflexivity|].
           apply elem_of_union. now right.
        -- eexists. split; [reflexivity|]. apply elem_of_union. left.
           now apply elem_of_singleton.
    + rewrite lookup_insert_eq. split.
      * intros (us & [= <-] & Hu). apply elem_of_singleton in Hu. now right.
      * intros [(us & Hl & _)|[_ ->]]; [try rewrite E in Hl; discriminate|].
        eexists. split; [reflexivity|]. now apply elem_of_singleton.
  - destruct (gu !! groupName) as [users|]; rewrite lookup_insert_ne by congruence;
      split; [now left | now intros [?|[? _]] | now left | now intros [?|[? _]]].
Qed.

Lemma memberships_loop_listed (params : list jsonObject) (gu gu' : gmap bytes (gset bytes)) :
  memberships_loop params gu = (gu', None) ->
  forall g u, listed gu' g u <-> listed gu g u \/ exists ps, ps ∈ params /\ saysMember ps g u.
Proof.
  revert gu. induction params as [|ps params IH]; intros gu; cbn [memberships_loop].
  - intros [= <-] g u. split; [now left|]. intros [?|(ps & Hps & _)]; [assumption|].
    now apply elem_of_nil in Hps.
  - destruct (jsonObjectGet bytes ps (txt "userName")) as [userName|] eqn:Eu;
      [|discriminate].
    destruct (jsonObjectGet bytes ps (txt "groupName")) as [groupName|] eqn:Eg;
      [|discriminate].
    intros Hl g u. rewrite (IH _ Hl g u), listed_insert. split.
    + intros [[?|[-> ->]]|(ps' & Hin & Hs)].
      * now left.
      * right. exists ps. split; [apply elem_of_cons; now left | now split].
      * right. exists ps'. split; [apply elem_of_cons; now right | assumption].
    + intros [?|(ps' & Hin & Hs)]; [now left; left|].
      apply elem_of_cons in Hin as [->|Hin].
      * destruct Hs as [Hu Hg]. rewrite Eu in Hu. rewrite Eg in Hg.
        injection Hu as <-. injection Hg as <-. left. now right.
      * right. now exists ps'.
Qed.

Lemma memberships_loop_error (params : list jsonObject) (gu gu' : gmap bytes (gset bytes))
    (e : error) :
  memberships_loop params gu = (gu', Some e) ->
  exists pre ps post,
    params = pre ++ ps :: post /\ Forall definesBoth pre
    /\ ((jsonObjectGet bytes ps (txt "userName") = None
         /\ e = txt "missing or invalid userName in userdb reply")
        \/ (is_Some (jsonObjectGet bytes ps (txt "userName"))
            /\ jsonObjectGet bytes ps (txt "groupName") = None
            /\ e = txt "missing or invalid groupName in userdb reply")).
Proof.
  revert gu. induction params as [|ps params IH]; intros gu; cbn [memberships_loop];
    [discriminate|].
  destruct (jsonObjectGet bytes ps (txt "userName")) as [userName|] eqn:Eu.
  - destruct (jsonObjectGet bytes ps (txt "groupName")) as [groupName|] eqn:Eg.
    + intros Hl. destruct (IH _ Hl) as (pre & ps' & post & -> & Hpre & Hcase).
      exists (ps :: pre), ps', post. split; [reflexivity|]. split; [|assumption].
      constructor; [|assumption]. split; [rewrite Eu | rewrite Eg]; eauto.
    + intros [= _ <-]. exists [], ps, params. split; [reflexivity|].
      split; [constructor|]. right. rewrite Eu. eauto.
  - intros [= _ <-]. exists [], ps, params. split; [reflexivity|].
    split; [constructor|]. now left.
Qed.

(** X14. The membership map that [unmarshalParameters] builds. Whatever
    the map held before, after a call without error a user is listed under
    a group exactly when one of the reply parameters names that user and
    that group; replies that say the same twice count once. The call fails
    at the first parameters object that lacks one of the names as a string,
    the missing userName being reported before the missing groupName. *)
Theorem memberships_unmarshal_spec (m : memberships) (params : list jsonObject) :
  (forall m',
      memberships_unmarshalParameters m params = (m', None) ->
      forall g u, listed (groupUsers m') g u <-> exists ps, ps ∈ params /\ saysMember ps g u)
  /\ (forall m' e,
      memberships_unmarshalParameters m params = (m', Some e) ->
      exists pre ps post,
        params = pre ++ ps :: post /\ Forall definesBoth pre
        /\ ((jsonObjectGet bytes ps (txt "userName") = None
             /\ e = txt "missing or invalid userName in userdb reply")
            \/ (is_Some (jsonObjectGet bytes ps (txt "userName"))
                /\ jsonObjectGet bytes ps (txt "groupName") = None
                /\ e = txt "missing or invalid groupName in userdb reply"))).
Proof.
  unfold memberships_unmarshalParameters.
  destruct (memberships_loop params ∅) as [gu err] eqn:El. split.
  - intros m' [= <- ->] g u. cbn [groupUsers].
    rewrite (memberships_loop_listed params ∅ gu El g u). split.
    + intros [(us & Hl & _)|?]; [|assumption]. now rewrite lookup_empty in Hl.
    + now right.
  - intros m' e [= _ ->]. now apply (memberships_loop_error params ∅ gu).
Qed.

Lemma memberships_unmarshal_spec_witness :
  listed (groupUsers (fst (memberships_unmarshalParameters memberships_zero
                             threeMemberships)))
    (txt "wheel") (txt "bob")
  <-> exists ps, ps ∈ threeMemberships /\ saysMember ps (txt "wheel") (txt "bob").
Proof.
  apply (proj1 (memberships_unmarshal_spec memberships_zero threeMemberships)).
  assert (Hn : snd (memberships_unmarshalParameters memberships_zero threeMemberships)
               = None) by (vm_compute; reflexivity).
  destruct (memberships_unmarshalParameters memberships_zero threeMemberships).
  cbn [fst snd] in *. now rewrite Hn.
Defined.

(** ** The entries that [perMachineMatches] returns *)

Lemma filter_sublist {A : Type} (f : A -> bool) (l : list A) :
  sublist (List.filter f l) l.
Proof.
  induction l as [|x l IH]; cbn [List.filter]; [constructor|].
  destruct (f x); now constructor.
Qed.

(** X15. [perMachineMatches] returns entries of the perMachine array, in
    the order of the array, and an entry is returned exactly when its
    matchMachineId array holds the machine id, or the string under the key
    "marchMachineId" is the machine id, or its matchHostname holds, as an
    array, or is, as a string, the hostname. Without a perMachine member of
    the type [[]jsonObject] nothing is returned. *)
Theorem perMachineMatches_spec (p : perMachineRecord) (obj : jsonObject) :
  (forall entries,
      jsonObjectGet (list jsonObject) obj (txt "perMachine") = Some entries ->
      sublist (perMachineMatches p obj) entries
      /\ forall per,
          per ∈ perMachineMatches p obj <->
          per ∈ entries
          /\ ((exists mids, jsonObjectGet (list bytes) per (txt "matchMachineId") = Some mids
                            /\ machineId p ∈ mids)
              \/ jsonObjectGet bytes per (txt "marchMachineId") = Some (machineId p)
              \/ (exists mhs, jsonObjectGet (list bytes) per (txt "matchHostname") = Some mhs
                              /\ hostname p ∈ mhs)
              \/ jsonObjectGet bytes per (txt "matchHostname") = Some (hostname p)))
  /\ (jsonObjectGet (list jsonObject) obj (txt "perMachine") = None ->
      perMachineMatches p obj = []).
Proof.
  unfold perMachineMatches. split.
  - intros entries ->. split; [apply filter_sublist|].
    intros per. rewrite list_elem_of_In, filter_In, <- list_elem_of_In.
    now rewrite matchesHost_spec.
  - now intros ->.
Qed.

Lemma perMachineMatches_spec_witness :
  sublist (perMachineMatches thisMachine
             (<[txt "perMachine" :=
                  AObjects [ <[txt "matchHostname" := AString (txt "build7")]> ∅; ∅ ]]> ∅))
    [ <[txt "matchHostname" := AString (txt "build7")]> ∅; ∅ ]
  /\ forall per,
      per ∈ perMachineMatches thisMachine
              (<[txt "perMachine" :=
                   AObjects [ <[txt "matchHostname" := AString (txt "build7")]> ∅; ∅ ]]> ∅)
      <->
      per ∈ [ <[txt "matchHostname" := AString (txt "build7")]> ∅; ∅ ]
      /\ ((exists mids, jsonObjectGet (list bytes) per (txt "matchMachineId") = Some mids
                        /\ machineId thisMachine ∈ mids)
          \/ jsonObjectGet bytes per (txt "marchMachineId") = Some (machineId thisMachine)
          \/ (exists mhs, jsonObjectGet (list bytes) per (txt "matchHostname") = Some mhs
                          /\ hostname thisMachine ∈ mhs)
          \/ jsonObjectGet bytes per (txt "matchHostname") = Some (hostname thisMachine)).
Proof.
  apply (proj1 (perMachineMatches_spec thisMachine _)).
  unfold jsonObjectGet. rewrite lookup_insert_eq. reflexivity.
Defined.

(** X16. A record decoded from a reply has no array among its members,
    of any of the three array types: a reply with an array in a record is
    not decoded at all, and the reader makes no [[]jsonObject] and no
    [[]string]. So for every machine [perMachineMatches] is empty on it,
    and no perMachine entry is ever applied to a record that came over the
    socket. *)
Theorem decoded_record_has_no_arrays (p : perMachineRecord) (data : bytes)
    (reply : jsonObject) (rest : bytes) (params record : jsonObject) :
  parseJSONObject data = Ok reply rest ->
  jsonObjectGet jsonObject reply (txt "parameters") = Some params ->
  jsonObjectGet jsonObject params (txt "record") = Some record ->
  perMachineMatches p record = []
  /\ forall key l1 l2 l3,
      record !! key <> Some (ASlice l1)
      /\ record !! key <> Some (AObjects l2)
      /\ record !! key <> Some (AStrings l3).
Proof.
  intros Hp Hparams Hrecord.
  split; [exact (perMachineMatches_of_reply p data reply rest params record
                   Hp Hparams Hrecord)|].
  pose proof (proj1 (proj2 (reader_shapes _)) _ _ _ Hp) as Hs.
  pose proof (proj1 (proj2 (reader_values _)) _ _ _ Hp) as Hv.
  unfold jsonObjectGet in Hparams, Hrecord.
  destruct (reply !! txt "parameters") as [a|] eqn:E1; [|discriminate].
  destruct a; try discriminate. injection Hparams as ->.
  inversion Hs as [? Hm| | | |]; subst.
  destruct (Hm _ _ E1) as [Hsp _]. apply Hv in E1.
  inversion E1 as [? Hvp| | | |]; subst.
  destruct (params !! txt "record") as [a|] eqn:E2; [|discriminate].
  destruct a; try discriminate. injection Hrecord as ->.
  inversion Hsp as [? Hmp| | | |]; subst.
  destruct (Hmp _ _ E2) as [Hsr _]. apply Hvp in E2.
  inversion Hsr as [? Hmr| | | |]; subst.
  inversion E2 as [? Hvr| | | |]; subst.
  intros key l1 l2 l3. repeat split; intros Hk.
  - destruct (Hmr _ _ Hk) as [_ Hn]. now apply (Hn l1).
  - apply Hvr in Hk. inversion Hk.
  - apply Hvr in Hk. inversion Hk.
Qed.

Lemma decoded_record_has_no_arrays_witness :
  exists record,
    recordOfReply groupReply_stdlibcontrib = Some record
    /\ perMachineMatches thisMachine record = []
    /\ forall key l1 l2 l3,
        record !! key <> Some (ASlice l1)
        /\ record !! key <> Some (AObjects l2)
        /\ record !! key <> Some (AStrings l3).
Proof.
  assert (Hb : match recordOfReply groupReply_stdlibcontrib with
               | Some _ => true
               | None => false
               end = true) by (vm_compute; reflexivity).
  unfold recordOfReply in *.
  destruct (parseJSONObject groupReply_stdlibcontrib) as [reply rest| |] eqn:E1;
    try discriminate Hb.
  destruct (jsonObjectGet jsonObject reply (txt "parameters")) as [params|] eqn:E2;
    try discriminate Hb.
  destruct (jsonObjectGet jsonObject params (txt "record")) as [record|] eqn:E3;
    try discriminate Hb.
  exists record. split; [reflexivity|].
  exact (decoded_record_has_no_arrays thisMachine groupReply_stdlibcontrib reply rest
           params record E1 E2 E3).
Defined.

(** ** The client and the machine identity *)

Lemma query_socket_only {U : Type} `{userdbParamsUnmarshaler U}
    (net : network) (cl cl' : userdbClient) (call : userdbCall) (u : U) :
  serviceSocket cl = serviceSocket cl' -> query net cl call u = query net cl' call u.
Proof. intros Hs. unfold query, roundTrip. now rewrite Hs. Qed.

Lemma lookupGroupIds_socket_only (order : gmap bytes (gset bytes) -> list bytes)
    (net : network) (cl cl' : userdbClient) (username : bytes) :
  serviceSocket cl = serviceSocket cl' ->
  lookupGroupIds order net cl username = lookupGroupIds order net cl' username.
Proof.
  intros Hs. unfold lookupGroupIds.
  rewrite (query_socket_only net cl cl' _ memberships_zero Hs).
  destruct (query net cl' _ memberships_zero) as [[[ms ok] err]|]; [|reflexivity].
  destruct (negb ok || bool_decide (err <> None)); [reflexivity|].
  rewrite (query_socket_only net cl cl' _ groupRecord_zero Hs).
  destruct (query net cl' _ groupRecord_zero) as [[[group ok'] err']|]; [|reflexivity].
  destruct (negb ok' || bool_decide (err' <> None)); [reflexivity|].
  generalize [strconv_FormatInt_10 (gr_gid group)].
  induction (order (groupUsers ms)) as [|g keys IH]; intros gids; [reflexivity|].
  cbn [lookupGroupIds_loop].
  rewrite (query_socket_only net cl cl' _ groupRecord_zero Hs).
  destruct (query net cl' _ groupRecord_zero) as [[[group1 ok1] err1]|]; [|reflexivity].
  destruct (negb ok1 || bool_decide (err1 <> None)); [reflexivity|]. apply IH.
Qed.

(** X17. The client that [getUserdbClient] makes. It is made exactly when
    the multiplexer socket is there, and talks to that socket. Its machine
    identity has the hostname when [os.Hostname] gives one, and then the
    machine id when /etc/machine-id can be read, less one final newline;
    without a hostname the machine id is not read. Whatever the identity,
    the lookup operations do not use it: two clients for the same socket
    get the same answers. *)
Theorem getUserdbClient_spec (sys : system) :
  (is_Some (getUserdbClient sys) <-> os_Stat sys userdbMuxSocket = None)
  /\ (forall cl, getUserdbClient sys = Some cl ->
        serviceSocket cl = txt "/run/systemd/userdb/io.systemd.Multiplexer"
        /\ cl_perMachineRecord cl = getMachineRecord sys)
  /\ (forall e, os_Hostname sys = inr e -> getMachineRecord sys = perMachineRecord_zero)
  /\ (forall name id, os_Hostname sys = inl name ->
        os_ReadFile sys (txt "/etc/machine-id") = inl (id ++ [x0a]) ->
        getMachineRecord sys = mkPerMachineRecord id name)
  /\ (forall sys' cl cl' net,
        getUserdbClient sys = Some cl -> getUserdbClient sys' = Some cl' ->
        (forall gid groupname,
            queryGroupDb net cl gid groupname = queryGroupDb net cl' gid groupname)
        /\ (forall uid username,
            queryUserDb net cl uid username = queryUserDb net cl' uid username)
        /\ (forall order username,
            lookupGroupIds order net cl username = lookupGroupIds order net cl' username)).
Proof.
  unfold getUserdbClient. split; [|split; [|split; [|split]]].
  - destruct (os_Stat sys userdbMuxSocket); split; try discriminate; eauto.
    intros [? [=]].
  - intros cl. destruct (os_Stat sys userdbMuxSocket); [discriminate|].
    intros [= <-]. split; reflexivity.
  - intros e He. unfold getMachineRecord. now rewrite He.
  - intros name id Hn Hid. unfold getMachineRecord. rewrite Hn, Hid.
    cbn [hostname machineId perMachineRecord_zero].
    f_equal. unfold strings_TrimSuffix. rewrite length_app. cbn [length].
    replace (length id + 1 - 1)%nat with (length id) by lia.
    rewrite skipn_app, skipn_all, Nat.sub_diag. cbn [skipn app].
    rewrite firstn_app, firstn_all, Nat.sub_diag. cbn [firstn].
    destruct (Nat.leb_spec 1 (length id + 1)); [|lia].
    rewrite bytes_Equal_true by reflexivity. cbn [andb]. apply app_nil_r.
  - intros sys' cl cl' net.
    destruct (os_Stat sys userdbMuxSocket); [discriminate|].
    destruct (os_Stat sys' userdbMuxSocket); [discriminate|].
    intros [= <-] [= <-]. split; [reflexivity|]. split; [reflexivity|].
    intros order username. now apply lookupGroupIds_socket_only.
Qed.

Lemma getUserdbClient_spec_witness :
  getMachineRecord someSystem = mkPerMachineRecord (txt "3f2a") (txt "build7").
Proof.
  apply (proj1 (proj2 (proj2 (proj2 (getUserdbClient_spec someSystem))))
           (txt "build7") (txt "3f2a")); reflexivity.
Defined.

(** ** What the lookups return *)

Lemma query_gathered {U : Type} `{userdbParamsUnmarshaler U}
    (net : network) (cl : userdbClient) (call : userdbCall) (u : U)
    (params : list jsonObject) :
  roundTrip net cl call = Ret (Gathered params) ->
  query net cl call u
  = let '(u', err) := unmarshalParameters u params in Ret (u', true, err).
Proof. intros Hr. unfold query. now rewrite Hr. Qed.

(** X18. What [queryGroupDb] and [queryUserDb] make of the parameters that
    [query] gathered. They return a record exactly when there is one
    parameters object, it has a record object, and the record has its name
    as a string; the name returned is the record's, not the one asked for;
    ids and the other fields are resolved for a machine whose id and
    hostname are empty, and a field defined nowhere is "0" or empty. *)
Theorem lookups_by_parameters (net : network) (cl : userdbClient)
    (params : list jsonObject) :
  (forall gid groupname group,
      roundTrip net cl (groupRecordCall gid groupname) = Ret (Gathered params) ->
      queryGroupDb net cl gid groupname = Ret (Some group, true, None) <->
      exists p0 record name,
        params = [p0]
        /\ jsonObjectGet jsonObject p0 (txt "record") = Some record
        /\ jsonObjectGet bytes record (txt "groupName") = Some name
        /\ group = groupOfRecord record name)
  /\ (forall uid username user,
      roundTrip net cl (userRecordCall uid username) = Ret (Gathered params) ->
      queryUserDb net cl uid username = Ret (Some user, true, None) <->
      exists p0 record name,
        params = [p0]
        /\ jsonObjectGet jsonObject p0 (txt "record") = Some record
        /\ jsonObjectGet bytes record (txt "userName") = Some name
        /\ user = userOfRecord record name).
Proof.
  split.
  - intros gid groupname group Hr. unfold queryGroupDb.
    fold (groupRecordCall gid groupname).
    rewrite (query_gathered net cl _ groupRecord_zero params Hr).
    change (unmarshalParameters groupRecord_zero params)
      with (groupRecord_unmarshalParameters groupRecord_zero params).
    destruct (groupRecord_unmarshalParameters groupRecord_zero params) as [g err] eqn:E.
    destruct err as [e|].
    + cbn [negb orb]. rewrite bool_decide_eq_true_2 by discriminate.
      split; [discriminate|].
      intros (p0 & record & name & -> & Hrec & Hname & _).
      unfold groupRecord_unmarshalParameters in E. rewrite Hrec, Hname in E.
      discriminate E.
    + cbn [negb orb]. rewrite bool_decide_eq_false_2 by (intros N; now apply N).
      destruct (groupRecord_resolution _ _ _ E) as (p0 & record & name & -> & Hrec & Hname & ->).
      cbn [gr_groupName gr_gid gr_perMachineRecord groupRecord_zero
           perMachineRecord_zero machineId].
      split.
      * intros [= <-]. now exists p0, record, name.
      * intros (p0' & record' & name' & [= <-] & Hrec' & Hname' & ->).
        rewrite Hrec in Hrec'. injection Hrec' as <-.
        rewrite Hname in Hname'. injection Hname' as <-. reflexivity.
  - intros uid username user Hr. unfold queryUserDb.
    fold (userRecordCall uid username).
    rewrite (query_gathered net cl _ userRecord_zero params Hr).
    change (unmarshalParameters userRecord_zero params)
      with (userRecord_unmarshalParameters userRecord_zero params).
    destruct (userRecord_unmarshalParameters userRecord_zero params) as [r err] eqn:E.
    destruct err as [e|].
    + cbn [negb orb]. rewrite bool_decide_eq_true_2 by discriminate.
      split; [discriminate|].
      intros (p0 & record & name & -> & Hrec & Hname & _).
      unfold userRecord_unmarshalParameters in E. rewrite Hrec, Hname in E.
      discriminate E.
    + cbn [negb orb]. rewrite bool_decide_eq_false_2 by (intros N; now apply N).
      destruct (userRecord_resolution _ _ _ E) as (p0 & record & name & -> & Hrec & Hname & Hu).
      cbv zeta in Hu. subst r.
      cbn [ur_userName ur_realName ur_uid ur_gid ur_homeDirectory ur_perMachineRecord
           userRecord_zero perMachineRecord_zero machineId].
      split.
      * intros [= <-]. now exists p0, record, name.
      * intros (p0' & record' & name' & [= <-] & Hrec' & Hname' & ->).
        rewrite Hrec in Hrec'. injection Hrec' as <-.
        rewrite Hname in Hname'. injection Hname' as <-. reflexivity.
Qed.

Lemma roundTrip_received (net : network) (cl : userdbClient) (call : userdbCall)
    (resp : bytes) :
  received (connectionOf net cl call) call resp -> resp <> [] ->
  roundTrip net cl call = parseMessages (splitNul (removelast resp)) [].
Proof.
  intros (Hs & Hc & Hw & Hr) Hne. unfold roundTrip.
  unfold connectionOf in *. rewrite Hs, Hc, marshalJSON_nonEmpty. cbn [negb].
  rewrite Hw, Hr, (nonEmpty_true _ Hne). reflexivity.
Qed.

(** A response of one message, which is data without the continues flag. *)
Lemma roundTrip_single (net : network) (cl : userdbClient) (call : userdbCall)
    (m : bytes) :
  received (connectionOf net cl call) call (m ++ [x00]) ->
  x00 ∉ m -> isData m false = true ->
  roundTrip net cl call = Ret (Gathered [parametersOf m]).
Proof.
  intros Hrecv Hnul Hdata.
  rewrite (roundTrip_received net cl call (m ++ [x00]) Hrecv) by (destruct m; discriminate).
  rewrite removelast_last, (splitNul_plain m Hnul).
  destruct (isData_dataMessage m false Hdata) as (resp & Hu & He & <- & Hc).
  cbn [parseMessages]. rewrite Hu, He, Hc. rewrite bytes_Equal_true by reflexivity.
  reflexivity.
Qed.

Lemma lookups_by_parameters_witness :
  queryGroupDb (serveUserdb groupIdsData) testClient None (txt "stdlib")
  = Ret (Some (mkGroup (txt "stdlib") (txt "182")), true, None)
  <-> exists p0 record name,
        [parametersOf groupReply_stdlib] = [p0]
        /\ jsonObjectGet jsonObject p0 (txt "record") = Some record
        /\ jsonObjectGet bytes record (txt "groupName") = Some name
        /\ mkGroup (txt "stdlib") (txt "182") = groupOfRecord record name.
Proof.
  apply (proj1 (lookups_by_parameters (serveUserdb groupIdsData) testClient
                  [parametersOf groupReply_stdlib])).
  apply roundTrip_single.
  - repeat split; vm_compute; reflexivity.
  - refine (bool_decide_unpack (x00 ∉ groupReply_stdlib) _). vm_compute. exact I.
  - vm_compute. reflexivity.
Defined.

(** ** How [lookupGroupIds] fails *)

Lemma unhandled_or_error (ok : bool) (err : option error) :
  ok = false \/ err <> None -> negb ok || bool_decide (err <> None) = true.
Proof.
  intros [->|Hn]; [reflexivity|]. rewrite (bool_decide_eq_true_2 _ Hn).
  apply orb_true_r.
Qed.

Lemma lookupGroupIds_loop_fails (net : network) (cl : userdbClient)
    (pre : list bytes) (g : bytes) (post : list bytes) (gids : list bytes)
    (group : groupRecord) (ok : bool) (err : option error) :
  Forall (groupAnswered net cl) pre ->
  query net cl (groupCall g) groupRecord_zero = Ret (group, ok, err) ->
  ok = false \/ err <> None ->
  lookupGroupIds_loop net cl (pre ++ g :: post) gids
  = Ret (None, ok,
         Some (fmt_Errorf_s (txt "error querying systemd-userdb group record: ") err)).
Proof.
  intros Hpre Hq Hbad. revert gids.
  induction Hpre as [|k pre [grp Hk] _ IH]; intros gids; cbn [app lookupGroupIds_loop].
  - fold (groupCall g). rewrite Hq. now rewrite (unhandled_or_error ok err Hbad).
  - fold (groupCall k). rewrite Hk. cbn [negb orb].
    rewrite bool_decide_eq_false_2 by (intros N; now apply N). apply IH.
Qed.

(** X19. The three places where [lookupGroupIds] gives up, and what it
    returns there. When the membership query is not handled or has an
    error, and when the query for one of the groups is, the error of
    [query] is wrapped in a message of its own, a nil error being printed
    as "%!s(<nil>)". When the query for the group named like the user is
    not handled or has an error, what [query] returned is passed on as it
    is: this is the one way for the operation to return unhandled together
    with a nil error. The groups after the failing one are not asked
    for. *)
Theorem lookupGroupIds_failures (order : gmap bytes (gset bytes) -> list bytes)
    (net : network) (cl : userdbClient) (username : bytes) :
  (forall ms ok err,
      query net cl (membershipCall username) memberships_zero = Ret (ms, ok, err) ->
      ok = false \/ err <> None ->
      lookupGroupIds order net cl username
      = Ret (None, ok,
             Some (fmt_Errorf_s (txt "error querying systemd-userdb memberships record: ")
                     err)))
  /\ (forall ms group ok err,
      query net cl (membershipCall username) memberships_zero = Ret (ms, true, None) ->
      query net cl (groupCall username) groupRecord_zero = Ret (group, ok, err) ->
      ok = false \/ err <> None ->
      lookupGroupIds order net cl username = Ret (None, ok, err))
  /\ (forall ms pre g post group ok err,
      query net cl (membershipCall username) memberships_zero = Ret (ms, true, None) ->
      groupAnswered net cl username ->
      order (groupUsers ms) = pre ++ g :: post ->
      Forall (groupAnswered net cl) pre ->
      query net cl (groupCall g) groupRecord_zero = Ret (group, ok, err) ->
      ok = false \/ err <> None ->
      lookupGroupIds order net cl username
      = Ret (None, ok,
             Some (fmt_Errorf_s (txt "error querying systemd-userdb group record: ") err))).
Proof.
  unfold lookupGroupIds. fold (membershipCall username). fold (groupCall username).
  split; [|split].
  - intros ms ok err -> Hbad. now rewrite (unhandled_or_error ok err Hbad).
  - intros ms group ok err -> -> Hbad. cbn [negb orb].
    rewrite bool_decide_eq_false_2 by (intros N; now apply N).
    now rewrite (unhandled_or_error ok err Hbad).
  - intros ms pre g post group ok err -> [grp ->] -> Hpre Hq Hbad. cbn [negb orb].
    rewrite bool_decide_eq_false_2 by (intros N; now apply N).
    now apply (lookupGroupIds_loop_fails net cl pre g post _ group ok err).
Qed.

Lemma lookupGroupIds_failures_witness :
  lookupGroupIds someOrder (serveUserdb primaryGroupUnavailable) testClient
    (txt "stdlibcontrib")
  = Ret (None, false, None).
Proof.
  assert (Hm : exists ms,
             query (serveUserdb primaryGroupUnavailable) testClient
               (membershipCall (txt "stdlibcontrib")) memberships_zero
             = Ret (ms, true, None)).
  { assert (Hb : match query (serveUserdb primaryGroupUnavailable) testClient
                         (membershipCall (txt "stdlibcontrib")) memberships_zero with
                 | Ret (_, true, None) => true
                 | _ => false
                 end = true) by (vm_compute; reflexivity).
    destruct (query (serveUserdb primaryGroupUnavailable) testClient
                (membershipCall (txt "stdlibcontrib")) memberships_zero)
      as [[[ms [|]] [e|]]|]; try discriminate Hb.
    now exists ms. }
  destruct Hm as [ms Hm].
  refine (proj1 (proj2 (lookupGroupIds_failures someOrder
                          (serveUserdb primaryGroupUnavailable) testClient
                          (txt "stdlibcontrib")))
            ms groupRecord_zero false None Hm _ _).
  - vm_compute. reflexivity.
  - now left.
Defined.

(** ** Lookups by id *)

Lemma strconv_digit_no_digit (c : byte) :
  isDigit c = false ->
  match strconv_digit c with
  | Some d => 10 <= d
  | None => True
  end.
Proof.
  unfold isDigit, strconv_digit. intros ->.
  destruct (inRange 97 122 (Z.lor (byteZ c) 32)) eqn:E; [|exact I].
  unfold inRange in E. apply andb_true_iff in E as [E _]. apply Z.leb_le in E. lia.
Qed.

(** A byte that is no digit stops the loop of [strconv.ParseUint], unless
    the digits before it have already made the value overflow. *)
Lemma ParseUint_loop_no_digit (s : bytes) (n : Z) (c : byte) :
  c ∈ s -> isDigit c = false ->
  strconv_ParseUint_loop n s = (0, Some ErrSyntax)
  \/ strconv_ParseUint_loop n s = (maxUint64, Some ErrRange).
Proof.
  intros Hin Hc. revert n. induction s as [|d s IH]; intros n.
  - now apply elem_of_nil in Hin.
  - cbn [strconv_ParseUint_loop]. cbv zeta.
    destruct (strconv_digit d) as [v|] eqn:Ed; [|now left].
    destruct (Z.leb_spec 10 v); [now left|].
    destruct (Z.leb (maxUint64 / 10 + 1) n); [now right|].
    destruct (_ || _); [now right|].
    apply IH. apply elem_of_cons in Hin as [->|Hin]; [|assumption].
    pose proof (strconv_digit_no_digit d Hc) as Hd. rewrite Ed in Hd. lia.
Qed.

(** No overflow within nineteen digits. *)
Lemma ParseUint_loop_no_digit_short (s : bytes) (n : Z) (j : nat) (c : byte) :
  c ∈ s -> isDigit c = false ->
  0 <= n < 10 ^ Z.of_nat j -> (j + length s <= 19)%nat ->
  strconv_ParseUint_loop n s = (0, Some ErrSyntax).
Proof.
  intros Hin Hc. revert n j. induction s as [|d s IH]; intros n j Hn Hj.
  - now apply elem_of_nil in Hin.
  - cbn [strconv_ParseUint_loop]. cbv zeta. cbn [length] in Hj.
    destruct (strconv_digit d) as [v|] eqn:Ed; [|reflexivity].
    destruct (Z.leb_spec 10 v); [reflexivity|].
    assert (Hv : 0 <= v).
    { revert Ed. unfold strconv_digit.
      destruct (inRange 48 57 (byteZ d)) eqn:E1.
      - intros [= <-]. unfold inRange in E1. apply andb_true_iff in E1 as [E1 _].
        apply Z.leb_le in E1. lia.
      - destruct (inRange 97 122 (Z.lor (byteZ d) 32)) eqn:E2; [|discriminate].
        intros [= <-]. unfold inRange in E2. apply andb_true_iff in E2 as [E2 _].
        apply Z.leb_le in E2. lia. }
    assert (Hp : 10 ^ Z.of_nat j <= 10 ^ 18) by (apply Z.pow_le_mono_r; lia).
    assert (Hs : 10 ^ Z.of_nat (S j) = 10 * 10 ^ Z.of_nat j)
      by (rewrite Nat2Z.inj_succ; apply Z.pow_succ_r; lia).
    change (10 ^ 18) with 1000000000000000000 in Hp.
    change (maxUint64 / 10 + 1) with 1844674407370955162.
    change (2 ^ 64) with 18446744073709551616. unfold maxUint64.
    destruct (Z.leb_spec 1844674407370955162 n); [lia|].
    rewrite (Z.mod_small (n * 10)), (Z.mod_small (n * 10 + v)) by lia.
    destruct (Z.ltb_spec (n * 10 + v) (n * 10)); [lia|].
    destruct (Z.ltb_spec 18446744073709551615 (n * 10 + v)); [lia|].
    cbn [orb].
    assert (Hin' : c ∈ s).
    { apply elem_of_cons in Hin as [->|Hin]; [|assumption].
      pose proof (strconv_digit_no_digit d Hc) as Hd. rewrite Ed in Hd. lia. }
    apply (IH Hin' (n * 10 + v) (S j)); lia.
Qed.

Lemma ParseUint_nonEmpty (s : bytes) :
  s <> [] ->
  strconv_ParseUint_10_64 s =
    match strconv_ParseUint_loop 0 s with
    | (n, None) => (n, None)
    | (n, Some e) => (n, Some (mkNumError (txt "ParseUint") s e))
    end.
Proof. destruct s; [congruence | reflexivity]. Qed.

(** [strconv.ParseInt] on a text that holds a byte other than a digit or a
    sign: an error for that text, which is the syntax error when the text
    has at most 19 bytes. *)
Lemma ParseInt_no_digit (id : bytes) (c : byte) :
  c ∈ id -> isDigit c = false -> c <> x2d -> c <> x2b ->
  exists n kind,
    strconv_ParseInt_10_64 id = (n, Some (mkNumError (txt "ParseInt") id kind))
    /\ ((length id <= 19)%nat -> kind = ErrSyntax).
Proof.
  intros Hin Hc Nm Np.
  assert (Hun : forall ds neg,
             c ∈ ds -> (length ds <= length id)%nat ->
             exists n kind,
               match strconv_ParseUint_10_64 ds with
               | (_, Some (mkNumError _ _ ErrSyntax)) =>
                 (0, Some (mkNumError (txt "ParseInt") id ErrSyntax))
               | (un, _) =>
                 if negb neg && Z.leb (2 ^ 63) un
                 then (2 ^ 63 - 1, Some (mkNumError (txt "ParseInt") id ErrRange))
                 else if neg && Z.ltb (2 ^ 63) un
                 then (- 2 ^ 63, Some (mkNumError (txt "ParseInt") id ErrRange))
                 else (if neg then toInt64 (- toInt64 un) else toInt64 un, None)
               end = (n, Some (mkNumError (txt "ParseInt") id kind))
               /\ ((length id <= 19)%nat -> kind = ErrSyntax)).
  { intros ds neg Hds Hlen.
    assert (Hne : ds <> []) by (intros ->; now apply elem_of_nil in Hds).
    rewrite (ParseUint_nonEmpty ds Hne).
    destruct (le_gt_dec (length id) 19) as [Hshort|Hlong].
    - rewrite (ParseUint_loop_no_digit_short ds 0 0 c Hds Hc) by (cbn; lia).
      now exists 0, ErrSyntax.
    - destruct (ParseUint_loop_no_digit ds 0 c Hds Hc) as [->| ->].
      + exists 0, ErrSyntax. split; [reflexivity | lia].
      + destruct neg; cbn [negb andb].
        * exists (- 2 ^ 63), ErrRange. split; [reflexivity | lia].
        * exists (2 ^ 63 - 1), ErrRange. split; [reflexivity | lia]. }
  unfold strconv_ParseInt_10_64. destruct id as [|d id]; [now apply elem_of_nil in Hin|].
  cbv zeta.
  destruct (Byte.eqb d x2b) eqn:E1.
  { apply Byte.byte_dec_bl in E1. subst d.
    apply elem_of_cons in Hin as [->|Hin]; [congruence|].
    apply (Hun id false Hin). cbn [length]. lia. }
  destruct (Byte.eqb d x2d) eqn:E2.
  { apply Byte.byte_dec_bl in E2. subst d.
    apply elem_of_cons in Hin as [->|Hin]; [congruence|].
    apply (Hun id true Hin). cbn [length]. lia. }
  apply (Hun (d :: id) false Hin). lia.
Qed.

Lemma ParseInt_numeral (zeros num : bytes) :
  Forall (eq x30) zeros -> Forall (fun c => isDigit c = true) num -> num <> [] ->
  decimalValue num <= maxInt64 ->
  strconv_ParseInt_10_64 (zeros ++ num) = (decimalValue num, None).
Proof.
  intros Hz Hd Hne Hmax.
  assert (Hall : Forall (fun c => isDigit c = true) (zeros ++ num)).
  { apply Forall_app. split; [|assumption].
    eapply Forall_impl; [exact Hz|]. now intros c <-. }
  rewrite (ParseInt_digits _ Hall), (decimalValue_zeros zeros num Hz).
  destruct (zeros ++ num) eqn:E; [now apply app_eq_nil in E as [_ ->]|].
  destruct (Z.ltb_spec maxInt64 (decimalValue num)); [lia | reflexivity].
Qed.

(** X20. Lookups by id. An id that holds a byte other than a digit or a
    sign is rejected with an error of [strconv.ParseInt] for that id,
    handled, without a call to the service; the error is the syntax error
    when the id has at most 19 bytes, and otherwise the syntax error or,
    when the digits before the byte already overflow, the range error. The
    message quotes the id as [strconv.Quote] does, whatever the tables of
    printable runes are. An id made of digits is looked up by its value:
    zeros in front are dropped, and the request carries the number as
    [strconv.FormatInt] writes it, with no name. *)
Theorem lookup_by_id (table : Z -> bool) (net : network) (cl : userdbClient) :
  (forall id c,
      c ∈ id -> isDigit c = false -> c <> x2d -> c <> x2b ->
      exists kind,
        lookupGroupId table net cl id
        = Ret (None, true,
               Some (NumError_Error table (mkNumError (txt "ParseInt") id kind)))
        /\ lookupUserId table net cl id
           = Ret (None, true,
                  Some (NumError_Error table (mkNumError (txt "ParseInt") id kind)))
        /\ ((length id <= 19)%nat -> kind = ErrSyntax))
  /\ (forall zeros num,
      Forall (eq x30) zeros -> Forall (fun c => isDigit c = true) num -> num <> [] ->
      (num = [x30] \/ hd x30 num <> x30) -> (length num <= 19)%nat ->
      decimalValue num <= maxInt64 ->
      lookupGroupId table net cl (zeros ++ num)
      = queryGroupDb net cl (Some (decimalValue num)) []
      /\ lookupUserId table net cl (zeros ++ num)
         = queryUserDb net cl (Some (decimalValue num)) []
      /\ userdbCall_marshalJSON (groupRecordCall (Some (decimalValue num)) [])
         = lit "{'method':'io.systemd.UserDatabase.GetGroupRecord','parameters':{'service':'io.systemd.Multiplexer','gid':"
           ++ num ++ lit "}}"
      /\ userdbCall_marshalJSON (userRecordCall (Some (decimalValue num)) [])
         = lit "{'method':'io.systemd.UserDatabase.GetUserRecord','parameters':{'service':'io.systemd.Multiplexer','uid':"
           ++ num ++ lit "}}").
Proof.
  split.
  - intros id c Hin Hc Nm Np. unfold lookupGroupId, lookupUserId.
    destruct (ParseInt_no_digit id c Hin Hc Nm Np) as (n & kind & -> & Hk).
    now exists kind.
  - intros zeros num Hz Hd Hne Hcanon Hlen Hmax.
    unfold lookupGroupId, lookupUserId.
    rewrite (ParseInt_numeral zeros num Hz Hd Hne Hmax).
    assert (H0 : 0 <= decimalValue num)
      by (apply (decimal_fold_lower num 0 Hd); lia).
    assert (Hfmt : strconv_FormatInt_10 (decimalValue num) = num).
    { unfold strconv_FormatInt_10.
      destruct (Z.ltb_spec (decimalValue num) 0); [lia|].
      rewrite (decimalDigits_numeral num Hd Hne Hcanon 20 []) by lia.
      apply app_nil_r. }
    repeat split.
    + unfold userdbCall_marshalJSON, callParameters_marshalJSON, groupRecordCall.
      cbn [parameters method more cp_uid cp_userName cp_gid cp_groupName nonEmpty].
      rewrite Hfmt. cbn [app]. rewrite <- !app_assoc. reflexivity.
    + unfold userdbCall_marshalJSON, callParameters_marshalJSON, userRecordCall.
      cbn [parameters method more cp_uid cp_userName cp_gid cp_groupName nonEmpty].
      rewrite Hfmt. cbn [app]. rewrite <- !app_assoc. reflexivity.
Qed.

(** An id with a double quote between two digits: the quote is escaped in
    the message. *)
Lemma lookup_by_id_witness :
  lookupGroupId noTable (serveUserdb []) testClient (lit "1'2")
  = Ret (None, true, Some (lit "strconv.ParseInt: parsing '1\'2': invalid syntax"))
  /\ lookupUserId noTable (serveUserdb []) testClient (lit "1'2")
     = Ret (None, true, Some (lit "strconv.ParseInt: parsing '1\'2': invalid syntax")).
Proof.
  destruct (proj1 (lookup_by_id noTable (serveUserdb []) testClient) (lit "1'2") dquote)
    as (kind & Hg & Hu & Hk); try discriminate; [| |].
  - refine (bool_decide_unpack (dquote ∈ lit "1'2") _). vm_compute. exact I.
  - reflexivity.
  - rewrite Hg, Hu, Hk by (cbn; lia). split; reflexivity.
Defined.

(** ** Every string returned is the text of a token *)

Section TokensBack.
Variable body : bytes.

Let normal (value : bytes) (i : nat) : strState :=
  mkStrState value false false (mkReader body i).
Let escaping (value : bytes) (i : nat) : strState :=
  mkStrState value true false (mkReader body i).
Let inUnicode (value : bytes) (i : nat) : strState :=
  mkStrState value false true (mkReader body i).

(** An iteration in the plain state. *)
Lemma step_plain_inv (value : bytes) (i : nat) :
  match parseJSONString_step body (normal value i) with
  | Continue st' =>
    exists c u, skipn i body = c :: u
      /\ ((c = backslash /\ st' = escaping value (i + 1))
          \/ (byteZ c < 128 /\ c <> dquote /\ c <> backslash
              /\ st' = normal (value ++ [c]) (i + 1))
          \/ (128 <= byteZ c
              /\ exists rn size, utf8_DecodeRune (c :: u) = (rn, size)
                                 /\ st' = normal (value ++ utf8_EncodeRune rn) (i + size)))
  | Leave (Ok v rest) =>
    v = value /\ rest = skipn (length body - (i + 1)) body
    /\ exists tail, skipn i body = dquote :: tail
  | Leave _ => True
  end.
Proof.
  unfold normal, escaping.
  destruct (Z.ltb_spec 4096 (len value)) as [Hbig|Hv].
  { unfold parseJSONString_step. cbn [st_value].
    destruct (Z.ltb_spec 4096 (len value)); [exact I | lia]. }
  destruct (skipn i body) as [|c u] eqn:Hu.
  { unfold parseJSONString_step.
    cbn [st_value st_inEsc st_inUEsc st_reader].
    destruct (Z.ltb_spec 4096 (len value)); [lia|].
    unfold Reader_ReadRune, Reader_unread. cbn [rd_s rd_i]. now rewrite Hu. }
  destruct (byte_eq_dec c dquote) as [->|Nq].
  { rewrite (step_quote body value i u Hv Hu). repeat split. now exists u. }
  destruct (byte_eq_dec c backslash) as [->|Nb].
  { rewrite (step_backslash body value i u Hv Hu). exists backslash, u.
    split; [reflexivity|]. now left. }
  destruct (Z.ltb_spec (byteZ c) 128) as [Hc|Hc].
  - rewrite (step_ascii body value i c u Hv Hu Hc Nq Nb). exists c, u.
    split; [reflexivity|]. right. left. now repeat split.
  - destruct (utf8_DecodeRune (c :: u)) as [rn size] eqn:Hd.
    rewrite (step_rune body value i c u rn size Hv Hu Hc Hd). exists c, u.
    split; [reflexivity|]. right. right. split; [assumption|]. now exists rn, size.
Qed.

(** An iteration after a backslash. *)
Lemma step_escaping_inv (value : bytes) (i : nat) :
  match parseJSONString_step body (escaping value i) with
  | Continue st' =>
    exists e u, skipn i body = e :: u
      /\ ((exists b, escaped e = Some b /\ st' = normal (value ++ [b]) (i + 1))
          \/ (e = x75 /\ st' = inUnicode value (i + 1)))
  | Leave (Ok _ _) => False
  | Leave _ => True
  end.
Proof.
  unfold normal, escaping, inUnicode.
  destruct (Z.ltb_spec 4096 (len value)) as [Hbig|Hv].
  { unfold parseJSONString_step. cbn [st_value].
    destruct (Z.ltb_spec 4096 (len value)); [exact I | lia]. }
  destruct (skipn i body) as [|e u] eqn:Hu.
  { unfold parseJSONString_step.
    cbn [st_value st_inEsc st_inUEsc st_reader].
    destruct (Z.ltb_spec 4096 (len value)); [lia|].
    unfold Reader_ReadByte, Reader_unread. cbn [rd_s rd_i]. now rewrite Hu. }
  destruct (byte_eq_dec e x75) as [->|Nu].
  { rewrite (step_u body value i u Hv Hu). exists x75, u.
    split; [reflexivity|]. now right. }
  destruct (escaped e) as [b|] eqn:He.
  { rewrite (step_escaped body value i e b u Hv Hu He). exists e, u.
    split; [reflexivity|]. left. now exists b. }
  unfold parseJSONString_step.
  cbn [st_value st_inEsc st_inUEsc st_reader].
  destruct (Z.ltb_spec 4096 (len value)); [lia|].
  unfold Reader_ReadByte, Reader_unread. cbn [rd_s rd_i]. rewrite Hu.
  revert He. unfold escaped. rewrite (byte_eqb_false e x75 Nu).
  repeat match goal with
         | |- context [Byte.eqb e ?x] => destruct (Byte.eqb e x)
         end; try discriminate; intros _; exact I.
Qed.

Lemma lone_or_escape (u : bytes) :
  ((length u < 6)%nat \/ nth 0 u x00 <> backslash \/ nth 1 u x00 <> x75)
  \/ exists e f g h u', u = backslash :: x75 :: e :: f :: g :: h :: u'.
Proof.
  destruct u as [|c0 [|c1 [|e [|f [|g [|h u']]]]]];
    try (left; left; cbn [length]; lia).
  destruct (byte_eq_dec c0 backslash) as [->|N0]; [|left; right; left; exact N0].
  destruct (byte_eq_dec c1 x75) as [->|N1]; [|left; right; right; exact N1].
  right. now exists e, f, g, h, u'.
Qed.

Lemma utf16_DecodeRune_cases (hi lo : Z) :
  utf16_DecodeRune hi lo = RuneError
  \/ (55296 <= hi < 56320 /\ 56320 <= lo < 57344).
Proof.
  unfold utf16_DecodeRune.
  destruct (Z.leb_spec 55296 hi); [|now left].
  destruct (Z.ltb_spec hi 56320); [|now left].
  destruct (Z.leb_spec 56320 lo); [|now left].
  destruct (Z.ltb_spec lo 57344); [|now left].
  right. lia.
Qed.

(** An iteration after a backslash and the letter u. *)
Lemma step_inUnicode_inv (value : bytes) (i : nat) :
  match parseJSONString_step body (inUnicode value i) with
  | Continue st' =>
    exists a b c d u rn,
      skipn i body = a :: b :: c :: d :: u
      /\ strconv_ParseUint_16_32 [a; b; c; d] = Some rn
      /\ ((utf16_IsSurrogate rn = false
           /\ st' = normal (value ++ utf8_EncodeRune rn) (i + 4))
          \/ (utf16_IsSurrogate rn = true
              /\ ((length u < 6)%nat \/ nth 0 u x00 <> backslash \/ nth 1 u x00 <> x75)
              /\ st' = normal (value ++ utf8_EncodeRune RuneError) (i + 4))
          \/ (utf16_IsSurrogate rn = true
              /\ exists e f g h u' rn1,
                  u = backslash :: x75 :: e :: f :: g :: h :: u'
                  /\ strconv_ParseUint_16_32 [e; f; g; h] = Some rn1
                  /\ ((55296 <= rn < 56320 /\ 56320 <= rn1 < 57344
                       /\ st' = normal (value ++ utf8_EncodeRune (pairCodePoint rn rn1))
                                  (i + 10))
                      \/ (utf16_DecodeRune rn rn1 = RuneError
                          /\ st' = normal value (i + 10)))))
  | Leave (Ok _ _) => False
  | Leave _ => True
  end.
Proof.
  unfold normal, inUnicode.
  destruct (Z.ltb_spec 4096 (len value)) as [Hbig|Hv].
  { unfold parseJSONString_step. cbn [st_value].
    destruct (Z.ltb_spec 4096 (len value)); [exact I | lia]. }
  assert (Hshort : forall got,
            skipn i body = got -> (length got < 4)%nat ->
            match parseJSONString_step body
                    (mkStrState value false true (mkReader body i)) with
            | Continue _ => False
            | Leave (Ok _ _) => False
            | Leave _ => True
            end).
  { intros got Hu Hl. unfold parseJSONString_step.
    cbn [st_value st_inEsc st_inUEsc st_reader].
    destruct (Z.ltb_spec 4096 (len value)); [lia|].
    unfold Reader_Read, Reader_unread. cbn [rd_s rd_i]. rewrite Hu.
    destruct got as [|g0 got]; [exact I|].
    assert (Hn : Nat.eqb (length (firstn 4 (g0 :: got))) 4 = false).
    { apply Nat.eqb_neq. rewrite length_firstn. lia. }
    rewrite Hn. exact I. }
  destruct (skipn i body) as [|a [|b [|c [|d u]]]] eqn:Hu;
    try (specialize (Hshort _ eq_refl ltac:(cbn [length]; lia));
         destruct (parseJSONString_step body
                     (mkStrState value false true (mkReader body i))) as [|[| |]];
         try contradiction; exact I).
  clear Hshort.
  destruct (strconv_ParseUint_16_32 [a; b; c; d]) as [rn|] eqn:Hrn.
  2:{ unfold parseJSONString_step.
      cbn [st_value st_inEsc st_inUEsc st_reader].
      destruct (Z.ltb_spec 4096 (len value)); [lia|].
      assert (Hread : Reader_Read (mkReader body i) 4
                      = ([a; b; c; d], false, mkReader body (i + 4)))
        by (unfold Reader_Read, Reader_unread; cbn [rd_s rd_i]; rewrite Hu; reflexivity).
      rewrite Hread. cbn [length orb Nat.eqb negb].
      change (filled 4 [a; b; c; d]) with [a; b; c; d]. now rewrite Hrn. }
  destruct (utf16_IsSurrogate rn) eqn:Hs.
  2:{ rewrite (step_unicode body value i a b c d rn u Hv Hu Hrn Hs).
      exists a, b, c, d, u, rn. split; [reflexivity|]. split; [assumption|]. now left. }
  destruct (lone_or_escape u) as [Hlone|(e & f & g & h & u' & ->)].
  { destruct (surrogate_alone_step body value false (mkReader body i) a b c d rn
                Hv Hrn Hs u Hu Hlone) as [Hstep _].
    rewrite Hstep.
    exists a, b, c, d, u, rn. split; [reflexivity|]. split; [assumption|].
    right. left. now repeat split. }
  destruct (strconv_ParseUint_16_32 [e; f; g; h]) as [rn1|] eqn:Hrn1.
  2:{ rewrite (surrogate_first_read body value false (mkReader body i) a b c d rn
                 Hv Hrn Hs _ Hu).
      destruct (surrogate_second_read (mkReader body i) a b c d e f g h u' Hu)
        as [Hread _].
      rewrite Hread. cbv zeta. cbn [length orb Nat.eqb negb].
      change (filled 6 [backslash; x75; e; f; g; h]) with [backslash; x75; e; f; g; h].
      change (skipn 2 [backslash; x75; e; f; g; h]) with [e; f; g; h].
      cbn [nth]. change (Byte.eqb backslash backslash) with true.
      change (Byte.eqb x75 x75) with true. cbn [negb orb]. now rewrite Hrn1. }
  destruct (utf16_DecodeRune_cases rn rn1) as [Hdec|[Hhi Hlo]].
  - destruct (surrogate_mismatch_step body value false (mkReader body i) a b c d rn
                Hv Hrn Hs e f g h rn1 u' Hu Hrn1 Hdec) as [Hstep _].
    rewrite Hstep.
    exists a, b, c, d, (backslash :: x75 :: e :: f :: g :: h :: u'), rn. split; [reflexivity|]. split; [assumption|].
    right. right. split; [assumption|].
    exists e, f, g, h, u', rn1. split; [reflexivity|]. split; [assumption|].
    right. now split.
  - destruct (surrogate_pair_step body value false (mkReader body i) a b c d rn
                Hv Hrn Hs e f g h rn1 u' Hu Hrn1 Hhi Hlo) as [Hstep _].
    rewrite Hstep.
    exists a, b, c, d, (backslash :: x75 :: e :: f :: g :: h :: u'), rn. split; [reflexivity|]. split; [assumption|].
    right. right. split; [assumption|].
    exists e, f, g, h, u', rn1. split; [reflexivity|]. split; [assumption|].
    left. now repeat split.
Qed.

(** Whatever the loop returns was written token by token. *)
Lemma loop_reads_back (fuel : nat) :
  forall (value : bytes) (i : nat) (v rest : bytes),
    parseJSONString_loop fuel body (normal value i) = Ok v rest ->
    exists v' k, v = value ++ v'
                 /\ readsToken (skipn i body) v' k
                 /\ rest = skipn (length body - (i + k)) body.
Proof.
  induction fuel as [fuel IH] using lt_wf_ind. intros value i v rest.
  destruct fuel as [|f1]; [discriminate|]. cbn [parseJSONString_loop].
  pose proof (step_plain_inv value i) as Hstep.
  destruct (parseJSONString_step body (normal value i)) as [st1|[v0 rest0| |]];
    try discriminate.
  2:{ destruct Hstep as (-> & -> & tail & Hu). intros [= <- <-].
      exists [], 1%nat. rewrite app_nil_r, Hu.
      repeat split. constructor. }
  destruct Hstep as (c & u & Hu & [[-> ->]|[(Hc & Nq & Nb & ->)|(Hc & rn & size & Hd & ->)]]).
  - (* a backslash *)
    destruct f1 as [|f2]; [discriminate|]. cbn [parseJSONString_loop].
    pose proof (step_escaping_inv value (i + 1)) as Hesc.
    destruct (parseJSONString_step body (escaping value (i + 1)))
      as [st2|[v0 rest0| |]]; try discriminate; [|contradiction].
    assert (Hu1 : skipn (i + 1) body = u)
      by now rewrite (skipn_cons_next body i _ _ 1 Hu).
    destruct Hesc as (e & u1 & He & [(b & Hb & ->)|[-> ->]]).
    + intros Hl. apply (IH f2 ltac:(lia)) in Hl as (v' & k & -> & Hr & ->).
      rewrite Hu1 in He. subst u.
      rewrite (skipn_cons_next body (i + 1) e u1 1) in Hr by (now rewrite <- Hu1).
      cbn [skipn] in Hr.
      exists (b :: v'), (2 + k)%nat. rewrite <- app_assoc. repeat split.
      * rewrite Hu. now constructor.
      * f_equal. lia.
    + (* a unicode escape *)
      destruct f2 as [|f3]; [discriminate|]. cbn [parseJSONString_loop].
      pose proof (step_inUnicode_inv value (i + 1 + 1)) as Hun.
      destruct (parseJSONString_step body (inUnicode value (i + 1 + 1)))
        as [st3|[v0 rest0| |]]; try discriminate; [|contradiction].
      rewrite Hu1 in He. subst u.
      assert (Hu2 : skipn (i + 1 + 1) body = u1)
        by now rewrite (skipn_cons_next body (i + 1) x75 u1 1 Hu1).
      destruct Hun as (a & b & c & d & u2 & rn & Hq & Hrn & Hcase).
      rewrite Hu2 in Hq. subst u1.
      assert (Hnext : forall n, skipn (i + 1 + 1 + n) body
                                = skipn n (a :: b :: c :: d :: u2))
        by (intros n; now apply skipn_cons_next).
      destruct Hcase as [[Hs ->]|[(Hs & Hlone & ->)|(Hs & e & f & g & h & u3 & rn1 & -> & Hrn1
                                                      & [(Hhi & Hlo & ->)|[Hdec ->]])]];
        intros Hl; apply (IH f3 ltac:(lia)) in Hl as (v' & k & -> & Hr & ->);
        rewrite Hnext in Hr; cbn [skipn] in Hr.
      * exists (utf8_EncodeRune rn ++ v'), (6 + k)%nat. rewrite <- app_assoc.
        repeat split; [|f_equal; lia]. rewrite Hu.
        now apply (readsToken_unicode [a; b; c; d] rn u2 v' k).
      * exists (utf8_EncodeRune RuneError ++ v'), (6 + k)%nat. rewrite <- app_assoc.
        repeat split; [|f_equal; lia]. rewrite Hu.
        now apply (readsToken_lone [a; b; c; d] rn u2 v' k).
      * exists (utf8_EncodeRune (pairCodePoint rn rn1) ++ v'), (12 + k)%nat.
        rewrite <- app_assoc. repeat split; [|f_equal; lia]. rewrite Hu.
        now apply (readsToken_pair [a; b; c; d] [e; f; g; h] rn rn1 u3 v' k).
      * exists v', (12 + k)%nat. repeat split; [|f_equal; lia]. rewrite Hu.
        now apply (readsToken_unpaired [a; b; c; d] [e; f; g; h] rn rn1 u3 v' k).
  - intros Hl. apply (IH f1 ltac:(lia)) in Hl as (v' & k & -> & Hr & ->).
    rewrite (skipn_cons_next body i c u 1 Hu) in Hr. cbn [skipn] in Hr.
    exists (c :: v'), (S k). rewrite <- app_assoc. repeat split.
    + rewrite Hu. now constructor.
    + f_equal. lia.
  - intros Hl. apply (IH f1 ltac:(lia)) in Hl as (v' & k & -> & Hr & ->).
    rewrite (skipn_cons_next body i c u size Hu) in Hr.
    exists (utf8_EncodeRune rn ++ v'), (size + k)%nat. rewrite <- app_assoc.
    repeat split.
    + rewrite Hu. now apply (readsToken_rune c u rn size v' k).
    + f_equal. lia.
Qed.
End TokensBack.

(** X21. [parseJSONString] returns a string only for a token: whenever it
    returns, the input is, after blanks, an opening quote and bytes that
    [readsToken] reads to the string returned, up to a closing quote that no
    backslash escapes. With the theorem on tokens, a string of at most 4096
    bytes is returned exactly for the tokens that stand for it. *)
Theorem parseJSONString_only_tokens (r v rest : bytes) :
  parseJSONString r = Ok v rest ->
  exists body k,
    skipSpace r = dquote :: body
    /\ readsToken body v k
    /\ len v <= 4096
    /\ rest = if Byte.eqb (hd x00 body) dquote then skipn 1 body
              else skipn (length body - k) body.
Proof.
  intros Hp.
  assert (Hlen : len v <= 4096).
  { revert Hp. rewrite parseJSONString_body.
    destruct (stringBody r) as [body|]; [apply parseJSONString_loop_ok|].
    destruct (skipSpace r) as [|c0 [|c1 tl]]; try discriminate.
    destruct (Byte.eqb c0 dquote && Byte.eqb c1 dquote); [|discriminate].
    intros [= <- _]. unfold len. cbn [length]. lia. }
  revert Hp. unfold parseJSONString.
  destruct (skipSpace r) as [|c0 [|c1 tl]]; try discriminate.
  destruct (Byte.eqb c0 dquote) eqn:E0; cbn [andb negb]; [|discriminate].
  apply Byte.byte_dec_bl in E0. subst c0.
  destruct (Byte.eqb c1 dquote) eqn:E1.
  - apply Byte.byte_dec_bl in E1. subst c1. intros [= <- <-].
    exists (dquote :: tl), 1%nat. repeat split; [constructor | assumption].
  - cbn [skipn]. intros Hl.
    apply (loop_reads_back (c1 :: tl)) in Hl as (v' & k & -> & Hr & ->).
    exists (c1 :: tl), k. cbn [hd]. rewrite E1. now repeat split.
Qed.

Lemma parseJSONString_only_tokens_witness :
  exists body k,
    skipSpace (lit " 'a\n\u00e9'} ") = dquote :: body
    /\ readsToken body [x61; x0a; xc3; xa9] k
    /\ len [x61; x0a; xc3; xa9] <= 4096
    /\ lit "n\u00e9'} " = if Byte.eqb (hd x00 body) dquote then skipn 1 body
                              else skipn (length body - k) body.
Proof.
  apply (parseJSONString_only_tokens (lit " 'a\n\u00e9'} ")).
  vm_compute. reflexivity.
Defined.

(** ** The cap, in terms of the text of the input *)

Section TextCap.
Variable body : bytes.

Let normal (value : bytes) (i : nat) : strState :=
  mkStrState value false false (mkReader body i).

Lemma afterSteps_continue (n : nat) (st st1 st' : strState) :
  parseJSONString_step body st = Continue st1 ->
  afterSteps n body st1 = Some st' ->
  afterSteps (S n) body st = Some st'.
Proof. intros Hs Hn. cbn [afterSteps]. now rewrite Hs. Qed.

(** Reading a text of more than 4096 bytes, the loop comes to an iteration
    whose buffer has more than 4096 bytes. *)
Lemma text_fills_buffer (u v : bytes) (k : nat) :
  readsText u v k ->
  forall (value : bytes) (i : nat),
    skipn i body = u -> 4096 < len (value ++ v) ->
    exists n st, afterSteps n body (normal value i) = Some st
                 /\ 4096 < len (st_value st).
Proof.
  induction 1 as [u | c u v k Hc Nq Nb _ IH | c u rn size v k Hc Hd _ IH
                  | e b u v k He _ IH | h rn u v k Hh Hrn Hs _ IH
                  | h rn u v k Hh Hrn Hs Hlone _ IH
                  | h1 h2 hi lo u v k Hh1 Hhi Hh2 Hlo Rhi Rlo _ IH
                  | h1 h2 rn rn1 u v k Hh1 Hrn Hh2 Hrn1 Hs Hdec _ IH];
    intros value i Hu Hlen;
    (destruct (Z.ltb_spec 4096 (len value)) as [Hbig|Hv];
     [exists 0%nat, (normal value i); split; [reflexivity | exact Hbig]|]).
  - rewrite app_nil_r in Hlen. lia.
  - destruct (IH (value ++ [c]) (i + 1)%nat) as (n & st & Hn & Hst).
    + now rewrite (skipn_cons_next body i c u 1 Hu).
    + now rewrite <- app_assoc.
    + exists (S n), st. split; [|assumption].
      exact (afterSteps_continue n _ _ _ (step_ascii body value i c u Hv Hu Hc Nq Nb) Hn).
  - destruct (IH (value ++ utf8_EncodeRune rn) (i + size)%nat) as (n & st & Hn & Hst).
    + now rewrite (skipn_cons_next body i c u size Hu).
    + now rewrite <- app_assoc.
    + exists (S n), st. split; [|assumption].
      exact (afterSteps_continue n _ _ _ (step_rune body value i c u rn size Hv Hu Hc Hd) Hn).
  - assert (Hu1 : skipn (i + 1) body = e :: u)
      by now rewrite (skipn_cons_next body i _ _ 1 Hu).
    destruct (IH (value ++ [b]) (i + 1 + 1)%nat) as (n & st & Hn & Hst).
    + now rewrite (skipn_cons_next body (i + 1) e u 1 Hu1).
    + now rewrite <- app_assoc.
    + exists (S (S n)), st. split; [|assumption].
      apply (afterSteps_continue _ _ _ _ (step_backslash body value i (e :: u) Hv Hu)).
      exact (afterSteps_continue n _ _ _ (step_escaped body value (i + 1) e b u Hv Hu1 He) Hn).
  - destruct h as [|a [|b [|c [|d [|]]]]]; try discriminate Hh.
    cbn [escapeU app] in Hu.
    assert (Hu1 : skipn (i + 1) body = x75 :: a :: b :: c :: d :: u)
      by now rewrite (skipn_cons_next body i _ _ 1 Hu).
    assert (Hu2 : skipn (i + 1 + 1) body = a :: b :: c :: d :: u)
      by now rewrite (skipn_cons_next body (i + 1) _ _ 1 Hu1).
    destruct (IH (value ++ utf8_EncodeRune rn) (i + 1 + 1 + 4)%nat)
      as (n & st & Hn & Hst).
    + now rewrite (skipn_cons_next body (i + 1 + 1) _ _ 4 Hu2).
    + now rewrite <- app_assoc.
    + exists (S (S (S n))), st. split; [|assumption].
      apply (afterSteps_continue _ _ _ _ (step_backslash body value i _ Hv Hu)).
      apply (afterSteps_continue _ _ _ _ (step_u body value (i + 1) _ Hv Hu1)).
      exact (afterSteps_continue n _ _ _
               (step_unicode body value (i + 1 + 1) a b c d rn u Hv Hu2 Hrn Hs) Hn).
  - destruct h as [|a [|b [|c [|d [|]]]]]; try discriminate Hh.
    cbn [escapeU app] in Hu.
    assert (Hu1 : skipn (i + 1) body = x75 :: a :: b :: c :: d :: u)
      by now rewrite (skipn_cons_next body i _ _ 1 Hu).
    assert (Hu2 : skipn (i + 1 + 1) body = a :: b :: c :: d :: u)
      by now rewrite (skipn_cons_next body (i + 1) _ _ 1 Hu1).
    destruct (IH (value ++ utf8_EncodeRune RuneError) (i + 1 + 1 + 4)%nat)
      as (n & st & Hn & Hst).
    + now rewrite (skipn_cons_next body (i + 1 + 1) _ _ 4 Hu2).
    + now rewrite <- app_assoc.
    + exists (S (S (S n))), st. split; [|assumption].
      apply (afterSteps_continue _ _ _ _ (step_backslash body value i _ Hv Hu)).
      apply (afterSteps_continue _ _ _ _ (step_u body value (i + 1) _ Hv Hu1)).
      destruct (surrogate_alone_step body value false (mkReader body (i + 1 + 1))
                  a b c d rn Hv Hrn Hs u Hu2 Hlone) as [Hstep _].
      exact (afterSteps_continue n _ _ _ Hstep Hn).
  - destruct h1 as [|a [|b [|c [|d [|]]]]]; try discriminate Hh1.
    destruct h2 as [|e [|f [|g [|h [|]]]]]; try discriminate Hh2.
    cbn [escapeU app] in Hu.
    assert (Hu1 : skipn (i + 1) body
                  = x75 :: a :: b :: c :: d :: backslash :: x75 :: e :: f :: g :: h :: u)
      by now rewrite (skipn_cons_next body i _ _ 1 Hu).
    assert (Hu2 : skipn (i + 1 + 1) body
                  = a :: b :: c :: d :: backslash :: x75 :: e :: f :: g :: h :: u)
      by now rewrite (skipn_cons_next body (i + 1) _ _ 1 Hu1).
    assert (Hs : utf16_IsSurrogate hi = true).
    { unfold utf16_IsSurrogate.
      destruct (Z.leb_spec 55296 hi); [|lia]. destruct (Z.ltb_spec hi 57344); [|lia].
      reflexivity. }
    destruct (IH (value ++ utf8_EncodeRune (pairCodePoint hi lo)) (i + 1 + 1 + 10)%nat)
      as (n & st & Hn & Hst).
    + now rewrite (skipn_cons_next body (i + 1 + 1) _ _ 10 Hu2).
    + now rewrite <- app_assoc.
    + exists (S (S (S n))), st. split; [|assumption].
      apply (afterSteps_continue _ _ _ _ (step_backslash body value i _ Hv Hu)).
      apply (afterSteps_continue _ _ _ _ (step_u body value (i + 1) _ Hv Hu1)).
      destruct (surrogate_pair_step body value false (mkReader body (i + 1 + 1))
                  a b c d hi Hv Hhi Hs e f g h lo u Hu2 Hlo Rhi Rlo) as [Hstep _].
      exact (afterSteps_continue n _ _ _ Hstep Hn).
  - destruct h1 as [|a [|b [|c [|d [|]]]]]; try discriminate Hh1.
    destruct h2 as [|e [|f [|g [|h [|]]]]]; try discriminate Hh2.
    cbn [escapeU app] in Hu.
    assert (Hu1 : skipn (i + 1) body
                  = x75 :: a :: b :: c :: d :: backslash :: x75 :: e :: f :: g :: h :: u)
      by now rewrite (skipn_cons_next body i _ _ 1 Hu).
    assert (Hu2 : skipn (i + 1 + 1) body
                  = a :: b :: c :: d :: backslash :: x75 :: e :: f :: g :: h :: u)
      by now rewrite (skipn_cons_next body (i + 1) _ _ 1 Hu1).
    destruct (IH value (i + 1 + 1 + 10)%nat) as (n & st & Hn & Hst).
    + now rewrite (skipn_cons_next body (i + 1 + 1) _ _ 10 Hu2).
    + assumption.
    + exists (S (S (S n))), st. split; [|assumption].
      apply (afterSteps_continue _ _ _ _ (step_backslash body value i _ Hv Hu)).
      apply (afterSteps_continue _ _ _ _ (step_u body value (i + 1) _ Hv Hu1)).
      destruct (surrogate_mismatch_step body value false (mkReader body (i + 1 + 1))
                  a b c d rn Hv Hrn Hs e f g h rn1 u Hu2 Hrn1 Hdec) as [Hstep _].
      exact (afterSteps_continue n _ _ _ Hstep Hn).
Qed.

(** The buffer of every iteration is the text of the bytes read so far. *)
Lemma buffer_is_text (n : nat) :
  forall (value : bytes) (i : nat) (st : strState),
    afterSteps n body (normal value i) = Some st ->
    4096 < len (st_value st) ->
    exists v k, readsText (skipn i body) v k /\ 4096 < len (value ++ v).
Proof.
  induction n as [n IH] using lt_wf_ind. intros value i st.
  assert (Hstop : 4096 < len value ->
            exists v k, readsText (skipn i body) v k /\ 4096 < len (value ++ v)).
  { intros Hbig. exists [], 0%nat. rewrite app_nil_r. split; [constructor | exact Hbig]. }
  destruct n as [|n1]; [cbn [afterSteps]; intros [= <-]; exact Hstop|].
  cbn [afterSteps]. unfold normal.
  pose proof (step_plain_inv body value i) as Hstep.
  destruct (parseJSONString_step body (mkStrState value false false (mkReader body i)))
    as [st1|res] eqn:E1; [|discriminate].
  destruct Hstep as (c & u & Hu & [[-> ->]|[(Hc & Nq & Nb & ->)|(Hc & rn & size & Hd & ->)]]).
  - (* a backslash *)
    destruct n1 as [|n2]; [cbn [afterSteps]; intros [= <-]; exact Hstop|].
    cbn [afterSteps].
    pose proof (step_escaping_inv body value (i + 1)) as Hesc.
    destruct (parseJSONString_step body (mkStrState value true false (mkReader body (i + 1))))
      as [st2|res] eqn:E2; [|discriminate].
    assert (Hu1 : skipn (i + 1) body = u)
      by now rewrite (skipn_cons_next body i _ _ 1 Hu).
    destruct Hesc as (e & u1 & He & [(b & Hb & ->)|[-> ->]]).
    + intros Hn Hst. rewrite Hu1 in He. subst u.
      destruct (IH n2 ltac:(lia) _ _ _ Hn Hst) as (v & k & Hr & Hlen).
      rewrite (skipn_cons_next body (i + 1) e u1 1) in Hr by (now rewrite <- Hu1).
      cbn [skipn] in Hr.
      exists (b :: v), (2 + k)%nat. rewrite Hu. split; [now constructor|].
      now rewrite <- app_assoc in Hlen.
    + rewrite Hu1 in He. subst u.
      destruct n2 as [|n3]; [cbn [afterSteps]; intros [= <-]; exact Hstop|].
      cbn [afterSteps].
      pose proof (step_inUnicode_inv body value (i + 1 + 1)) as Hun.
      destruct (parseJSONString_step body
                  (mkStrState value false true (mkReader body (i + 1 + 1))))
        as [st3|res] eqn:E3; [|discriminate].
      assert (Hu2 : skipn (i + 1 + 1) body = u1)
        by now rewrite (skipn_cons_next body (i + 1) x75 u1 1 Hu1).
      destruct Hun as (a & b & c & d & u2 & rn & Hq & Hrn & Hcase).
      rewrite Hu2 in Hq. subst u1.
      assert (Hnext : forall m, skipn (i + 1 + 1 + m) body
                                = skipn m (a :: b :: c :: d :: u2))
        by (intros m; now apply skipn_cons_next).
      destruct Hcase as [[Hs ->]|[(Hs & Hlone & ->)|(Hs & e & f & g & h & u3 & rn1 & -> & Hrn1
                                                      & [(Hhi & Hlo & ->)|[Hdec ->]])]];
        intros Hn Hst;
        destruct (IH n3 ltac:(lia) _ _ _ Hn Hst) as (v & k & Hr & Hlen);
        rewrite Hnext in Hr; cbn [skipn] in Hr; rewrite Hu.
      * exists (utf8_EncodeRune rn ++ v), (6 + k)%nat.
        split; [|now rewrite <- app_assoc in Hlen].
        now apply (readsText_unicode [a; b; c; d] rn u2 v k).
      * exists (utf8_EncodeRune RuneError ++ v), (6 + k)%nat.
        split; [|now rewrite <- app_assoc in Hlen].
        now apply (readsText_lone [a; b; c; d] rn u2 v k).
      * exists (utf8_EncodeRune (pairCodePoint rn rn1) ++ v), (12 + k)%nat.
        split; [|now rewrite <- app_assoc in Hlen].
        now apply (readsText_pair [a; b; c; d] [e; f; g; h] rn rn1 u3 v k).
      * exists v, (12 + k)%nat. split; [|assumption].
        now apply (readsText_unpaired [a; b; c; d] [e; f; g; h] rn rn1 u3 v k).
  - intros Hn Hst.
    destruct (IH n1 ltac:(lia) _ _ _ Hn Hst) as (v & k & Hr & Hlen).
    rewrite (skipn_cons_next body i c u 1 Hu) in Hr. cbn [skipn] in Hr.
    exists (c :: v), (S k). rewrite Hu. split; [now constructor|].
    now rewrite <- app_assoc in Hlen.
  - intros Hn Hst.
    destruct (IH n1 ltac:(lia) _ _ _ Hn Hst) as (v & k & Hr & Hlen).
    rewrite (skipn_cons_next body i c u size Hu) in Hr.
    exists (utf8_EncodeRune rn ++ v), (size + k)%nat. rewrite Hu.
    split; [now apply (readsText_rune c u rn size v k)|].
    now rewrite <- app_assoc in Hlen.
Qed.
End TextCap.

Lemma readsText_head (u v : bytes) (k : nat) :
  readsText u v k -> v <> [] -> exists c u', u = c :: u' /\ c <> dquote.
Proof.
  destruct 1; intros Hv; try congruence;
    try (destruct h as [|? ?]; cbn [escapeU app]);
    try (destruct h1 as [|? ?]; cbn [escapeU app]);
    eexists _, _; (split; [reflexivity|]); try discriminate; try assumption.
  intros ->. change (byteZ dquote) with 34 in H. lia.
Qed.

Lemma readsText_letters (n : nat) (tail : bytes) :
  readsText (repeat x61 n ++ tail) (repeat x61 n) n.
Proof.
  induction n as [|n IH]; cbn [repeat app]; [constructor|].
  constructor; [vm_compute; reflexivity | discriminate | discriminate | exact IH].
Qed.

(** C8, as amended: the cap is on the bytes of the decoded text. A string
    that [parseJSONString] returns has at most 4096 bytes, hence at most
    4096 characters. The error "string too large" is returned exactly for
    the inputs that, after blanks and the opening quote, start with bytes
    whose text, decoded item by item as the loop does ([readsText]), has
    more than 4096 bytes: every such input is rejected with that error,
    whatever follows and whether or not a closing quote comes, and no other
    input is. *)
Theorem parseJSONString_size_cap (r : bytes) :
  (forall v rest, parseJSONString r = Ok v rest ->
     len v <= 4096 /\ Z.of_nat (utf8_RuneCount v) <= 4096)
  /\ (parseJSONString r = Err (txt "string too large") <->
      exists body v k,
        skipSpace r = dquote :: body
        /\ readsText body v k
        /\ 4096 < len v).
Proof.
  destruct (parseJSONString_too_large_steps r) as [Hok Hsteps].
  split; [exact Hok|]. rewrite Hsteps. split.
  - intros (body & n & st & Hb & Hn & Hst).
    destruct (buffer_is_text body n [] 0 st Hn Hst) as (v & k & Hr & Hlen).
    exists body, v, k. cbn [skipn app] in Hr, Hlen. split; [|now split].
    revert Hb. unfold stringBody.
    destruct (skipSpace r) as [|c0 [|c1 tl]]; try discriminate.
    destruct (Byte.eqb c0 dquote) eqn:E0; cbn [andb negb].
    + apply Byte.byte_dec_bl in E0. subst c0.
      destruct (Byte.eqb c1 dquote); [discriminate | now intros [= <-]].
    + discriminate.
  - intros (body & v & k & Hr & Ht & Hlen).
    assert (Hv : v <> []) by (intros ->; change (len []) with 0 in Hlen; lia).
    destruct (readsText_head body v k Ht Hv) as (c & u & -> & Nq).
    destruct (text_fills_buffer (c :: u) (c :: u) v k Ht [] 0 eq_refl Hlen)
      as (n & st & Hn & Hst).
    exists (c :: u), n, st. split; [|now split].
    unfold stringBody. rewrite Hr.
    change (Byte.eqb dquote dquote) with true.
    now rewrite (byte_eqb_false c dquote Nq).
Qed.

(** A string of 5000 letters, closed by a quote or not. *)
Lemma parseJSONString_size_cap_witness :
  parseJSONString (dquote :: manyLetters ++ [dquote]) = Err (txt "string too large")
  /\ parseJSONString (dquote :: manyLetters) = Err (txt "string too large").
Proof.
  split.
  - apply (proj2 (proj2 (parseJSONString_size_cap (dquote :: manyLetters ++ [dquote])))).
    exists (manyLetters ++ [dquote]), manyLetters, (Z.to_nat 5000).
    split; [reflexivity|]. split; [apply readsText_letters | reflexivity].
  - apply (proj2 (proj2 (parseJSONString_size_cap (dquote :: manyLetters)))).
    exists manyLetters, manyLetters, (Z.to_nat 5000).
    split; [reflexivity|]. split; [|reflexivity].
    rewrite <- (app_nil_r manyLetters) at 1. apply readsText_letters.
Defined.

(** ** Decoding and encoding again *)

Lemma land_low (x m k : Z) : 0 <= m -> k = 2 ^ m - 1 -> Z.land x k = x mod 2 ^ m.
Proof.
  intros Hm ->. rewrite <- Z.land_ones by assumption. f_equal.
  rewrite Z.ones_equiv. lia.
Qed.

(** The branch that [utf8.EncodeRune] takes, by the size of the rune. *)
Lemma utf8_EncodeRune_sized (r : Z) :
  0 <= r <= 1114111 -> ~ (55296 <= r <= 57343) ->
  utf8_EncodeRune r =
    if Z.leb r 127 then [Zbyte r]
    else if Z.leb r 2047 then
      [Zbyte (Z.lor 192 (Z.shiftr r 6)); Zbyte (Z.lor 128 (Z.land r 63))]
    else if Z.leb r 65535 then
      [Zbyte (Z.lor 224 (Z.shiftr r 12));
       Zbyte (Z.lor 128 (Z.land (Z.shiftr r 6) 63));
       Zbyte (Z.lor 128 (Z.land r 63))]
    else
      [Zbyte (Z.lor 240 (Z.shiftr r 18));
       Zbyte (Z.lor 128 (Z.land (Z.shiftr r 12) 63));
       Zbyte (Z.lor 128 (Z.land (Z.shiftr r 6) 63));
       Zbyte (Z.lor 128 (Z.land r 63))].
Proof.
  intros Hr Hs. unfold utf8_EncodeRune.
  destruct (Z.leb_spec 0 r); [|lia]. destruct (Z.leb_spec r 1114111); [|lia].
  destruct (Z.leb_spec 55296 r); destruct (Z.leb_spec r 57343);
    cbn [andb negb]; try lia; reflexivity.
Qed.

(** A lead byte or a continuation byte put together again. *)
Lemma lor_lead (k lead m x : Z) :
  k = lead * 2 ^ m -> 0 <= m -> 0 <= x < 2 ^ m -> 0 <= k + x < 256 ->
  byteZ (Zbyte (Z.lor k x)) = k + x.
Proof.
  intros -> Hm Hx Hb. rewrite lor_prefix by assumption. now apply byteZ_Zbyte.
Qed.

(** The encodings of two, three and four bytes, for all bytes in the ranges
    that [utf8.DecodeRune] accepts: the rune they stand for is encoded by
    the same bytes. *)
Lemma utf8_EncodeRune_two (b0 b1 : Z) :
  194 <= b0 <= 223 -> 128 <= b1 <= 191 ->
  map byteZ (utf8_EncodeRune (Z.lor (Z.shiftl (Z.land b0 31) 6) (Z.land b1 63)))
  = [b0; b1].
Proof.
  intros H0 H1.
  assert (Ha : Z.land b0 31 = b0 - 192).
  { rewrite (land_low b0 5 31) by first [reflexivity | lia]. change (2 ^ 5) with 32.
    Z.div_mod_to_equations. lia. }
  assert (Hb : Z.land b1 63 = b1 - 128).
  { rewrite (land_low b1 6 63) by first [reflexivity | lia]. change (2 ^ 6) with 64.
    Z.div_mod_to_equations. lia. }
  rewrite Ha, Hb, Z.shiftl_mul_pow2 by lia.
  rewrite lor_prefix by (change (2 ^ 6) with 64; lia).
  change (2 ^ 6) with 64.
  set (r := (b0 - 192) * 64 + (b1 - 128)).
  rewrite utf8_EncodeRune_sized by (unfold r; lia).
  destruct (Z.leb_spec r 127); [unfold r in *; lia|].
  destruct (Z.leb_spec r 2047); [|unfold r in *; lia].
  cbn [map].
  assert (Hq : Z.shiftr r 6 = b0 - 192).
  { rewrite Z.shiftr_div_pow2 by lia. change (2 ^ 6) with 64. unfold r.
    Z.div_mod_to_equations. lia. }
  assert (Hm : Z.land r 63 = b1 - 128).
  { rewrite (land_low r 6 63) by first [reflexivity | lia]. change (2 ^ 6) with 64. unfold r.
    Z.div_mod_to_equations. lia. }
  rewrite Hq, Hm.
  rewrite (lor_lead 192 6 5 (b0 - 192)), (lor_lead 128 2 6 (b1 - 128))
    by first [reflexivity | change (2 ^ 5) with 32; change (2 ^ 6) with 64; lia]. f_equal; [lia|]. f_equal. lia.
Qed.

Lemma utf8_EncodeRune_three (b0 b1 b2 : Z) :
  224 <= b0 <= 239 -> 128 <= b1 <= 191 -> 128 <= b2 <= 191 ->
  (b0 = 224 -> 160 <= b1) -> (b0 = 237 -> b1 <= 159) ->
  map byteZ (utf8_EncodeRune
               (Z.lor (Z.lor (Z.shiftl (Z.land b0 15) 12) (Z.shiftl (Z.land b1 63) 6))
                      (Z.land b2 63)))
  = [b0; b1; b2].
Proof.
  intros H0 H1 H2 Hlo Hhi.
  assert (Ha : Z.land b0 15 = b0 - 224).
  { rewrite (land_low b0 4 15) by first [reflexivity | lia]. change (2 ^ 4) with 16.
    Z.div_mod_to_equations. lia. }
  assert (Hb : Z.land b1 63 = b1 - 128).
  { rewrite (land_low b1 6 63) by first [reflexivity | lia]. change (2 ^ 6) with 64.
    Z.div_mod_to_equations. lia. }
  assert (Hc : Z.land b2 63 = b2 - 128).
  { rewrite (land_low b2 6 63) by first [reflexivity | lia]. change (2 ^ 6) with 64.
    Z.div_mod_to_equations. lia. }
  rewrite Ha, Hb, Hc, !Z.shiftl_mul_pow2 by lia.
  rewrite (lor_prefix (b0 - 224) 12) by (change (2 ^ 12) with 4096; change (2 ^ 6) with 64; lia).
  change (2 ^ 12) with 4096. change (2 ^ 6) with 64.
  replace ((b0 - 224) * 4096 + (b1 - 128) * 64)
    with (((b0 - 224) * 64 + (b1 - 128)) * 2 ^ 6) by (change (2 ^ 6) with 64; lia).
  rewrite lor_prefix by (change (2 ^ 6) with 64; lia).
  change (2 ^ 6) with 64.
  set (r := ((b0 - 224) * 64 + (b1 - 128)) * 64 + (b2 - 128)).
  rewrite utf8_EncodeRune_sized by (unfold r; lia).
  destruct (Z.leb_spec r 127); [unfold r in *; lia|].
  destruct (Z.leb_spec r 2047); [unfold r in *; lia|].
  destruct (Z.leb_spec r 65535); [|unfold r in *; lia].
  cbn [map].
  assert (Hq : Z.shiftr r 12 = b0 - 224).
  { rewrite Z.shiftr_div_pow2 by lia. change (2 ^ 12) with 4096. unfold r.
    Z.div_mod_to_equations. lia. }
  assert (Hq1 : Z.land (Z.shiftr r 6) 63 = b1 - 128).
  { rewrite (land_low _ 6 63), Z.shiftr_div_pow2 by first [reflexivity | lia]. change (2 ^ 6) with 64. unfold r.
    Z.div_mod_to_equations. lia. }
  assert (Hm : Z.land r 63 = b2 - 128).
  { rewrite (land_low r 6 63) by first [reflexivity | lia]. change (2 ^ 6) with 64. unfold r.
    Z.div_mod_to_equations. lia. }
  rewrite Hq, Hq1, Hm.
  rewrite (lor_lead 224 14 4 (b0 - 224)), (lor_lead 128 2 6 (b1 - 128)), (lor_lead 128 2 6 (b2 - 128))
    by first [reflexivity | change (2 ^ 4) with 16; change (2 ^ 6) with 64; lia].
  f_equal; [lia|]. f_equal; [lia|]. f_equal. lia.
Qed.

Lemma utf8_EncodeRune_four (b0 b1 b2 b3 : Z) :
  240 <= b0 <= 244 -> 128 <= b1 <= 191 -> 128 <= b2 <= 191 -> 128 <= b3 <= 191 ->
  (b0 = 240 -> 144 <= b1) -> (b0 = 244 -> b1 <= 143) ->
  map byteZ (utf8_EncodeRune
               (Z.lor (Z.lor (Z.lor (Z.shiftl (Z.land b0 7) 18)
                                    (Z.shiftl (Z.land b1 63) 12))
                             (Z.shiftl (Z.land b2 63) 6))
                      (Z.land b3 63)))
  = [b0; b1; b2; b3].
Proof.
  intros H0 H1 H2 H3 Hlo Hhi.
  assert (Ha : Z.land b0 7 = b0 - 240).
  { rewrite (land_low b0 3 7) by first [reflexivity | lia]. change (2 ^ 3) with 8.
    Z.div_mod_to_equations. lia. }
  assert (Hb : Z.land b1 63 = b1 - 128).
  { rewrite (land_low b1 6 63) by first [reflexivity | lia]. change (2 ^ 6) with 64.
    Z.div_mod_to_equations. lia. }
  assert (Hc : Z.land b2 63 = b2 - 128).
  { rewrite (land_low b2 6 63) by first [reflexivity | lia]. change (2 ^ 6) with 64.
    Z.div_mod_to_equations. lia. }
  assert (Hd : Z.land b3 63 = b3 - 128).
  { rewrite (land_low b3 6 63) by first [reflexivity | lia]. change (2 ^ 6) with 64.
    Z.div_mod_to_equations. lia. }
  rewrite Ha, Hb, Hc, Hd, !Z.shiftl_mul_pow2 by lia.
  rewrite (lor_prefix (b0 - 240) 18)
    by (change (2 ^ 18) with 262144; change (2 ^ 12) with 4096; lia).
  change (2 ^ 18) with 262144. change (2 ^ 12) with 4096. change (2 ^ 6) with 64.
  replace ((b0 - 240) * 262144 + (b1 - 128) * 4096)
    with (((b0 - 240) * 64 + (b1 - 128)) * 2 ^ 12) by (change (2 ^ 12) with 4096; lia).
  rewrite lor_prefix by (change (2 ^ 12) with 4096; lia).
  change (2 ^ 12) with 4096.
  replace (((b0 - 240) * 64 + (b1 - 128)) * 4096 + (b2 - 128) * 64)
    with ((((b0 - 240) * 64 + (b1 - 128)) * 64 + (b2 - 128)) * 2 ^ 6)
    by (change (2 ^ 6) with 64; lia).
  rewrite lor_prefix by (change (2 ^ 6) with 64; lia).
  change (2 ^ 6) with 64.
  set (r := (((b0 - 240) * 64 + (b1 - 128)) * 64 + (b2 - 128)) * 64 + (b3 - 128)).
  rewrite utf8_EncodeRune_sized by (unfold r; lia).
  destruct (Z.leb_spec r 127); [unfold r in *; lia|].
  destruct (Z.leb_spec r 2047); [unfold r in *; lia|].
  destruct (Z.leb_spec r 65535); [unfold r in *; lia|].
  cbn [map].
  assert (Hq : Z.shiftr r 18 = b0 - 240).
  { rewrite Z.shiftr_div_pow2 by lia. change (2 ^ 18) with 262144. unfold r.
    Z.div_mod_to_equations. lia. }
  assert (Hq2 : Z.land (Z.shiftr r 12) 63 = b1 - 128).
  { rewrite (land_low _ 6 63), Z.shiftr_div_pow2 by first [reflexivity | lia].
    change (2 ^ 6) with 64. change (2 ^ 12) with 4096. unfold r.
    Z.div_mod_to_equations. lia. }
  assert (Hq1 : Z.land (Z.shiftr r 6) 63 = b2 - 128).
  { rewrite (land_low _ 6 63), Z.shiftr_div_pow2 by first [reflexivity | lia]. change (2 ^ 6) with 64. unfold r.
    Z.div_mod_to_equations. lia. }
  assert (Hm : Z.land r 63 = b3 - 128).
  { rewrite (land_low r 6 63) by first [reflexivity | lia]. change (2 ^ 6) with 64. unfold r.
    Z.div_mod_to_equations. lia. }
  rewrite Hq, Hq2, Hq1, Hm.
  rewrite (lor_lead 240 30 3 (b0 - 240)), (lor_lead 128 2 6 (b1 - 128)),
    (lor_lead 128 2 6 (b2 - 128)), (lor_lead 128 2 6 (b3 - 128))
    by first [reflexivity | change (2 ^ 3) with 8; change (2 ^ 6) with 64; lia].
  f_equal; [lia|]. f_equal; [lia|]. f_equal; [lia|]. f_equal. lia.
Qed.

Lemma map_byteZ_inj (l l' : bytes) : map byteZ l = map byteZ l' -> l = l'.
Proof.
  revert l'. induction l as [|c l IH]; intros [|c' l']; cbn [map]; try discriminate;
    [reflexivity|].
  intros [= Hc Hl]. f_equal; [now apply byteZ_inj | now apply IH].
Qed.

Lemma inRange_spec (lo hi x : Z) : inRange lo hi x = true <-> lo <= x <= hi.
Proof. unfold inRange. rewrite andb_true_iff, !Z.leb_le. tauto. Qed.

(** A rune that [utf8.DecodeRune] reads from a valid encoding: the bytes
    after the encoding play no part, the encoding lies within the text, and
    [utf8.EncodeRune] gives the same bytes again. *)
Lemma utf8_DecodeRune_valid (p t : bytes) (rn : Z) (size : nat) :
  p <> [] -> utf8_DecodeRune p = (rn, size) ->
  Z.eqb rn RuneError && Nat.eqb size 1 = false ->
  utf8_DecodeRune (p ++ t) = (rn, size)
  /\ (1 <= size <= length p)%nat
  /\ utf8_EncodeRune rn = firstn size p.
Proof.
  assert (Hbad : forall q, (RuneError, 1%nat) = (rn, size) ->
                           Z.eqb rn RuneError && Nat.eqb size 1 = false -> q).
  { intros q [= <- <-]. discriminate. }
  destruct p as [|c0 p]; [congruence|]. intros _.
  unfold utf8_DecodeRune. cbn [app]. cbv zeta.
  destruct (Z.ltb_spec (byteZ c0) 128) as [H0|H0].
  { intros [= <- <-] _. repeat split; cbn [length firstn]; try lia.
    now apply utf8_EncodeRune_ascii. }
  destruct (inRange 194 223 (byteZ c0)) eqn:E2.
  { apply inRange_spec in E2.
    destruct p as [|c1 p]; [apply Hbad|]. cbn [app].
    destruct (isCont (byteZ c1)) eqn:E1; [|apply Hbad].
    apply inRange_spec in E1.
    intros [= <- <-] _. repeat split; cbn [length firstn]; try lia.
    apply map_byteZ_inj. now apply utf8_EncodeRune_two. }
  destruct (inRange 224 239 (byteZ c0)) eqn:E3.
  { apply inRange_spec in E3.
    destruct p as [|c1 [|c2 p]]; [apply Hbad..|]. cbn [app].
    destruct (inRange _ _ (byteZ c1) && isCont (byteZ c2)) eqn:E1; [|apply Hbad].
    apply andb_true_iff in E1 as [E1 Ec2]. apply inRange_spec in E1, Ec2.
    assert (Hr : 128 <= byteZ c1 <= 191
                 /\ (byteZ c0 = 224 -> 160 <= byteZ c1)
                 /\ (byteZ c0 = 237 -> byteZ c1 <= 159)).
    { revert E1. destruct (Z.eqb_spec (byteZ c0) 224);
        destruct (Z.eqb_spec (byteZ c0) 237); lia. }
    destruct Hr as (Hr1 & Hlo & Hhi).
    intros [= <- <-] _. repeat split; cbn [length firstn]; try lia.
    apply map_byteZ_inj. now apply utf8_EncodeRune_three. }
  destruct (inRange 240 244 (byteZ c0)) eqn:E4; [|apply Hbad].
  apply inRange_spec in E4.
  destruct p as [|c1 [|c2 [|c3 p]]]; [apply Hbad..|]. cbn [app].
  destruct (inRange _ _ (byteZ c1) && isCont (byteZ c2) && isCont (byteZ c3)) eqn:E1;
    [|apply Hbad].
  apply andb_true_iff in E1 as [E1 Ec3]. apply andb_true_iff in E1 as [E1 Ec2].
  apply inRange_spec in E1, Ec2, Ec3.
  assert (Hr : 128 <= byteZ c1 <= 191
               /\ (byteZ c0 = 240 -> 144 <= byteZ c1)
               /\ (byteZ c0 = 244 -> byteZ c1 <= 143)).
  { revert E1. destruct (Z.eqb_spec (byteZ c0) 240);
      destruct (Z.eqb_spec (byteZ c0) 244); lia. }
  destruct Hr as (Hr1 & Hlo & Hhi).
  intros [= <- <-] _. repeat split; cbn [length firstn]; try lia.
  apply map_byteZ_inj. now apply utf8_EncodeRune_four.
Qed.

(** ** Names that are JSON strings as they are *)

Lemma utf8_DecodeRune_ascii (c : byte) (p : bytes) :
  byteZ c < 128 -> utf8_DecodeRune (c :: p) = (byteZ c, 1%nat).
Proof.
  intros H. unfold utf8_DecodeRune. cbv zeta.
  destruct (Z.ltb_spec (byteZ c) 128); [reflexivity | lia].
Qed.

(** One rune off a valid text. *)
Lemma utf8_Valid_fuel_step (fuel : nat) (c : byte) (rest : bytes) :
  utf8_Valid_fuel fuel (c :: rest) = true ->
  exists fuel' rn size,
    fuel = S fuel'
    /\ utf8_DecodeRune (c :: rest) = (rn, size)
    /\ Z.eqb rn RuneError && Nat.eqb size 1 = false
    /\ utf8_Valid_fuel fuel' (skipn size (c :: rest)) = true.
Proof.
  destruct fuel as [|fuel']; [discriminate|]. cbn [utf8_Valid_fuel].
  destruct (utf8_DecodeRune (c :: rest)) as [rn size].
  destruct (Z.eqb rn RuneError && Nat.eqb size 1) eqn:E; [discriminate|].
  intros Hv. now exists fuel', rn, size.
Qed.

Lemma rfc8259_chars_unescaped (vfuel : nat) :
  forall (name post : bytes) (fuel : nat),
    utf8_Valid_fuel vfuel name = true ->
    Forall (fun c => 32 <= byteZ c /\ c <> dquote /\ c <> backslash) name ->
    (length name < fuel)%nat ->
    rfc8259_chars fuel (name ++ dquote :: post) = Some (name, post).
Proof.
  induction vfuel as [vfuel IH] using lt_wf_ind. intros name post fuel Hvalid Hall Hf.
  destruct fuel as [|fuel]; [lia|].
  destruct name as [|c rest].
  { cbn [app rfc8259_chars]. change (Byte.eqb dquote dquote) with true. reflexivity. }
  inversion Hall as [|? ? (Hc & Nq & Nb) Hrest]; subst.
  destruct (utf8_Valid_fuel_step vfuel c rest Hvalid)
    as (vfuel' & rn & size & -> & Hd & Hok & Hv').
  destruct (utf8_DecodeRune_valid (c :: rest) (dquote :: post) rn size
              ltac:(discriminate) Hd Hok) as (Hd' & Hsize & _).
  cbn [length] in Hf, Hsize.
  cbn [app rfc8259_chars].
  rewrite (byte_eqb_false c dquote Nq), (byte_eqb_false c backslash Nb).
  destruct (Z.ltb_spec (byteZ c) 32); [lia|].
  destruct (Z.ltb_spec (byteZ c) 128) as [Hascii|Hhigh].
  - rewrite (utf8_DecodeRune_ascii c rest Hascii) in Hd. injection Hd as <- <-.
    cbn [skipn] in Hv'.
    rewrite (IH vfuel' ltac:(lia) rest post fuel Hv' Hrest ltac:(lia)). reflexivity.
  - change (c :: rest ++ dquote :: post) with ((c :: rest) ++ dquote :: post).
    rewrite Hd', Hok.
    rewrite firstn_app, skipn_app.
    replace (size - length (c :: rest))%nat with 0%nat by (cbn [length]; lia).
    cbn [firstn skipn]. rewrite app_nil_r.
    rewrite (IH vfuel' ltac:(lia) (skipn size (c :: rest)) post fuel Hv').
    + cbn [prepend]. now rewrite firstn_skipn.
    + now apply Forall_drop.
    + rewrite length_skipn. cbn [length]. lia.
Qed.

Lemma readsToken_unescaped (vfuel : nat) :
  forall (name post : bytes),
    utf8_Valid_fuel vfuel name = true ->
    Forall (fun c => 32 <= byteZ c /\ c <> dquote /\ c <> backslash) name ->
    readsToken (name ++ dquote :: post) name (S (length name)).
Proof.
  induction vfuel as [vfuel IH] using lt_wf_ind. intros name post Hvalid Hall.
  destruct name as [|c rest]; [constructor|].
  inversion Hall as [|? ? (Hc & Nq & Nb) Hrest]; subst.
  destruct (utf8_Valid_fuel_step vfuel c rest Hvalid)
    as (vfuel' & rn & size & -> & Hd & Hok & Hv').
  destruct (utf8_DecodeRune_valid (c :: rest) (dquote :: post) rn size
              ltac:(discriminate) Hd Hok) as (Hd' & Hsize & Henc).
  cbn [length] in Hsize.
  destruct (Z.ltb_spec (byteZ c) 128) as [Hascii|Hhigh].
  - rewrite (utf8_DecodeRune_ascii c rest Hascii) in Hd. injection Hd as <- <-.
    cbn [skipn] in Hv'. cbn [app length].
    constructor; try assumption. now apply (IH vfuel' ltac:(lia)).
  - pose proof (IH vfuel' ltac:(lia) (skipn size (c :: rest)) post Hv'
                  ltac:(now apply Forall_drop)) as Hr.
    rewrite <- (firstn_skipn size (c :: rest)) at 2. rewrite <- Henc.
    replace (S (length (c :: rest)))
      with (size + S (length (skipn size (c :: rest))))%nat
      by (rewrite length_skipn; cbn [length]; lia).
    cbn [app]. apply readsToken_rune; [assumption | exact Hd'|].
    change (c :: rest ++ dquote :: post) with ((c :: rest) ++ dquote :: post).
    rewrite skipn_app.
    replace (size - length (c :: rest))%nat with 0%nat by (cbn [length]; lia).
    exact Hr.
Qed.

(** The repository's own reader gives such a name back. *)
Lemma parseJSONString_unescaped (name post : bytes) :
  name <> [] -> unescapedName name -> len name <= 4096 ->
  exists rest, parseJSONString (dquote :: name ++ dquote :: post) = Ok name rest.
Proof.
  intros Hne [Hvalid Hall] Hlen.
  pose proof (readsToken_unescaped (length name) name post Hvalid Hall) as Hr.
  destruct name as [|c rest]; [congruence|].
  inversion Hall as [|? ? (Hc & Nq & Nb) Hrest]; subst.
  eexists. unfold parseJSONString. cbn [skipSpace app].
  change (isSpace dquote) with false. cbn iota.
  change (Byte.eqb dquote dquote) with true.
  rewrite (byte_eqb_false c dquote Nq). cbn [andb negb skipn].
  rewrite (loop_reads (c :: rest ++ dquote :: post) (c :: rest ++ dquote :: post)
             (c :: rest) _ Hr [] 0);
    [reflexivity | reflexivity | assumption | lia].
Qed.

Lemma rfc8259_string_unescaped (name post : bytes) :
  unescapedName name ->
  rfc8259_string (name ++ dquote :: post) = Some (name, post).
Proof.
  intros [Hvalid Hall]. unfold rfc8259_string.
  apply (rfc8259_chars_unescaped (length name)); [assumption..|].
  rewrite length_app. cbn [length]. lia.
Qed.



